(** * Arbitrage_Engine: the odds fetcher and the arbitrage detector

    A shallow embedding of [app/services/odds_fetcher.py],
    [app/services/arbitrage_engine.py] and the part of [app/config.py] they
    call, with the properties the specification states about them.

    Conventions of the embedding.
    - Numbers have two readings. In the exact reading a Python number (an
      [int] or a [float]) is its value, a rational of [Q]; comparisons are
      the boolean ones of [Q], and results are compared with [==]. It is
      the reading of the statements about the order of the odds and the
      structure of the results. In the binary64 reading of [Module B64] an
      [int] is an integer and a [float] a primitive float whose operations
      round; it is the reading of the statements about the values the
      conversion and the detection return.
    - A Python [dict] is an association list in insertion order with the
      operations of [Module Dict]; iteration order is list order.
    - A JSON record of the upstream feed is a Rocq record whose optional
      fields are options ([None]: the key is absent); a field that is present
      has the type the feed documents. [Module Wire] embeds the moneyline
      normalization on records whose fields can also be [null].
    - What [float] returns on a [Retry-After] header is a number, an
      infinity or a NaN, and [time.sleep] raises on what it does not accept.
    - The HTTP layer is a state and exception monad over a world that holds
      the replies the upstream will give, in order, and the log of requests,
      sleeps and printed lines. *)

From Stdlib Require Import List String Bool ZArith QArith Qabs Qround Lia Lqa.
From Stdlib Require Import DecimalString.
From Stdlib Require Import Floats.
From Stdlib Require Uint63.
Import ListNotations.

(** A decimal literal of a float stands for the binary64 nearest to it, as
    in Python. *)
#[local] Set Warnings "-inexact-float".
Local Open Scope string_scope.
Local Open Scope Q_scope.

(** * Part I: the embedding *)

(** ** Numbers *)

(** [x < y] on Python numbers, as a boolean. *)
Definition Qltb (x y : Q) : bool := negb (Qle_bool y x).

(** Rounding of a rational to the nearest integer, ties to the even one:
    what Python's [round] does on the exact value of its argument. *)
Definition round_half_even (x : Q) : Z :=
  let f := Qfloor x in
  let r := x - inject_Z f in
  if Qltb r (1 # 2) then f
  else if Qltb (1 # 2) r then (f + 1)%Z
  else if Z.even f then f else (f + 1)%Z.

(** [round(x, 3)] in the exact reading; [B64.round3] is the one on
    floats. *)
Definition round3 (x : Q) : Q := inject_Z (round_half_even (x * 1000)) / 1000.

(** What [float(s)] returns on a string it accepts: a finite number, an
    infinity ([float("inf")], [float("-inf")]) or a NaN ([float("nan")]). *)
Inductive pyfloat :=
| Finite (q : Q)
| Infinity (negative : bool)
| NaN.

(** What the embedding takes from the Python runtime and the process
    environment: [float(s)] on a string ([None] when it raises [ValueError]),
    the text of a number inside an f-string, the API key read from the
    environment, and the longest wait [time.sleep] accepts (CPython keeps the
    wait as a 64-bit count of nanoseconds, about 9.2e9 seconds). *)
Class Runtime := {
  py_float : string -> option pyfloat;
  py_str : Q -> string;
  ODDS_API_KEY : option string;
  SLEEP_MAX : Q
}.

(** Truthiness of a string: [""] is falsy. *)
Definition truthy (s : string) : bool := negb (String.eqb s "").

(** ** Dictionaries in insertion order *)

Module Dict.

Definition t (V : Type) := list (string * V).

Fixpoint get {V} (k : string) (d : t V) : option V :=
  match d with
  | [] => None
  | (k', v) :: d' => if String.eqb k k' then Some v else get k d'
  end.

(** [d[k] = v]: an existing key keeps its place, a new one goes last. *)
Fixpoint set {V} (k : string) (v : V) (d : t V) : t V :=
  match d with
  | [] => [(k, v)]
  | (k', v') :: d' =>
      if String.eqb k k' then (k', v) :: d' else (k', v') :: set k v d'
  end.

Definition keys {V} (d : t V) : list string := map fst d.

(** [d.setdefault(k, dflt)] followed by the in-place update [f] of the
    object it returns. *)
Definition update {V} (k : string) (dflt : V) (f : V -> V) (d : t V) : t V :=
  match get k d with
  | Some v => set k (f v) d
  | None => set k (f dflt) d
  end.

End Dict.

(** ** config *)

Definition ODDS_API_BASE_URL : string := "https://api.the-odds-api.com/v4".
Definition ODDS_API_TIMEOUT_SECONDS : Z := 30.
Definition ODDS_API_REGION : string := "us".
Definition ODDS_API_FORMAT : string := "american".

Definition SPORT_KEY_ALIASES : Dict.t string :=
  [ ("nhl", "icehockey_nhl");
    ("nfl", "americanfootball_nfl");
    ("soccer", "soccer_usa_mls");
    ("nba", "basketball_nba");
    ("mlb", "baseball_mlb");
    ("ufc", "mma_mixed_martial_arts") ].

Definition resolve_sport_key (sport_key : string) : string :=
  match Dict.get sport_key SPORT_KEY_ALIASES with
  | Some sport => sport
  | None => sport_key
  end.

(** ** odds_fetcher.odds_to_probability *)

(** The exact reading: the quotient itself. [B64.odds_to_probability] is the
    float the code returns. *)
Definition odds_to_probability (odds : Q) : Q :=
  if Qltb 0 odds then 100 / (odds + 100)
  else Qabs odds / (Qabs odds + 100).

(** ** Exceptions and the world of the HTTP layer *)

Inductive exn :=
| HTTPError (status_code : Z) (retry_after : option string)
| ConnectionError
| KeyError (key : string)
| ValueError
| OverflowError
| TypeError.

(** What [requests.get] is called with. *)
Record request := mkRequest {
  url : string;
  apiKey : option string;
  regions : string;
  markets_param : string;
  oddsFormat : string;
  timeout : Z
}.

(** What the upstream does with a request: it answers with a status, an
    optional [Retry-After] header and a JSON body, or the transport fails. *)
Inductive reply (A : Type) :=
| Response (status_code : Z) (retry_after : option string) (json : A)
| NoResponse.
Arguments Response {A}.
Arguments NoResponse {A}.

Record world (A : Type) := mkWorld {
  pending : list (reply A);
  requests : list request;
  slept : list Q;
  printed : list string
}.
Arguments mkWorld {A}.
Arguments pending {A}.
Arguments requests {A}.
Arguments slept {A}.
Arguments printed {A}.

Inductive outcome (B : Type) :=
| Return (b : B)
| Raise (e : exn)
| OutOfFuel.
Arguments Return {B}.
Arguments Raise {B}.
Arguments OutOfFuel {B}.

(** A computation over a world whose replies carry bodies of type [A]. *)
Definition M (A B : Type) := world A -> outcome B * world A.

Definition ret {A B} (b : B) : M A B := fun w => (Return b, w).

Definition raise {A B} (e : exn) : M A B := fun w => (Raise e, w).

Definition bind {A B C} (m : M A B) (k : B -> M A C) : M A C :=
  fun w =>
    match m w with
    | (Return b, w') => k b w'
    | (Raise e, w') => (Raise e, w')
    | (OutOfFuel, w') => (OutOfFuel, w')
    end.

(** [try: m except HTTPError as exc: h exc]. *)
Definition except_HTTPError {A B} (m : M A B)
    (h : Z -> option string -> M A B) : M A B :=
  fun w =>
    match m w with
    | (Raise (HTTPError status hdr), w') => h status hdr w'
    | r => r
    end.

Notation "x <- m ;; k" := (bind m (fun x => k))
  (at level 61, m at next level, right associativity).
Notation "m ;;; k" := (bind m (fun _ => k))
  (at level 61, right associativity).

(** [requests.get(...)]: the request is logged and the next reply is taken;
    when the upstream has nothing to say the transport fails. *)
Definition requests_get {A} (req : request) : M A (Z * option string * A) :=
  fun w =>
    match pending w with
    | Response status hdr json :: rest =>
        (Return (status, hdr, json),
         mkWorld rest (requests w ++ [req])%list (slept w) (printed w))
    | NoResponse :: rest =>
        (Raise ConnectionError,
         mkWorld rest (requests w ++ [req])%list (slept w) (printed w))
    | [] =>
        (Raise ConnectionError,
         mkWorld [] (requests w ++ [req])%list (slept w) (printed w))
    end.

(** The statuses [raise_for_status] raises on: client and server errors. *)
Definition error_status (status : Z) : bool :=
  ((400 <=? status) && (status <? 600))%Z.

(** [response.raise_for_status()]. *)
Definition raise_for_status {A} (status : Z) (hdr : option string) : M A unit :=
  if error_status status then raise (HTTPError status hdr) else ret tt.

(** What [time.sleep(seconds)] does with its argument: the seconds it
    sleeps, or the exception it raises. A NaN is a [ValueError]; an infinity
    or a number beyond [SLEEP_MAX] does not fit the timestamp and is an
    [OverflowError]; a negative number is a [ValueError]. *)
Definition sleep_seconds `{Runtime} (seconds : pyfloat) : exn + Q :=
  match seconds with
  | NaN => inl ValueError
  | Infinity _ => inl OverflowError
  | Finite q =>
      if Qltb SLEEP_MAX (Qabs q) then inl OverflowError
      else if Qltb q 0 then inl ValueError
      else inr q
  end.

Definition time_sleep `{Runtime} {A} (seconds : pyfloat) : M A unit :=
  match sleep_seconds seconds with
  | inl e => raise e
  | inr q =>
      fun w => (Return tt,
                mkWorld (pending w) (requests w) (slept w ++ [q])%list
                  (printed w))
  end.

Definition print {A} (line : string) : M A unit :=
  fun w => (Return tt,
            mkWorld (pending w) (requests w) (slept w) (printed w ++ [line])%list).

(** ** odds_fetcher: the requests *)

(** The arguments of [requests.get] in [_request]. *)
Definition request_of `{Runtime} (path : string) (markets : list string)
    : request :=
  {| url := ODDS_API_BASE_URL ++ path;
     apiKey := ODDS_API_KEY;
     regions := ODDS_API_REGION;
     markets_param := String.concat "," markets;
     oddsFormat := ODDS_API_FORMAT;
     timeout := ODDS_API_TIMEOUT_SECONDS |}.

Definition _request `{Runtime} {A} (path : string) (markets : list string)
    : M A A :=
  r <- requests_get (request_of path markets) ;;
  let '(status, hdr, json) := r in
  raise_for_status status hdr ;;;
  ret json.

(** Lines 61 to 65: [float(retry_after_header) if retry_after_header else 0],
    and 0 when [float] raises [ValueError]. *)
Definition retry_after_value `{Runtime} (retry_after_header : option string)
    : pyfloat :=
  match retry_after_header with
  | Some h =>
      if truthy h
      then match py_float h with Some v => v | None => Finite 0 end
      else Finite 0
  | None => Finite 0
  end.

(** [x <= 0]: false of a NaN and of the positive infinity. *)
Definition le_zero (x : pyfloat) : bool :=
  match x with
  | Finite q => Qle_bool q 0
  | Infinity negative => negative
  | NaN => false
  end.

(** Lines 61 to 68: what [time.sleep] is called with before the next
    attempt. *)
Definition wait_value `{Runtime} (retry_after_header : option string)
    (attempt : Z) : pyfloat :=
  let wait := retry_after_value retry_after_header in
  if le_zero wait then Finite (inject_Z (2 ^ attempt)) else wait.

(** The seconds of that wait when it is a number; 0 stands for a NaN and
    for an infinity, which [time.sleep] refuses. *)
Definition wait_seconds `{Runtime} (retry_after_header : option string)
    (attempt : Z) : Q :=
  match wait_value retry_after_header attempt with
  | Finite q => q
  | _ => 0
  end.

(** The [while True] loop; [fuel] bounds the number of iterations. *)
Fixpoint retry_loop `{Runtime} {A} (fuel : nat) (path : string)
    (markets : list string) (max_retries attempt : Z) : M A A :=
  match fuel with
  | O => fun w => (OutOfFuel, w)
  | S fuel' =>
      except_HTTPError (_request path markets)
        (fun status_code hdr =>
           if negb (status_code =? 429)%Z || (attempt >=? max_retries)%Z
           then raise (HTTPError status_code hdr)
           else
             time_sleep (wait_value hdr attempt) ;;;
             retry_loop fuel' path markets max_retries (attempt + 1)%Z)
  end.

(** An iteration either leaves the loop or adds one to [attempt], and the
    loop is left once [attempt >= max_retries]. *)
Definition _request_with_429_retry `{Runtime} {A} (path : string)
    (markets : list string) (max_retries : Z) : M A A :=
  retry_loop (S (Z.to_nat max_retries)) path markets max_retries 0.

(** ** The feed's records *)

Record raw_outcome := mkOutcome {
  o_name : option string;
  o_description : option string;
  o_point : option Q;
  o_price : option Q
}.

Record raw_market := mkMarket {
  m_key : option string;
  m_outcomes : option (list raw_outcome)
}.

Record raw_bookmaker := mkBookmaker {
  b_title : option string;
  b_key : option string;
  b_markets : option (list raw_market)
}.

Record raw_game := mkRawGame {
  g_id : option string;
  g_home_team : option string;
  g_away_team : option string;
  g_commence_time : option string;
  g_bookmakers : option (list raw_bookmaker)
}.

(** The body of an event's odds; [{}] is [mkRawEvent None]. *)
Record raw_event := mkRawEvent {
  e_bookmakers : option (list raw_bookmaker)
}.

(** [d.get(k, [])] on a key that is absent or holds a list; the key whose
    value is [null] is the subject of [Module Wire]. *)
Definition get_default {T} (field : option (list T)) : list T :=
  match field with Some l => l | None => [] end.

(** ** odds_fetcher: the fetches *)

Definition fetch_upcoming_games `{Runtime} (sport_key : string)
    : M (list raw_game) (list raw_game) :=
  let sport := resolve_sport_key sport_key in
  _request ("/sports/" ++ sport ++ "/odds") ["h2h"].

Definition string_of_Z (z : Z) : string := NilZero.string_of_int (Z.to_int z).

Definition fetch_event_props `{Runtime} (sport_key event_id : string)
    (markets : list string) : M raw_event (raw_event * Z) :=
  match markets with
  | [] => ret (mkRawEvent None, 0%Z)
  | _ :: _ =>
      let sport := resolve_sport_key sport_key in
      let path := "/sports/" ++ sport ++ "/events/" ++ event_id ++ "/odds" in
      except_HTTPError
        (json <- _request_with_429_retry path markets 3 ;; ret (json, 0%Z))
        (fun status_code _ =>
           print ("Skipping props for event " ++ event_id ++
                  " after request failure. Status: " ++
                  string_of_Z status_code ++ ".") ;;;
           ret (mkRawEvent None, 1%Z))
  end.

(** ** odds_fetcher: normalization *)

(** [{"odds": ..., "implied_prob": ...}]. *)
Record price := mkPrice {
  price_odds : Q;
  price_implied_prob : Q
}.

(** A normalized game. *)
Record game := mkGame {
  game_id : string;
  home_team : string;
  away_team : string;
  commence_time : option string;
  books : Dict.t (Dict.t price)
}.

(** [bookmaker.get("title", bookmaker.get("key"))]. *)
Definition book_name_of (bookmaker : raw_bookmaker) : option string :=
  match b_title bookmaker with
  | Some title => Some title
  | None => b_key bookmaker
  end.

(** [not book_name]. *)
Definition usable_name (name : option string) : option string :=
  match name with
  | Some n => if truthy n then Some n else None
  | None => None
  end.

Definition is_h2h (m : raw_market) : bool :=
  match m_key m with
  | Some k => String.eqb k "h2h"
  | None => false
  end.

(** The body of the loop over a market's outcomes (lines 137 to 145). *)
Definition add_outcome (teams : Dict.t price) (outcome : raw_outcome)
    : Dict.t price :=
  match o_name outcome, o_price outcome with
  | Some team, Some odds =>
      Dict.set team
        {| price_odds := odds; price_implied_prob := odds_to_probability odds |}
        teams
  | _, _ => teams
  end.

(** The body of the loop over a game's bookmakers (lines 124 to 148). *)
Definition add_bookmaker (books : Dict.t (Dict.t price))
    (bookmaker : raw_bookmaker) : Dict.t (Dict.t price) :=
  match usable_name (book_name_of bookmaker) with
  | None => books
  | Some book_name =>
      match find is_h2h (get_default (b_markets bookmaker)) with
      | None => books
      | Some market =>
          let teams :=
            fold_left add_outcome (get_default (m_outcomes market)) [] in
          match teams with
          | [] => books
          | _ :: _ => Dict.set book_name teams books
          end
      end
  end.

(** One game of the loop of [normalize_moneyline_odds] (lines 114 to 148):
    the subscripts [game["id"]], [game["home_team"]] and [game["away_team"]]
    raise [KeyError] on a missing key, in this order. *)
Definition normalize_game (g : raw_game) : exn + game :=
  match g_id g with
  | None => inl (KeyError "id")
  | Some id =>
      match g_home_team g with
      | None => inl (KeyError "home_team")
      | Some home =>
          match g_away_team g with
          | None => inl (KeyError "away_team")
          | Some away =>
              inr {| game_id := id;
                     home_team := home;
                     away_team := away;
                     commence_time := g_commence_time g;
                     books := fold_left add_bookmaker
                                (get_default (g_bookmakers g)) [] |}
          end
      end
  end.

(** The body of the loop over the raw games: an exception raised for a game
    ends the loop, otherwise [normalized[game_id] = game_data]. *)
Definition add_game (acc : exn + Dict.t game) (g : raw_game)
    : exn + Dict.t game :=
  match acc with
  | inl e => inl e
  | inr normalized =>
      match normalize_game g with
      | inl e => inl e
      | inr game_data =>
          inr (Dict.set (game_id game_data) game_data normalized)
      end
  end.

Definition normalize_moneyline_odds (raw_games : list raw_game)
    : exn + Dict.t game :=
  fold_left add_game raw_games (inr []).

(** A player-line bucket: [{"player": ..., "line": ..., "books": {...}}]. *)
Record player_line := mkPlayerLine {
  pl_player : string;
  pl_line : Q;
  pl_books : Dict.t (Dict.t price)
}.

Definition is_over_under (side : option string) : option string :=
  match side with
  | Some s => if String.eqb s "Over" || String.eqb s "Under" then Some s else None
  | None => None
  end.

(** The body of the loop over a prop market's outcomes (lines 176 to 199). *)
Definition add_prop_outcome `{Runtime} (book_name : string)
    (market_bucket : Dict.t player_line) (outcome : raw_outcome)
    : Dict.t player_line :=
  match is_over_under (o_name outcome) with
  | None => market_bucket
  | Some side =>
      match o_description outcome, o_point outcome, o_price outcome with
      | Some player, Some line, Some odds =>
          let player_line_key := player ++ "|" ++ py_str line in
          Dict.update player_line_key
            {| pl_player := player; pl_line := line; pl_books := [] |}
            (fun entry =>
               {| pl_player := pl_player entry;
                  pl_line := pl_line entry;
                  pl_books :=
                    Dict.update book_name []
                      (Dict.set side
                         {| price_odds := odds;
                            price_implied_prob := odds_to_probability odds |})
                      (pl_books entry) |})
            market_bucket
      | _, _, _ => market_bucket
      end
  end.

(** The body of the loop over a bookmaker's markets (lines 169 to 199). *)
Definition add_prop_market `{Runtime} (book_name : string)
    (by_market : Dict.t (Dict.t player_line)) (market : raw_market)
    : Dict.t (Dict.t player_line) :=
  match usable_name (m_key market) with
  | None => by_market
  | Some market_type =>
      Dict.update market_type []
        (fun market_bucket =>
           fold_left (add_prop_outcome book_name)
             (get_default (m_outcomes market)) market_bucket)
        by_market
  end.

(** The body of the loop over an event's bookmakers (lines 164 to 199). *)
Definition add_prop_bookmaker `{Runtime}
    (by_market : Dict.t (Dict.t player_line)) (bookmaker : raw_bookmaker)
    : Dict.t (Dict.t player_line) :=
  match usable_name (book_name_of bookmaker) with
  | None => by_market
  | Some book_name =>
      fold_left (add_prop_market book_name)
        (get_default (b_markets bookmaker)) by_market
  end.

Definition normalize_prop_odds `{Runtime} (game_id : string)
    (raw_event_odds : raw_event) : Dict.t (Dict.t (Dict.t player_line)) :=
  [ (game_id,
     fold_left add_prop_bookmaker
       (get_default (e_bookmakers raw_event_odds)) []) ].

(** ** arbitrage_engine *)

(** A best price: [{"book": ..., "odds": ..., "implied_prob": ...}]. *)
Record side := mkSide {
  book : string;
  odds : Q;
  implied_prob : Q
}.

(** The five keys of the dict [detect_two_way_arbitrage] returns. *)
Record arb := mkArb {
  profit_percent : Q;
  over_book : string;
  under_book : string;
  over_odds : Q;
  under_odds : Q
}.

Definition detect_two_way_arbitrage (side_a side_b : option side) : option arb :=
  match side_a, side_b with
  | Some a, Some b =>
      let total_prob := implied_prob a + implied_prob b in
      if Qle_bool 1 total_prob then None
      else Some {| profit_percent := round3 ((1 - total_prob) * 100);
                   over_book := book a;
                   under_book := book b;
                   over_odds := odds a;
                   under_odds := odds b |}
  | _, _ => None
  end.

(** The body of the loop of [_best_price_for_team] and of [_best_prop_side]
    (lines 31 to 41 and 83 to 93, the same text up to the names). *)
Definition best_step (name : string) (best : option side)
    (item : string * Dict.t price) : option side :=
  let '(bk, prices) := item in
  match Dict.get name prices with
  | None => best
  | Some data =>
      let o := price_odds data in
      let better :=
        match best with
        | None => true
        | Some b => Qltb (odds b) o
        end in
      if better
      then Some {| book := bk; odds := o;
                   implied_prob := price_implied_prob data |}
      else best
  end.

Definition _best_price_for_team (game_data : game) (team_name : string)
    : option side :=
  fold_left (best_step team_name) (books game_data) None.

Definition _best_prop_side (books_data : Dict.t (Dict.t price))
    (side_name : string) : option side :=
  fold_left (best_step side_name) books_data None.

(** A row of the opportunities table; [arb_of] holds the keys of [**arb]. *)
Record opportunity := mkOpportunity {
  opp_game_id : string;
  market_type : string;
  player_name : option string;
  line_value : option Q;
  opp_home_team : option string;
  opp_away_team : option string;
  arb_of : arb
}.

Definition detect_moneyline_arbitrage (games_by_id : Dict.t game)
    : list opportunity :=
  fold_left
    (fun opportunities '(game_id, game) =>
       let home := _best_price_for_team game (home_team game) in
       let away := _best_price_for_team game (away_team game) in
       match detect_two_way_arbitrage home away with
       | None => opportunities
       | Some arb =>
           (opportunities ++
            [ {| opp_game_id := game_id;
                 market_type := "h2h";
                 player_name := None;
                 line_value := None;
                 opp_home_team := Some (home_team game);
                 opp_away_team := Some (away_team game);
                 arb_of := arb |} ])%list
       end)
    games_by_id [].

(** The body of the innermost loop of [detect_prop_arbitrage]. *)
Definition prop_step (game_id market_type : string)
    (opportunities : list opportunity) (item : string * player_line)
    : list opportunity :=
  let player_line_data := snd item in
  let over := _best_prop_side (pl_books player_line_data) "Over" in
  let under := _best_prop_side (pl_books player_line_data) "Under" in
  match detect_two_way_arbitrage over under with
  | None => opportunities
  | Some arb =>
      (opportunities ++
       [ {| opp_game_id := game_id;
            market_type := market_type;
            player_name := Some (pl_player player_line_data);
            line_value := Some (pl_line player_line_data);
            opp_home_team := None;
            opp_away_team := None;
            arb_of := arb |} ])%list
  end.

Definition detect_prop_arbitrage
    (normalized_props : Dict.t (Dict.t (Dict.t player_line)))
    : list opportunity :=
  fold_left
    (fun opportunities '(game_id, markets) =>
       fold_left
         (fun opportunities '(market_type, player_lines) =>
            fold_left (prop_step game_id market_type) player_lines
              opportunities)
         markets opportunities)
    normalized_props [].

(** ** Vocabulary of the statements *)

(** The bookmaker at position [i] of [books_data], named [bk], offers the
    team or side [name] at the price [p]. *)
Definition offered (name : string) (books_data : Dict.t (Dict.t price))
    (i : nat) (bk : string) (p : price) : Prop :=
  exists prices,
    nth_error books_data i = Some (bk, prices) /\ Dict.get name prices = Some p.

(** What the loop has selected when it has gone through [bks]: nothing when
    no bookmaker offers [name]; otherwise the price of the bookmaker at a
    position [i] that no other position beats and that beats every earlier
    one. *)
Definition selected (name : string) (bks : Dict.t (Dict.t price))
    (best : option side) : Prop :=
  match best with
  | None => forall i bk p, ~ offered name bks i bk p
  | Some s =>
      exists i p,
        offered name bks i (book s) p /\
        odds s = price_odds p /\
        implied_prob s = price_implied_prob p /\
        forall j bk' p', offered name bks j bk' p' ->
          price_odds p' <= odds s /\ ((j < i)%nat -> price_odds p' < odds s)
  end.

(** Odds of the American convention are at least 100 in absolute value. *)
Definition american (o : Q) : Prop := 100 <= Qabs o.

(** A stored price whose implied probability is the conversion of its odds,
    as the normalizer builds it. *)
Definition converted (p : price) : Prop :=
  price_implied_prob p == odds_to_probability (price_odds p).

(** The row of one game, when its best prices form an arbitrage. *)
Definition moneyline_rows (item : string * game) : list opportunity :=
  let '(game_id, game) := item in
  match detect_two_way_arbitrage
          (_best_price_for_team game (home_team game))
          (_best_price_for_team game (away_team game)) with
  | None => []
  | Some arb =>
      [ {| opp_game_id := game_id; market_type := "h2h";
           player_name := None; line_value := None;
           opp_home_team := Some (home_team game);
           opp_away_team := Some (away_team game);
           arb_of := arb |} ]
  end.

(** A reply with status 429, from its [Retry-After] header and its body. *)
Definition too_many {A} (r : option string * A) : reply A :=
  Response 429 (fst r) (snd r).

(** The waits of successive retries from [attempt] on, given the
    [Retry-After] header of each 429 reply. *)
Fixpoint backoff `{Runtime} (headers : list (option string)) (attempt : Z)
    : list Q :=
  match headers with
  | [] => []
  | h :: headers' => wait_seconds h attempt :: backoff headers' (attempt + 1)
  end.

(** Every wait of successive retries from [attempt] on is one [time.sleep]
    accepts. *)
Fixpoint accepted_waits `{Runtime} (headers : list (option string))
    (attempt : Z) : bool :=
  match headers with
  | [] => true
  | h :: headers' =>
      match sleep_seconds (wait_value h attempt) with
      | inl _ => false
      | inr _ => accepted_waits headers' (attempt + 1)
      end
  end.

(** The world after [n] requests [req] that consumed the replies before
    [rest], with the sleeps [waits] in between. *)
Definition after {A} (w : world A) (req : request) (n : nat)
    (waits : list Q) (rest : list (reply A)) : world A :=
  mkWorld rest (requests w ++ repeat req n)%list (slept w ++ waits)%list
    (printed w).

(** The exceptions the prop fetch lets through: the failure of the
    transport and the two exceptions of [time.sleep]. *)
Definition let_through (e : exn) : Prop :=
  e = ConnectionError \/ e = ValueError \/ e = OverflowError.

(** The path of the props of an event. *)
Definition props_path (sport_key event_id : string) : string :=
  ("/sports/" ++ resolve_sport_key sport_key ++ "/events/" ++ event_id ++
   "/odds")%string.

(** The line printed when the props of an event are skipped. *)
Definition skip_line (event_id : string) (status_code : Z) : string :=
  ("Skipping props for event " ++ event_id ++
   " after request failure. Status: " ++ string_of_Z status_code ++ ".")%string.








(** The price the normalizers store for the odds [o]. *)
Definition price_of (o : Q) : price :=
  {| price_odds := o; price_implied_prob := odds_to_probability o |}.

(** A raw game that carries the three fields [normalize_moneyline_odds]
    subscripts. *)
Definition complete_game (g : raw_game) : Prop :=
  g_id g <> None /\ g_home_team g <> None /\ g_away_team g <> None.

(** ** Sample data *)

(** A runtime for the examples: [float] reads the numerals ["2"], ["0"] and
    ["1e10"] and the texts ["nan"] and ["inf"]. *)
Definition example_runtime : Runtime :=
  {| py_float := fun s =>
       if String.eqb s "2" then Some (Finite 2)
       else if String.eqb s "0" then Some (Finite 0)
       else if String.eqb s "1e10" then Some (Finite 10000000000)
       else if String.eqb s "nan" then Some NaN
       else if String.eqb s "inf" then Some (Infinity false)
       else None;
     py_str := fun _ => "?";
     ODDS_API_KEY := Some "key";
     SLEEP_MAX := 9223372036 |}.

(** An upstream that answers 429 with [Retry-After: nan], then 200. *)
Definition busy_nan {A} (json : A) : world A :=
  mkWorld [Response 429 (Some "nan") json; Response 200 None json] [] [] [].

(** An upstream that answers 429 with [Retry-After: 1e10], then 200. *)
Definition busy_long {A} (json : A) : world A :=
  mkWorld [Response 429 (Some "1e10") json; Response 200 None json] [] [] [].

(** An upstream that answers 429 with [Retry-After: 2], then 200. *)
Definition busy_once {A} (json : A) : world A :=
  mkWorld [Response 429 (Some "2") json; Response 200 None json] [] [] [].

(** An upstream that always answers 429 without a header (five replies are
    more than any call of the examples consumes). *)
Definition always_busy {A} (json : A) : world A :=
  mkWorld (repeat (Response 429 None json) 5) [] [] [].

(** A game in which the one bookmaker [A] quotes both teams at +110. *)
Definition one_book_game : game :=
  {| game_id := "g1"; home_team := "H"; away_team := "W";
     commence_time := None;
     books :=
       [ ("A", [ ("H", {| price_odds := 110; price_implied_prob := 10 # 21 |});
                 ("W", {| price_odds := 110; price_implied_prob := 10 # 21 |}) ]) ] |}.

(** Two bookmakers quoting the side [X], the favourite price first. *)
Definition two_books : Dict.t (Dict.t price) :=
  [ ("A", [ ("X", {| price_odds := -110;
                      price_implied_prob := odds_to_probability (-110) |}) ]);
    ("B", [ ("X", {| price_odds := 120;
                      price_implied_prob := odds_to_probability 120 |}) ]) ].

(** Book A quotes the home team at +120 and book B the away team at +150,
    next to an outcome without a name; a third bookmaker has neither a title
    nor a key. *)
Definition book_A : raw_bookmaker :=
  mkBookmaker (Some "A") None
    (Some [ mkMarket (Some "h2h")
              (Some [ mkOutcome (Some "H") None None (Some 120) ]) ]).

Definition book_nameless : raw_bookmaker :=
  mkBookmaker None None
    (Some [ mkMarket (Some "h2h")
              (Some [ mkOutcome (Some "W") None None (Some 500) ]) ]).

Definition outcome_W : raw_outcome :=
  mkOutcome (Some "W") None None (Some 150).

Definition outcome_nameless : raw_outcome :=
  mkOutcome None None None (Some 900).

Definition book_B : raw_bookmaker :=
  mkBookmaker (Some "B") None
    (Some [ mkMarket (Some "h2h") (Some [ outcome_W; outcome_nameless ]) ]).

Definition sample_games : list raw_game :=
  [ mkRawGame (Some "g1") (Some "H") (Some "W") None
      (Some [ book_A; book_nameless; book_B ]) ].

(** What [sample_games] normalizes to. *)
Definition sample_normalized : Dict.t game :=
  [ ("g1",
     {| game_id := "g1"; home_team := "H"; away_team := "W";
        commence_time := None;
        books :=
          [ ("A", [ ("H", {| price_odds := 120;
                              price_implied_prob := odds_to_probability 120 |}) ]);
            ("B", [ ("W", {| price_odds := 150;
                              price_implied_prob := odds_to_probability 150 |}) ]) ]
     |}) ].








(** A game with no bookmakers, and one without an [id]. *)
Definition bare_game : raw_game :=
  mkRawGame (Some "g2") (Some "H") (Some "W") None None.

Definition nameless_game : raw_game :=
  mkRawGame None (Some "H") (Some "W") None None.

(** * Part I, continued: the rest of the code

    The prop markets of [app/config.py], the pipelines and the bearer token
    of [app/main.py], and the rows and upserts of
    [app/db/supabase_client.py].

    Conventions added here.
    - The storage is a state of its own: the number of readings of the clock
      and the list of the upserts executed; an upsert is taken to return.
      The timestamp of a row is the text of the clock at its reading.
    - [fetch_prop_opportunities] is embedded as its callers use it, with the
      normalized games given.
    - The endpoints of the web application, the command line, and the two
      runs that mix game and event requests are not embedded. *)

(** ** config: the prop markets *)

Definition PROP_MARKETS_BY_SPORT : Dict.t (list string) :=
  [ ("americanfootball_nfl",
     [ "player_pass_tds"; "player_rush_yds"; "player_rec_yds" ]);
    ("basketball_nba",
     [ "player_points"; "player_rebounds"; "player_assists" ]) ].

Definition get_prop_markets (sport_key : string) : list string :=
  match Dict.get (resolve_sport_key sport_key) PROP_MARKETS_BY_SPORT with
  | Some markets => markets
  | None => []
  end.

(** ** Invariants of the normalized structures *)

(** The prices of one bookmaker: at least one, one per team or side, each
    storing the conversion of its odds. *)
Definition well_formed_prices (prices : Dict.t price) : Prop :=
  prices <> [] /\ NoDup (Dict.keys prices) /\
  Forall (fun kv => converted (snd kv)) prices.

(** The books of a normalized game: one entry per bookmaker name, no empty
    name, and well-formed prices. *)
Definition well_formed_books (bks : Dict.t (Dict.t price)) : Prop :=
  NoDup (Dict.keys bks) /\
  Forall (fun kv => fst kv <> ""%string /\ well_formed_prices (snd kv)) bks.

(** The sides of a prop book entry are [Over] and [Under] only. *)
Definition over_under_only (sides : Dict.t price) : Prop :=
  Forall (fun kv => fst kv = "Over"%string \/ fst kv = "Under"%string) sides.

(** What holds of the books of an entry and is kept by adding a price. *)
Definition books_ok (bks : Dict.t (Dict.t price)) : Prop :=
  well_formed_books bks /\ Forall (fun kv => over_under_only (snd kv)) bks.

(** A player-line entry stored under [key]: the key is made of its player
    and line, and it has at least one book, each with a name and well-formed
    [Over]/[Under] prices. *)
Definition well_formed_entry `{Runtime} (key : string) (e : player_line)
    : Prop :=
  key = (pl_player e ++ "|" ++ py_str (pl_line e))%string /\
  pl_books e <> [] /\
  well_formed_books (pl_books e) /\
  Forall (fun kv => over_under_only (snd kv)) (pl_books e).

(** The buckets of one market type, and the markets of an event. *)
Definition well_formed_bucket `{Runtime} (bucket : Dict.t player_line) : Prop :=
  NoDup (Dict.keys bucket) /\
  Forall (fun kv => well_formed_entry (fst kv) (snd kv)) bucket.

Definition well_formed_markets `{Runtime}
    (by_market : Dict.t (Dict.t player_line)) : Prop :=
  NoDup (Dict.keys by_market) /\
  Forall (fun kv => fst kv <> ""%string /\ well_formed_bucket (snd kv))
    by_market.

(** A second raw game with the id of the sample, and the home team [Z]. *)
Definition renamed_game : raw_game :=
  mkRawGame (Some "g1") (Some "Z") (Some "W") None None.

(** Markets of the examples: totals, and two [h2h] markets. *)
Definition totals_market : raw_market :=
  mkMarket (Some "totals") (Some [ mkOutcome (Some "Over") None (Some 210) (Some (-110)) ]).

Definition h2h_market : raw_market :=
  mkMarket (Some "h2h") (Some [ mkOutcome (Some "H") None None (Some 120) ]).

Definition second_h2h_market : raw_market :=
  mkMarket (Some "h2h") (Some [ mkOutcome (Some "H") None None (Some 900) ]).

(** ** main: the bearer token *)

(** What [extract_auth_token] ends in: the token, or one of the two
    exceptions its text can raise. *)
Inductive token_result :=
| Token (token : string)
| AssertionError
| IndexError.

(** The space character. *)
Definition space : Ascii.ascii := Ascii.ascii_of_nat 32.

(** [s.split(" ", 1)[1]]: what follows the first space, if there is one. *)
Fixpoint after_first_space (s : string) : option string :=
  match s with
  | EmptyString => None
  | String c s' =>
      if Ascii.eqb c space then Some s' else after_first_space s'
  end.

Definition extract_auth_token (authorization : option string) : token_result :=
  match authorization with
  | None => AssertionError
  | Some a =>
      if negb (truthy a) || negb (String.prefix "Bearer " a)
      then AssertionError
      else
        match after_first_space a with
        | Some token => Token token
        | None => IndexError
        end
  end.

(** ** main: the pipelines *)

Definition fetch_moneyline_opportunities `{Runtime} (sport_key : string)
    : M (list raw_game) (list opportunity * Dict.t game) :=
  raw_games <- fetch_upcoming_games sport_key ;;
  match normalize_moneyline_odds raw_games with
  | inl e => raise e
  | inr normalized_games =>
      let moneyline_opps := detect_moneyline_arbitrage normalized_games in
      ret (moneyline_opps, normalized_games)
  end.

(** [not raw_props]: the payload [{}]. A body of the feed without a
    [bookmakers] key is read as empty too; it yields no opportunity either
    way. *)
Definition is_empty_payload (raw_props : raw_event) : bool :=
  match e_bookmakers raw_props with
  | None => true
  | Some _ => false
  end.

(** [opp["home_team"] = home_team; opp["away_team"] = away_team]. *)
Definition set_teams (home away : string) (opp : opportunity) : opportunity :=
  {| opp_game_id := opp_game_id opp;
     market_type := market_type opp;
     player_name := player_name opp;
     line_value := line_value opp;
     opp_home_team := Some home;
     opp_away_team := Some away;
     arb_of := arb_of opp |}.

(** A loop whose body runs in the monad: the state goes from one item to
    the next, and an exception ends the loop. *)
Fixpoint for_each {A S X} (body : S -> X -> M A S) (items : list X) (s : S)
    : M A S :=
  match items with
  | [] => ret s
  | x :: items' => s' <- body s x ;; for_each body items' s'
  end.

(** The body of the loop of [fetch_prop_opportunities] (lines 125 to 141);
    the state is [(opportunities, prop_request_errors)]. *)
Definition prop_game_step `{Runtime} (sport_key : string)
    (prop_markets : list string) (normalized_games : Dict.t game)
    (state : list opportunity * Z) (item : string * game)
    : M raw_event (list opportunity * Z) :=
  let '(opportunities, prop_request_errors) := state in
  let game_id := fst item in
  r <- fetch_event_props sport_key game_id prop_markets ;;
  let '(raw_props, request_errors) := r in
  let prop_request_errors := (prop_request_errors + request_errors)%Z in
  if is_empty_payload raw_props
  then ret (opportunities, prop_request_errors)
  else
    let normalized_props := normalize_prop_odds game_id raw_props in
    let prop_opps := detect_prop_arbitrage normalized_props in
    match Dict.get game_id normalized_games with
    | None => raise (KeyError game_id)
    | Some g =>
        ret ((opportunities ++
              map (set_teams (home_team g) (away_team g)) prop_opps)%list,
             prop_request_errors)
    end.

(** [fetch_prop_opportunities] called with the normalized games, as its two
    callers in [main] do; the branch that fetches the games when the argument
    is [None] is not part of this definition. *)
Definition fetch_prop_opportunities `{Runtime} (sport_key : string)
    (normalized_games : Dict.t game) : M raw_event (list opportunity * Z) :=
  let prop_markets := get_prop_markets sport_key in
  match prop_markets with
  | [] => ret ([], 0%Z)
  | _ :: _ =>
      for_each (prop_game_step sport_key prop_markets normalized_games)
        normalized_games ([], 0%Z)
  end.

(** An event whose one player line has [Over] at +110 with book A and
    [Under] at +105 with book B. *)
Definition sample_event : raw_event :=
  mkRawEvent
    (Some
       [ mkBookmaker (Some "A") None
           (Some [ mkMarket (Some "player_points")
                     (Some [ mkOutcome (Some "Over") (Some "P")
                               (Some (49 # 2)) (Some 110) ]) ]);
         mkBookmaker (Some "B") None
           (Some [ mkMarket (Some "player_points")
                     (Some [ mkOutcome (Some "Under") (Some "P")
                               (Some (49 # 2)) (Some 105) ]) ]) ]).

(** The world [w'] is [w] after [nr] more requests, each consuming one
    pending reply, [ns] more sleeps and [nl] more printed lines. *)
Definition extends {A} (w w' : world A) (nr ns nl : nat) : Prop :=
  exists reqs ws lines,
    w' = mkWorld (skipn nr (pending w)) (requests w ++ reqs)%list
           (slept w ++ ws)%list (printed w ++ lines)%list /\
    List.length reqs = nr /\ List.length ws = ns /\ List.length lines = nl.

(** The opportunity carries the team names of the game of its id. *)
Definition teams_attached (normalized_games : Dict.t game)
    (opp : opportunity) : Prop :=
  exists g,
    Dict.get (opp_game_id opp) normalized_games = Some g /\
    opp_home_team opp = Some (home_team g) /\
    opp_away_team opp = Some (away_team g).

(** An upstream that answers the games of the sample, and one that answers
    the event of the sample. *)
Definition games_world : world (list raw_game) :=
  mkWorld [Response 200 None sample_games] [] [] [].

Definition event_world : world raw_event :=
  mkWorld [Response 200 None sample_event] [] [] [].

(** ** supabase_client: the rows and their storage *)

Definition MONEYLINE_ARBITRAGE_TABLE : string :=
  "moneyline_arbitrage_opportunities".
Definition MONEYLINE_CONFLICT_KEYS : string := "game_id,over_book,under_book".
Definition PROP_ARBITRAGE_TABLE : string := "prop_arbitrage_opportunities".
Definition PROP_CONFLICT_KEYS : string :=
  "game_id,market_type,player_name,line_value,over_book,under_book".

(** The default of [min_profit_percent]. *)
Definition DEFAULT_MIN_PROFIT_PERCENT : Q := 199 # 100.

(** The clock: the text [datetime.now(timezone.utc).isoformat()] gives at
    its [n]-th reading. *)
Class Clock := { utc_now_isoformat : nat -> string }.

Record moneyline_row := mkMoneylineRow {
  mr_game_id : string;
  mr_home_team : option string;
  mr_away_team : option string;
  mr_over_book : string;
  mr_under_book : string;
  mr_over_odds : Q;
  mr_under_odds : Q;
  mr_profit_percent : Q;
  mr_detected_at : string
}.

Record prop_row := mkPropRow {
  pr_game_id : string;
  pr_market_type : string;
  pr_player_name : option string;
  pr_line_value : option Q;
  pr_home_team : option string;
  pr_away_team : option string;
  pr_over_book : string;
  pr_under_book : string;
  pr_over_odds : Q;
  pr_under_odds : Q;
  pr_profit_percent : Q;
  pr_detected_at : string
}.

(** A call [supabase.table(t).upsert(rows, on_conflict=keys).execute()]. *)
Inductive upsert_call :=
| UpsertMoneyline (table : string) (rows : list moneyline_row)
    (on_conflict : string)
| UpsertProp (table : string) (rows : list prop_row) (on_conflict : string).

(** The state of the storage side: how often the clock was read, and the
    upserts executed so far. The embedding takes every upsert to return. *)
Record store := mkStore {
  clock_reads : nat;
  upserts : list upsert_call
}.

Definition SM (B : Type) := store -> B * store.

Definition sret {B} (b : B) : SM B := fun s => (b, s).

Definition sbind {B C} (m : SM B) (k : B -> SM C) : SM C :=
  fun s => let '(b, s') := m s in k b s'.

Definition now_isoformat `{Clock} : SM string :=
  fun s => (utc_now_isoformat (clock_reads s),
            mkStore (S (clock_reads s)) (upserts s)).

Definition execute_upsert (call : upsert_call) : SM unit :=
  fun s => (tt, mkStore (clock_reads s) (upserts s ++ [call])%list).

(** The row of a moneyline event detected at [detected_at]. *)
Definition moneyline_row_of (detected_at : string) (event : opportunity)
    : moneyline_row :=
  {| mr_game_id := opp_game_id event;
     mr_home_team := opp_home_team event;
     mr_away_team := opp_away_team event;
     mr_over_book := over_book (arb_of event);
     mr_under_book := under_book (arb_of event);
     mr_over_odds := over_odds (arb_of event);
     mr_under_odds := under_odds (arb_of event);
     mr_profit_percent := profit_percent (arb_of event);
     mr_detected_at := detected_at |}.

Definition _format_moneyline_opportunity `{Clock} (event : opportunity)
    : SM moneyline_row :=
  sbind now_isoformat (fun t => sret (moneyline_row_of t event)).

(** The row of a prop event detected at [detected_at]. *)
Definition prop_row_of (detected_at : string) (event : opportunity)
    : prop_row :=
  {| pr_game_id := opp_game_id event;
     pr_market_type := market_type event;
     pr_player_name := player_name event;
     pr_line_value := line_value event;
     pr_home_team := opp_home_team event;
     pr_away_team := opp_away_team event;
     pr_over_book := over_book (arb_of event);
     pr_under_book := under_book (arb_of event);
     pr_over_odds := over_odds (arb_of event);
     pr_under_odds := under_odds (arb_of event);
     pr_profit_percent := profit_percent (arb_of event);
     pr_detected_at := detected_at |}.

Definition _format_prop_opportunity `{Clock} (event : opportunity)
    : SM prop_row :=
  sbind now_isoformat (fun t => sret (prop_row_of t event)).

(** [opp["profit_percent"] >= min_profit_percent]. *)
Definition qualifies (min_profit_percent : Q) (opp : opportunity) : bool :=
  Qle_bool min_profit_percent (profit_percent (arb_of opp)).

(** [[format(opp) for opp in opportunities if qualifies(opp)]]: the
    opportunities are gone through in order, and each one that qualifies is
    formatted before the next one is looked at. *)
Fixpoint format_qualifying {Row} (format : opportunity -> SM Row)
    (min_profit_percent : Q) (opportunities : list opportunity)
    : SM (list Row) :=
  match opportunities with
  | [] => sret []
  | opp :: rest =>
      if qualifies min_profit_percent opp
      then sbind (format opp) (fun row =>
           sbind (format_qualifying format min_profit_percent rest)
             (fun rows => sret (row :: rows)))
      else format_qualifying format min_profit_percent rest
  end.

Definition upsert_moneyline_opportunities `{Clock}
    (opportunities : list opportunity) (min_profit_percent : Q)
    : SM (list moneyline_row) :=
  sbind (format_qualifying _format_moneyline_opportunity min_profit_percent
           opportunities)
    (fun rows =>
       match rows with
       | [] => sret []
       | _ :: _ =>
           sbind (execute_upsert
                    (UpsertMoneyline MONEYLINE_ARBITRAGE_TABLE rows
                       MONEYLINE_CONFLICT_KEYS))
             (fun _ => sret rows)
       end).

Definition upsert_prop_opportunities `{Clock}
    (opportunities : list opportunity) (min_profit_percent : Q)
    : SM (list prop_row) :=
  sbind (format_qualifying _format_prop_opportunity min_profit_percent
           opportunities)
    (fun rows =>
       match rows with
       | [] => sret []
       | _ :: _ =>
           sbind (execute_upsert
                    (UpsertProp PROP_ARBITRAGE_TABLE rows PROP_CONFLICT_KEYS))
             (fun _ => sret rows)
       end).

(** [opp.get("market_type") == "h2h"]. *)
Definition is_moneyline (opp : opportunity) : bool :=
  String.eqb (market_type opp) "h2h".

(** [{"moneyline_rows": ..., "prop_rows": ...}]. *)
Record upserted := mkUpserted {
  moneyline_rows_of : list moneyline_row;
  prop_rows_of : list prop_row
}.

Definition upsert_arbitrage_opportunities `{Clock}
    (opportunities : list opportunity) (min_profit_percent : Q)
    : SM upserted :=
  let moneyline_opps := filter is_moneyline opportunities in
  let prop_opps := filter (fun opp => negb (is_moneyline opp)) opportunities in
  sbind (upsert_moneyline_opportunities moneyline_opps min_profit_percent)
    (fun moneyline_rows =>
  sbind (upsert_prop_opportunities prop_opps min_profit_percent)
    (fun prop_rows =>
  sret {| moneyline_rows_of := moneyline_rows; prop_rows_of := prop_rows |})).

(** The rows of [opps], detected at the clock readings from [n] on. *)
Fixpoint stamped {Row} `{Clock} (row_of : string -> opportunity -> Row)
    (n : nat) (opps : list opportunity) : list Row :=
  match opps with
  | [] => []
  | opp :: rest =>
      row_of (utc_now_isoformat n) opp :: stamped row_of (S n) rest
  end.

(** A clock for the examples. *)
Definition example_clock : Clock :=
  {| utc_now_isoformat := fun n => ("t" ++ string_of_Z (Z.of_nat n))%string |}.

(** Three opportunities: a moneyline one at 2.5 percent, a prop one at 3
    percent and a prop one at 1 percent. *)
Definition opp_with (id mt : string) (profit : Q) : opportunity :=
  {| opp_game_id := id; market_type := mt;
     player_name := None; line_value := None;
     opp_home_team := None; opp_away_team := None;
     arb_of := {| profit_percent := profit; over_book := "A";
                  under_book := "B"; over_odds := 120; under_odds := 150 |} |}.

Definition mixed_opportunities : list opportunity :=
  [ opp_with "g1" "h2h" (5 # 2);
    opp_with "g1" "player_points" 3;
    opp_with "g2" "player_points" 1 ].

(** ** main: the moneyline run *)

(** The summary line of [fetch_and_process_moneyline]. *)
Definition moneyline_summary (n_opportunities n_upserted : nat) : string :=
  ("Moneyline run complete. Opportunities: " ++
   string_of_Z (Z.of_nat n_opportunities) ++ ". Upserted: " ++
   string_of_Z (Z.of_nat n_upserted) ++ ".")%string.

(** [fetch_and_process_moneyline]: the state is the world of the requests
    together with the storage. *)
Definition fetch_and_process_moneyline `{Runtime} `{Clock}
    (sport_key : string) (state : world (list raw_game) * store)
    : outcome (list moneyline_row) * (world (list raw_game) * store) :=
  let '(w, s) := state in
  match fetch_moneyline_opportunities sport_key w with
  | (Return (moneyline_opps, _), w1) =>
      let '(saved_rows, s1) :=
        upsert_moneyline_opportunities moneyline_opps
          DEFAULT_MIN_PROFIT_PERCENT s in
      let '(_, w2) :=
        print (moneyline_summary (List.length moneyline_opps)
                 (List.length saved_rows)) w1 in
      (Return saved_rows, (w2, s1))
  | (Raise e, w1) => (Raise e, (w1, s))
  | (OutOfFuel, w1) => (OutOfFuel, (w1, s))
  end.

(** ** odds_fetcher: the moneyline normalization on a feed with nulls

    The records above read a key of the feed as absent or present. JSON has
    a third case, the key whose value is [null], and Python tells it from the
    absent key: [d.get(k, default)] gives [None] and not the default,
    [d[k]] gives [None] and does not raise, and a loop over [None] raises
    [TypeError]. The module [Wire] embeds [normalize_moneyline_odds] on
    records that keep the three cases; a value that is present has the type
    the feed documents, as before. *)

Module Wire.

(** The value of a key of a JSON object. *)
Inductive field (T : Type) :=
| Absent
| Null
| Value (v : T).
Arguments Absent {T}.
Arguments Null {T}.
Arguments Value {T}.

Record raw_outcome := mkOutcome {
  o_name : field string;
  o_price : field Q
}.

Record raw_market := mkMarket {
  m_key : field string;
  m_outcomes : field (list raw_outcome)
}.

Record raw_bookmaker := mkBookmaker {
  b_title : field string;
  b_key : field string;
  b_markets : field (list raw_market)
}.

Record raw_game := mkRawGame {
  g_id : field string;
  g_home_team : field string;
  g_away_team : field string;
  g_commence_time : field string;
  g_bookmakers : field (list raw_bookmaker)
}.

(** [d.get(k)]: [None] for an absent key and for [null]. *)
Definition get {T} (f : field T) : option T :=
  match f with
  | Value v => Some v
  | Absent | Null => None
  end.

(** [d[k]]: [KeyError] for an absent key, [None] for [null]. *)
Definition subscript {T} (key : string) (f : field T) : exn + option T :=
  match f with
  | Absent => inl (KeyError key)
  | Null => inr None
  | Value v => inr (Some v)
  end.

(** [for x in d.get(k, [])]: the items gone through; the default for an
    absent key, and [TypeError] for [null], which is not iterable. *)
Definition items {T} (f : field (list T)) : exn + list T :=
  match f with
  | Absent => inr []
  | Null => inl TypeError
  | Value l => inr l
  end.

(** [bookmaker.get("title", bookmaker.get("key"))]: the key is the default
    of an absent title only. *)
Definition book_name_of (bookmaker : raw_bookmaker) : option string :=
  match b_title bookmaker with
  | Value title => Some title
  | Null => None
  | Absent => get (b_key bookmaker)
  end.

(** [m.get("key") == "h2h"]. *)
Definition is_h2h (m : raw_market) : bool :=
  match get (m_key m) with
  | Some k => String.eqb k "h2h"
  | None => false
  end.

(** The body of the loop over a market's outcomes (lines 137 to 145). *)
Definition add_outcome (teams : Dict.t price) (outcome : raw_outcome)
    : Dict.t price :=
  match get (o_name outcome), get (o_price outcome) with
  | Some team, Some odds =>
      Dict.set team
        {| price_odds := odds; price_implied_prob := odds_to_probability odds |}
        teams
  | _, _ => teams
  end.

(** The body of the loop over a game's bookmakers (lines 124 to 148); an
    exception ends the loop. *)
Definition add_bookmaker (acc : exn + Dict.t (Dict.t price))
    (bookmaker : raw_bookmaker) : exn + Dict.t (Dict.t price) :=
  match acc with
  | inl e => inl e
  | inr books =>
      match usable_name (book_name_of bookmaker) with
      | None => inr books
      | Some book_name =>
          match items (b_markets bookmaker) with
          | inl e => inl e
          | inr markets =>
              match find is_h2h markets with
              | None => inr books
              | Some market =>
                  match items (m_outcomes market) with
                  | inl e => inl e
                  | inr outcomes =>
                      let teams := fold_left add_outcome outcomes [] in
                      match teams with
                      | [] => inr books
                      | _ :: _ => inr (Dict.set book_name teams books)
                      end
                  end
              end
          end
      end
  end.

(** A normalized game; the id and the team names are [None] when the feed
    has [null] for them. *)
Record game := mkGame {
  game_id : option string;
  home_team : option string;
  away_team : option string;
  commence_time : option string;
  books : Dict.t (Dict.t price)
}.

(** One game of the loop (lines 114 to 148). *)
Definition normalize_game (g : raw_game) : exn + game :=
  match subscript "id" (g_id g) with
  | inl e => inl e
  | inr id =>
      match subscript "home_team" (g_home_team g) with
      | inl e => inl e
      | inr home =>
          match subscript "away_team" (g_away_team g) with
          | inl e => inl e
          | inr away =>
              match items (g_bookmakers g) with
              | inl e => inl e
              | inr bookmakers =>
                  match fold_left add_bookmaker bookmakers
                          (@inr exn (Dict.t (Dict.t price)) []) with
                  | inl e => inl e
                  | inr books_data =>
                      inr {| game_id := id;
                             home_team := home;
                             away_team := away;
                             commence_time := get (g_commence_time g);
                             books := books_data |}
                  end
              end
          end
      end
  end.

(** The keys of [normalized]: a game id, or [None]. *)
Definition key_eqb (k k' : option string) : bool :=
  match k, k' with
  | Some a, Some b => String.eqb a b
  | None, None => true
  | _, _ => false
  end.

(** [normalized[game_id] = game_data]. *)
Fixpoint set (k : option string) (v : game) (d : list (option string * game))
    : list (option string * game) :=
  match d with
  | [] => [(k, v)]
  | (k', v') :: d' =>
      if key_eqb k k' then (k', v) :: d' else (k', v') :: set k v d'
  end.

Definition keys (d : list (option string * game)) : list (option string) :=
  map fst d.

Definition add_game (acc : exn + list (option string * game)) (g : raw_game)
    : exn + list (option string * game) :=
  match acc with
  | inl e => inl e
  | inr normalized =>
      match normalize_game g with
      | inl e => inl e
      | inr game_data => inr (set (game_id game_data) game_data normalized)
      end
  end.

Definition normalize_moneyline_odds (raw_games : list raw_game)
    : exn + list (option string * game) :=
  fold_left add_game raw_games (inr []).

(** The game has the three keys the loop subscripts. *)
Definition complete_game (g : raw_game) : Prop :=
  g_id g <> Absent /\ g_home_team g <> Absent /\ g_away_team g <> Absent.

(** The lists a field holds, none for an absent key or [null]. *)
Definition listed {T} (f : field (list T)) : list T :=
  match f with
  | Value l => l
  | Absent | Null => []
  end.

(** No list of the game is [null]: not its bookmakers, not the markets of a
    bookmaker, not the outcomes of a market. *)
Definition no_null_list (g : raw_game) : Prop :=
  g_bookmakers g <> Null /\
  forall b, In b (listed (g_bookmakers g)) ->
    b_markets b <> Null /\
    forall m, In m (listed (b_markets b)) -> m_outcomes m <> Null.

(** What [game["id"]] gives when it does not raise. *)
Definition id_of (g : raw_game) : option (option string) :=
  match g_id g with
  | Absent => None
  | Null => Some None
  | Value id => Some (Some id)
  end.

(** The records of the feed without [null], as records with nulls. *)
Definition of_option {T} (o : option T) : field T :=
  match o with
  | Some v => Value v
  | None => Absent
  end.

End Wire.

(** A typed record of the feed is the record with nulls that has none. *)
Definition wire_outcome (o : raw_outcome) : Wire.raw_outcome :=
  Wire.mkOutcome (Wire.of_option (o_name o)) (Wire.of_option (o_price o)).

Definition wire_market (m : raw_market) : Wire.raw_market :=
  Wire.mkMarket (Wire.of_option (m_key m))
    (Wire.of_option (option_map (map wire_outcome) (m_outcomes m))).

Definition wire_bookmaker (b : raw_bookmaker) : Wire.raw_bookmaker :=
  Wire.mkBookmaker (Wire.of_option (b_title b)) (Wire.of_option (b_key b))
    (Wire.of_option (option_map (map wire_market) (b_markets b))).

Definition wire_game (g : raw_game) : Wire.raw_game :=
  Wire.mkRawGame (Wire.of_option (g_id g)) (Wire.of_option (g_home_team g))
    (Wire.of_option (g_away_team g)) (Wire.of_option (g_commence_time g))
    (Wire.of_option (option_map (map wire_bookmaker) (g_bookmakers g))).

(** A normalized game, as the normalization with nulls returns it. *)
Definition wire_normalized (item : string * game)
    : option string * Wire.game :=
  (Some (fst item),
   {| Wire.game_id := Some (game_id (snd item));
      Wire.home_team := Some (home_team (snd item));
      Wire.away_team := Some (away_team (snd item));
      Wire.commence_time := commence_time (snd item);
      Wire.books := books (snd item) |}).

(** A game with the three fields whose bookmakers are [null], and the
    sample game with an outcome whose price is [null]. *)
Definition null_bookmakers_game : Wire.raw_game :=
  Wire.mkRawGame (Wire.Value "g1") (Wire.Value "H") (Wire.Value "W")
    Wire.Absent Wire.Null.

Definition null_price_game : Wire.raw_game :=
  Wire.mkRawGame (Wire.Value "g2") (Wire.Value "H") Wire.Null Wire.Absent
    (Wire.Value
       [ Wire.mkBookmaker (Wire.Value "A") Wire.Absent
           (Wire.Value
              [ Wire.mkMarket (Wire.Value "h2h")
                  (Wire.Value
                     [ Wire.mkOutcome (Wire.Value "H") (Wire.Value 120);
                       Wire.mkOutcome (Wire.Value "W") Wire.Null ]) ]) ]).

Definition nameless_wire_game : Wire.raw_game :=
  Wire.mkRawGame Wire.Absent (Wire.Value "H") (Wire.Value "W") Wire.Absent
    Wire.Absent.

(** * Part I, continued: the binary64 reading of the numbers

    The embedding above takes a Python number as its exact value. What the
    code returns is a [float], a binary64 whose operations round, and an
    [int] of any size. The module [B64] embeds the conversion of the odds,
    the two-way detection and the two detectors on these: an [int] is an
    integer of [Z], a [float] is a primitive float, and [round(x, 3)] rounds
    the exact value of the float to three decimals, ties to even, and
    returns the binary64 nearest to the result. *)

Module B64.

(** A Python number: an [int], or a [float]. *)
Inductive number :=
| Int (z : Z)
| Float (f : float).

Definition Z2SF (z : Z) : spec_float :=
  match z with
  | Z0 => S754_zero false
  | Zpos p => S754_finite false p 0
  | Zneg p => S754_finite true p 0
  end.

(** [float(z)] for an integer of at most 53 bits, which is exact. *)
Definition float_of_small (z : Z) : float :=
  match z with
  | Z0 => 0%float
  | Zpos _ => of_uint63 (Uint63.of_Z z)
  | Zneg p => (- of_uint63 (Uint63.of_Z (Zpos p)))%float
  end.

(** [a / b] on two [int]s, [b] not 0: the binary64 nearest to the quotient.
    Integers of at most [2^53] in magnitude are floats exactly, and the
    quotient of two of them is the division of the two floats; otherwise the
    exact quotient is rounded. *)
Definition true_divide (a b : Z) : float :=
  if ((Z.abs a <=? 2 ^ 53) && (Z.abs b <=? 2 ^ 53))%Z
  then (float_of_small a / float_of_small b)%float
  else SF2Prim (SFdiv prec emax (Z2SF a) (Z2SF b)).

(** [odds_to_probability]: on an [int] the sum and the absolute value are
    exact and the quotient is rounded once; on a [float] every operation
    rounds, and [odds > 0] is false of a NaN. *)
Definition odds_to_probability (odds : number) : float :=
  match odds with
  | Int z =>
      if (0 <? z)%Z then true_divide 100 (z + 100)
      else true_divide (Z.abs z) (Z.abs z + 100)
  | Float f =>
      if PrimFloat.ltb 0 f then (100 / (f + 100))%float
      else (abs f / (abs f + 100))%float
  end.

(** The exact value of a finite float. *)
Definition Qpow2 (e : Z) : Q :=
  if (0 <=? e)%Z then inject_Z (2 ^ e) else 1 / inject_Z (2 ^ (- e)).

Definition exact (f : float) : option Q :=
  match Prim2SF f with
  | S754_zero _ => Some 0
  | S754_finite s m e =>
      Some ((if s then -1 else 1) * inject_Z (Zpos m) * Qpow2 e)
  | S754_infinity _ | S754_nan => None
  end.

Definition negative (f : float) : bool :=
  match Prim2SF f with
  | S754_zero s | S754_finite s _ _ | S754_infinity s => s
  | S754_nan => false
  end.

(** [round(x, 3)] on a float: a NaN and the infinities are returned as they
    are; a zero result keeps the sign of [x]. *)
Definition round3 (x : float) : float :=
  match exact x with
  | None => x
  | Some v =>
      let k := round_half_even (v * 1000) in
      if (k =? 0)%Z then (if negative x then (- 0)%float else 0%float)
      else true_divide k 1000
  end.

(** [x > y] on numbers: exact between an [int] and a [float], and false
    when one of them is a NaN. *)
Definition gt (x y : number) : bool :=
  match x, y with
  | Int a, Int b => (b <? a)%Z
  | Float a, Float b => PrimFloat.ltb b a
  | Int a, Float b =>
      match Prim2SF b with
      | S754_nan => false
      | S754_infinity s => s
      | _ => match exact b with
             | Some q => Qltb q (inject_Z a)
             | None => false
             end
      end
  | Float a, Int b =>
      match Prim2SF a with
      | S754_nan => false
      | S754_infinity s => negb s
      | _ => match exact a with
             | Some q => Qltb (inject_Z b) q
             | None => false
             end
      end
  end.

(** [{"odds": ..., "implied_prob": ...}]. *)
Record price := mkPrice {
  price_odds : number;
  price_implied_prob : float
}.

(** The price the normalizers store for the odds [o]. *)
Definition price_of (o : number) : price :=
  {| price_odds := o; price_implied_prob := odds_to_probability o |}.

(** A best price: [{"book": ..., "odds": ..., "implied_prob": ...}]. *)
Record side := mkSide {
  book : string;
  odds : number;
  implied_prob : float
}.

(** The five keys of the dict [detect_two_way_arbitrage] returns. *)
Record arb := mkArb {
  profit_percent : float;
  over_book : string;
  under_book : string;
  over_odds : number;
  under_odds : number
}.

Definition detect_two_way_arbitrage (side_a side_b : option side) : option arb :=
  match side_a, side_b with
  | Some a, Some b =>
      let total_prob := (implied_prob a + implied_prob b)%float in
      if PrimFloat.leb 1 total_prob then None
      else Some {| profit_percent := round3 ((1 - total_prob) * 100)%float;
                   over_book := book a;
                   under_book := book b;
                   over_odds := odds a;
                   under_odds := odds b |}
  | _, _ => None
  end.

(** The best price the bookmaker [bk] makes of the stored price [data]. *)
Definition side_of (bk : string) (data : price) : side :=
  {| book := bk; odds := price_odds data;
     implied_prob := price_implied_prob data |}.

(** The body of the loop of [_best_price_for_team] and of [_best_prop_side]
    (lines 31 to 41 and 83 to 93). *)
Definition best_step (name : string) (best : option side)
    (item : string * Dict.t price) : option side :=
  let '(bk, prices) := item in
  match Dict.get name prices with
  | None => best
  | Some data =>
      let better :=
        match best with
        | None => true
        | Some b => gt (price_odds data) (odds b)
        end in
      if better then Some (side_of bk data) else best
  end.

(** A normalized game. *)
Record game := mkGame {
  game_id : string;
  home_team : string;
  away_team : string;
  commence_time : option string;
  books : Dict.t (Dict.t price)
}.

Definition _best_price_for_team (game_data : game) (team_name : string)
    : option side :=
  fold_left (best_step team_name) (books game_data) None.

Definition _best_prop_side (books_data : Dict.t (Dict.t price))
    (side_name : string) : option side :=
  fold_left (best_step side_name) books_data None.

(** A player-line bucket: [{"player": ..., "line": ..., "books": {...}}]. *)
Record player_line := mkPlayerLine {
  pl_player : string;
  pl_line : number;
  pl_books : Dict.t (Dict.t price)
}.

(** A row of the opportunities table; [arb_of] holds the keys of [**arb]. *)
Record opportunity := mkOpportunity {
  opp_game_id : string;
  market_type : string;
  player_name : option string;
  line_value : option number;
  opp_home_team : option string;
  opp_away_team : option string;
  arb_of : arb
}.

Definition detect_moneyline_arbitrage (games_by_id : Dict.t game)
    : list opportunity :=
  fold_left
    (fun opportunities '(game_id, game) =>
       let home := _best_price_for_team game (home_team game) in
       let away := _best_price_for_team game (away_team game) in
       match detect_two_way_arbitrage home away with
       | None => opportunities
       | Some arb =>
           (opportunities ++
            [ {| opp_game_id := game_id;
                 market_type := "h2h";
                 player_name := None;
                 line_value := None;
                 opp_home_team := Some (home_team game);
                 opp_away_team := Some (away_team game);
                 arb_of := arb |} ])%list
       end)
    games_by_id [].

(** The body of the innermost loop of [detect_prop_arbitrage]. *)
Definition prop_step (game_id market_type : string)
    (opportunities : list opportunity) (item : string * player_line)
    : list opportunity :=
  let player_line_data := snd item in
  let over := _best_prop_side (pl_books player_line_data) "Over" in
  let under := _best_prop_side (pl_books player_line_data) "Under" in
  match detect_two_way_arbitrage over under with
  | None => opportunities
  | Some arb =>
      (opportunities ++
       [ {| opp_game_id := game_id;
            market_type := market_type;
            player_name := Some (pl_player player_line_data);
            line_value := Some (pl_line player_line_data);
            opp_home_team := None;
            opp_away_team := None;
            arb_of := arb |} ])%list
  end.

Definition detect_prop_arbitrage
    (normalized_props : Dict.t (Dict.t (Dict.t player_line)))
    : list opportunity :=
  fold_left
    (fun opportunities '(game_id, markets) =>
       fold_left
         (fun opportunities '(market_type, player_lines) =>
            fold_left (prop_step game_id market_type) player_lines
              opportunities)
         markets opportunities)
    normalized_props [].

(** The bookmaker at position [i] of [books_data], named [bk], offers the
    team or side [name] at the price [p]. *)
Definition offered (name : string) (books_data : Dict.t (Dict.t price))
    (i : nat) (bk : string) (p : price) : Prop :=
  exists prices,
    nth_error books_data i = Some (bk, prices) /\ Dict.get name prices = Some p.

(** The bookmaker at position [i] holds the best price of [name]: its odds
    are greater than those of every bookmaker before it, and those of no
    bookmaker after it are greater. *)
Definition holds_best (name : string) (books_data : Dict.t (Dict.t price))
    (i : nat) (bk : string) (p : price) : Prop :=
  offered name books_data i bk p /\
  forall j bk' p', offered name books_data j bk' p' ->
    ((j < i)%nat -> gt (price_odds p) (price_odds p') = true) /\
    ((i < j)%nat -> gt (price_odds p') (price_odds p) = false).

(** Every nonzero integer from [lo] to [lo + p - 1], and its opposite, is
    converted to a float strictly between 0 and 1. *)
Definition inside (z : Z) : bool :=
  PrimFloat.ltb 0 (odds_to_probability (Int z)) &&
  PrimFloat.ltb (odds_to_probability (Int z)) 1.

Fixpoint all_inside (p : positive) (lo : Z) : bool :=
  match p with
  | xH => inside lo && inside (- lo)
  | xO p' => all_inside p' lo && all_inside p' (lo + Zpos p')
  | xI p' =>
      inside lo && inside (- lo) && all_inside p' (lo + 1) &&
      all_inside p' (lo + 1 + Zpos p')
  end.

(** Book A quotes both teams at +110, book B the home team at +100 and the
    away team at -120: book A holds the best price on both sides. *)
Definition books_A_best : Dict.t (Dict.t price) :=
  [ ("A", [ ("H", price_of (Int 110)); ("W", price_of (Int 110)) ]);
    ("B", [ ("H", price_of (Int 100)); ("W", price_of (Int (-120))) ]) ].

Definition game_A_best : game :=
  {| game_id := "g1"; home_team := "H"; away_team := "W";
     commence_time := None; books := books_A_best |}.

(** The same for the two sides of a player line. *)
Definition line_A_best : player_line :=
  {| pl_player := "P"; pl_line := Float 24.5;
     pl_books :=
       [ ("A", [ ("Over", price_of (Int 110));
                 ("Under", price_of (Int 110)) ]);
         ("B", [ ("Over", price_of (Int 100));
                 ("Under", price_of (Int (-120))) ]) ] |}.

Definition props_A_best : Dict.t (Dict.t (Dict.t player_line)) :=
  [ ("g1", [ ("player_points", [ ("P|24.5", line_A_best) ]) ]) ].

(** The best prices at +150 with book A and at +156 with book B, and at
    -1000 and +1000. *)
Definition at_150 : side := side_of "A" (price_of (Int 150)).
Definition at_156 : side := side_of "B" (price_of (Int 156)).
Definition at_minus_1000 : side := side_of "A" (price_of (Int (-1000))).
Definition at_1000 : side := side_of "B" (price_of (Int 1000)).

End B64.

(** * Part II: properties *)

Local Open Scope list_scope.
Local Open Scope Q_scope.

(** ** Numbers *)

Lemma Qltb_lt (x y : Q) : Qltb x y = true <-> x < y.
Proof.
  unfold Qltb. rewrite negb_true_iff, <- not_true_iff_false, Qle_bool_iff.
  split; [apply Qnot_le_lt | apply Qlt_not_le].
Qed.

Lemma Qltb_ge (x y : Q) : Qltb x y = false <-> y <= x.
Proof.
  unfold Qltb. rewrite negb_false_iff. apply Qle_bool_iff.
Qed.

Lemma Qdiv_lt_1 (a b : Q) : 0 < b -> a < b -> a / b < 1.
Proof.
  intros Hb Hab. apply Qlt_shift_div_r; [exact Hb | lra].
Qed.

Lemma Qdiv_pos (a b : Q) : 0 < a -> 0 < b -> 0 < a / b.
Proof.
  intros Ha Hb. apply Qlt_shift_div_l; [exact Hb | lra].
Qed.

(** ** Implied probability *)

Lemma odds_to_probability_pos (o : Q) :
  0 < o -> odds_to_probability o = 100 / (o + 100).
Proof.
  intros H. unfold odds_to_probability.
  apply Qltb_lt in H. now rewrite H.
Qed.

Lemma odds_to_probability_nonpos (o : Q) :
  o <= 0 -> odds_to_probability o = Qabs o / (Qabs o + 100).
Proof.
  intros H. unfold odds_to_probability.
  apply Qltb_ge in H. now rewrite H.
Qed.

Lemma odds_to_probability_neg (o : Q) :
  o <= 0 -> odds_to_probability o == (- o) / (- o + 100).
Proof.
  intros H. rewrite (odds_to_probability_nonpos _ H).
  now rewrite (Qabs_neg _ H).
Qed.

Lemma odds_to_probability_range (o : Q) :
  ~ o == 0 -> 0 < odds_to_probability o /\ odds_to_probability o < 1.
Proof.
  intros Hnz. destruct (Qlt_le_dec 0 o) as [Hpos | Hneg].
  - rewrite (odds_to_probability_pos _ Hpos). split.
    + apply Qdiv_pos; lra.
    + apply Qdiv_lt_1; lra.
  - assert (Hlt : o < 0).
    { destruct (Qle_lt_or_eq _ _ Hneg) as [H | H]; [exact H | contradiction]. }
    rewrite (odds_to_probability_neg _ Hneg). split.
    + apply Qdiv_pos; lra.
    + apply Qdiv_lt_1; lra.
Qed.

(** ** Two-way arbitrage *)

(** ** Best-price selection *)

Lemma offered_lt name bks i bk p :
  offered name bks i bk p -> (i < List.length bks)%nat.
Proof.
  intros [prices [Hn _]]. apply nth_error_Some. congruence.
Qed.

Lemma offered_snoc name bks bk0 prices0 i bk p :
  offered name (bks ++ [(bk0, prices0)]) i bk p <->
  offered name bks i bk p \/
  (i = List.length bks /\ bk = bk0 /\ Dict.get name prices0 = Some p).
Proof.
  unfold offered. split.
  - intros [prices [Hn Hg]].
    destruct (Nat.lt_ge_cases i (List.length bks)) as [Hlt | Hge].
    + rewrite nth_error_app1 in Hn by exact Hlt. left. eauto.
    + rewrite nth_error_app2 in Hn by exact Hge. right.
      destruct (i - List.length bks)%nat as [| k] eqn:Ek; cbn in Hn.
      * injection Hn as <- <-. repeat split; [lia | exact Hg].
      * now destruct k.
  - intros [[prices [Hn Hg]] | [-> [-> Hg]]].
    + exists prices. split; [| exact Hg].
      rewrite nth_error_app1; [exact Hn |].
      apply nth_error_Some. congruence.
    + exists prices0. split; [| exact Hg].
      rewrite nth_error_app2 by lia. now rewrite Nat.sub_diag.
Qed.

Lemma best_fold_selected name bks :
  selected name bks (fold_left (best_step name) bks None).
Proof.
  induction bks as [| [bk0 prices0] bks IH] using rev_ind.
  - cbn. intros i bk p [prices [Hn _]]. now destruct i.
  - rewrite fold_left_app. cbn [fold_left best_step].
    destruct (Dict.get name prices0) as [data |] eqn:Hget.
    + destruct (fold_left (best_step name) bks None) as [b |]; cbn in IH |- *.
      * destruct IH as (i & p & Hoff & Ho & Hp & Hmax).
        destruct (Qltb (odds b) (price_odds data)) eqn:Hlt; cbn.
        -- apply Qltb_lt in Hlt.
           exists (List.length bks), data.
           split; [apply offered_snoc; now right |].
           split; [reflexivity |]. split; [reflexivity |].
           intros j bk' p' H.
           apply offered_snoc in H as [H | (-> & -> & H)].
           ++ apply Hmax in H. split; [lra |]. intros _. lra.
           ++ rewrite Hget in H. injection H as <-. split; [lra | lia].
        -- apply Qltb_ge in Hlt.
           exists i, p.
           split; [apply offered_snoc; now left |].
           split; [exact Ho |]. split; [exact Hp |].
           intros j bk' p' H.
           apply offered_snoc in H as [H | (-> & -> & H)].
           ++ now apply Hmax in H.
           ++ rewrite Hget in H. injection H as <-. split; [exact Hlt |].
              apply offered_lt in Hoff. lia.
      * exists (List.length bks), data.
        split; [apply offered_snoc; now right |].
        split; [reflexivity |]. split; [reflexivity |].
        intros j bk' p' H.
        apply offered_snoc in H as [H | (-> & -> & H)].
        -- now apply IH in H.
        -- rewrite Hget in H. injection H as <-. split; [lra | lia].
    + destruct (fold_left (best_step name) bks None) as [b |]; cbn in IH |- *.
      * destruct IH as (i & p & Hoff & Ho & Hp & Hmax).
        exists i, p.
        split; [apply offered_snoc; now left |].
        split; [exact Ho |]. split; [exact Hp |].
        intros j bk' p' H.
        apply offered_snoc in H as [H | (-> & -> & H)].
        -- now apply Hmax in H.
        -- congruence.
      * intros i bk p H. apply offered_snoc in H as [H | (-> & -> & H)].
        -- now apply IH in H.
        -- congruence.
Qed.

(** C3. Best-price selection returns nothing exactly when no bookmaker
    offers the team or side; otherwise it returns the book, odds and implied
    probability of an offering bookmaker whose odds no offer exceeds and
    every earlier offer is strictly below (so among equal best odds the first
    in iteration order is returned); and the moneyline routine on a game is
    the prop routine on the game's books. *)
Theorem best_price_selection (g : game) (books_data : Dict.t (Dict.t price))
    (name : string) :
  (_best_prop_side books_data name = None <->
     forall i bk p, ~ offered name books_data i bk p) /\
  (forall s, _best_prop_side books_data name = Some s ->
     exists i p,
       offered name books_data i (book s) p /\
       odds s = price_odds p /\
       implied_prob s = price_implied_prob p /\
       forall j bk' p', offered name books_data j bk' p' ->
         price_odds p' <= odds s /\ ((j < i)%nat -> price_odds p' < odds s)) /\
  _best_price_for_team g name = _best_prop_side (books g) name.
Proof.
  pose proof (best_fold_selected name books_data) as Hsel.
  unfold _best_prop_side, _best_price_for_team.
  split; [| split; [| reflexivity]].
  - split.
    + intros E. now rewrite E in Hsel.
    + intros Hno.
      destruct (fold_left (best_step name) books_data None) as [s |];
        [| reflexivity].
      destruct Hsel as (i & p & Hoff & _). now apply Hno in Hoff.
  - intros s E. now rewrite E in Hsel.
Qed.

Lemma best_price_selection_witness :
  _best_prop_side two_books "X" =
    Some {| book := "B"; odds := 120;
            implied_prob := odds_to_probability 120 |} /\
  _best_prop_side two_books "Y" = None.
Proof.
  split; [reflexivity |].
  apply (proj1 (best_price_selection one_book_game two_books "Y")).
  intros i bk p (prices & Hn & Hg).
  destruct i as [| [| i]]; cbn in Hn.
  - injection Hn as <- <-. discriminate Hg.
  - injection Hn as <- <-. discriminate Hg.
  - now destruct i.
Defined.

(** ** Raw odds against implied probability *)

Lemma Qdiv_le_cross (n1 d1 n2 d2 : Q) :
  0 < d1 -> 0 < d2 -> (n1 / d1 <= n2 / d2 <-> n1 * d2 <= n2 * d1).
Proof.
  intros H1 H2.
  assert (Hd : 0 < d1 * d2) by (apply Qmult_lt_0_compat; assumption).
  rewrite <- (Qmult_le_r (n1 / d1) (n2 / d2) (d1 * d2) Hd).
  setoid_replace (n1 / d1 * (d1 * d2)) with (n1 * d2)
    by (field; lra).
  setoid_replace (n2 / d2 * (d1 * d2)) with (n2 * d1)
    by (field; lra).
  reflexivity.
Qed.

(** For odds [b < a] that are not zero, the greater odds carry the smaller
    or equal implied probability exactly when the two have the same sign or,
    with [a] positive and [b] negative, [a * |b| >= 10000]. *)
Lemma odds_order_probability (a b : Q) :
  ~ a == 0 -> ~ b == 0 -> b < a ->
  (odds_to_probability a <= odds_to_probability b <->
   0 < b \/ a < 0 \/ 10000 <= a * - b).
Proof.
  intros Ha Hb Hlt.
  destruct (Qlt_le_dec 0 b) as [Hbpos | Hbneg].
  - rewrite (odds_to_probability_pos a) by lra.
    rewrite (odds_to_probability_pos b) by lra.
    rewrite Qdiv_le_cross by lra.
    split; [now left | intros _; lra].
  - assert (Hb' : b < 0).
    { destruct (Qle_lt_or_eq _ _ Hbneg) as [H | H]; [exact H | contradiction]. }
    rewrite (odds_to_probability_neg b) by lra.
    destruct (Qlt_le_dec 0 a) as [Hapos | Haneg].
    + rewrite (odds_to_probability_pos a) by lra.
      rewrite Qdiv_le_cross by lra.
      split.
      * intros H. right. right. lra.
      * intros [H | [H | H]]; lra.
    + assert (Ha' : a < 0).
      { destruct (Qle_lt_or_eq _ _ Haneg) as [H | H]; [exact H | contradiction]. }
      rewrite (odds_to_probability_neg a) by lra.
      rewrite Qdiv_le_cross by lra.
      split; [intros _; right; now left | intros _; lra].
Qed.

Lemma odds_to_probability_eq (a b : Q) :
  b == a -> odds_to_probability b == odds_to_probability a.
Proof.
  intros E. destruct (Qlt_le_dec 0 a) as [Hpos | Hneg].
  - rewrite (odds_to_probability_pos a) by lra.
    rewrite (odds_to_probability_pos b) by lra. now rewrite E.
  - rewrite (odds_to_probability_neg a) by lra.
    rewrite (odds_to_probability_neg b) by lra. now rewrite E.
Qed.

Lemma american_order_probability (a b : Q) :
  american a -> american b -> b <= a ->
  odds_to_probability a <= odds_to_probability b.
Proof.
  unfold american. intros Ha Hb Hle.
  destruct (Qle_lt_or_eq _ _ Hle) as [Hlt | Heq].
  - assert (Ha0 : ~ a == 0).
    { intros E. rewrite E in Ha. now apply Ha. }
    assert (Hb0 : ~ b == 0).
    { intros E. rewrite E in Hb. now apply Hb. }
    apply (odds_order_probability a b Ha0 Hb0 Hlt).
    destruct (Qlt_le_dec 0 b) as [Hbpos | Hbneg]; [now left | right].
    destruct (Qlt_le_dec a 0) as [Haneg | Hapos]; [now left | right].
    rewrite (Qabs_pos a) in Ha by exact Hapos.
    rewrite (Qabs_neg b) in Hb by exact Hbneg.
    setoid_replace 10000 with (100 * 100) by reflexivity.
    apply Qle_trans with (100 * - b).
    + apply Qmult_le_l; [reflexivity | exact Hb].
    + apply Qmult_le_compat_r; lra.
  - rewrite (odds_to_probability_eq _ _ Heq). apply Qle_refl.
Qed.

Lemma selected_least_probability name bks s :
  (forall i bk p, offered name bks i bk p ->
     american (price_odds p) /\ converted p) ->
  fold_left (best_step name) bks None = Some s ->
  forall i bk p, offered name bks i bk p ->
    implied_prob s <= price_implied_prob p.
Proof.
  intros Hall E j bk' p' Hoff'.
  pose proof (best_fold_selected name bks) as Hsel. rewrite E in Hsel.
  destruct Hsel as (i & p & Hoff & Ho & Hp & Hmax).
  destruct (Hall _ _ _ Hoff) as [Ham Hconv].
  destruct (Hall _ _ _ Hoff') as [Ham' Hconv'].
  destruct (Hmax _ _ _ Hoff') as [Hle _].
  rewrite Hp. unfold converted in Hconv, Hconv'. rewrite Hconv, Hconv'.
  apply american_order_probability; [exact Ham | exact Ham' |].
  now rewrite <- Ho.
Qed.

(** C4 as stated fails: +50 is the greater odds and carries the greater
    implied probability, 2/3 against the 1/3 of -50. *)
Lemma greater_odds_smaller_probability_fails :
  ~ (forall a b : Q, ~ a == 0 -> ~ b == 0 -> b < a ->
       odds_to_probability a <= odds_to_probability b).
Proof.
  intros H.
  assert (C : odds_to_probability 50 <= odds_to_probability (-50)).
  { apply H; [discriminate | discriminate | reflexivity]. }
  now apply C.
Qed.

(** C4, amended. For nonzero odds [b < a], the implied probability of [a]
    is at most that of [b] exactly when the two have the same sign or
    [a * |b| >= 10000], which holds whenever both are at least 100 in
    absolute value; and when every offered price is such and stores the
    conversion of its odds, the price that best-price selection returns has
    the least implied probability among the offered ones. *)
Theorem best_odds_least_probability :
  (forall a b : Q, ~ a == 0 -> ~ b == 0 -> b < a ->
     (odds_to_probability a <= odds_to_probability b <->
      0 < b \/ a < 0 \/ 10000 <= a * - b)) /\
  (forall a b : Q, american a -> american b -> b < a ->
     odds_to_probability a <= odds_to_probability b) /\
  (forall (g : game) (name : string) (s : side),
     (forall i bk p, offered name (books g) i bk p ->
        american (price_odds p) /\ converted p) ->
     _best_price_for_team g name = Some s ->
     forall i bk p, offered name (books g) i bk p ->
       implied_prob s <= price_implied_prob p).
Proof.
  split; [exact odds_order_probability | split].
  - intros a b Ha Hb Hlt. apply american_order_probability; try assumption.
    now apply Qlt_le_weak.
  - intros g name s Hall E. exact (selected_least_probability _ _ _ Hall E).
Qed.

Lemma best_odds_least_probability_witness :
  odds_to_probability 120 <= odds_to_probability (-110) /\
  exists s, _best_price_for_team
              {| game_id := "g"; home_team := "X"; away_team := "Y";
                 commence_time := None; books := two_books |} "X" = Some s /\
            book s = "B" /\
            implied_prob s <= odds_to_probability (-110).
Proof.
  destruct best_odds_least_probability as (_ & Ham & Hbest).
  split.
  - apply Ham; unfold american; cbn; try discriminate. reflexivity.
  - eexists. split; [reflexivity |]. split; [reflexivity |].
    apply (Hbest {| game_id := "g"; home_team := "X"; away_team := "Y";
                    commence_time := None; books := two_books |}
                 "X" _ ) with (i := 0%nat) (bk := "A")
      (p := {| price_odds := -110;
               price_implied_prob := odds_to_probability (-110) |}).
    + intros i bk p (prices & Hn & Hg).
      destruct i as [| [| i]]; cbn in Hn; try (now destruct i).
      * injection Hn as <- <-. cbn in Hg. injection Hg as <-.
        split; [unfold american; cbn; discriminate | reflexivity].
      * injection Hn as <- <-. cbn in Hg. injection Hg as <-.
        split; [unfold american; cbn; discriminate | reflexivity].
    + reflexivity.
    + eexists. split; reflexivity.
Defined.

(** ** Detection over games and player lines *)

(** A loop that appends to a list yields the rows of its items in order. *)
Lemma fold_left_append {X Y} (f : X -> list Y) (l : list X) (acc : list Y) :
  fold_left (fun acc x => acc ++ f x) l acc = acc ++ flat_map f l.
Proof.
  revert acc. induction l as [| x l IH]; intros acc; cbn.
  - now rewrite app_nil_r.
  - now rewrite IH, app_assoc.
Qed.

Lemma fold_left_ext {X Y} (f g : Y -> X -> Y) (l : list X) (acc : Y) :
  (forall a x, f a x = g a x) -> fold_left f l acc = fold_left g l acc.
Proof.
  intros E. revert acc. induction l as [| x l IH]; intros acc; cbn.
  - reflexivity.
  - now rewrite E, IH.
Qed.

Lemma detect_moneyline_arbitrage_rows (games_by_id : Dict.t game) :
  detect_moneyline_arbitrage games_by_id = flat_map moneyline_rows games_by_id.
Proof.
  unfold detect_moneyline_arbitrage.
  rewrite <- (app_nil_l (flat_map _ _)), <- fold_left_append.
  apply fold_left_ext. intros acc [game_id g]. cbn.
  destruct (detect_two_way_arbitrage _ _); [reflexivity | now rewrite app_nil_r].
Qed.

Lemma prop_step_acc game_id market_type acc item :
  prop_step game_id market_type acc item =
  acc ++ prop_step game_id market_type [] item.
Proof.
  unfold prop_step. destruct (detect_two_way_arbitrage _ _); cbn.
  - reflexivity.
  - now rewrite app_nil_r.
Qed.

Lemma detect_prop_arbitrage_rows
    (normalized_props : Dict.t (Dict.t (Dict.t player_line))) :
  detect_prop_arbitrage normalized_props =
  flat_map
    (fun '(game_id, markets) =>
       flat_map
         (fun '(market_type, player_lines) =>
            flat_map (prop_step game_id market_type []) player_lines)
         markets)
    normalized_props.
Proof.
  unfold detect_prop_arbitrage.
  rewrite <- (app_nil_l (flat_map _ _)), <- fold_left_append.
  apply fold_left_ext. intros acc [game_id markets].
  rewrite <- fold_left_append.
  apply fold_left_ext. intros acc' [market_type player_lines].
  rewrite <- fold_left_append.
  apply fold_left_ext. intros acc'' item. apply prop_step_acc.
Qed.

(** ** The requests *)

Section Requests.
Context `{R : Runtime} {A : Type}.
Implicit Types (w : world A) (path : string) (markets : list string).

Lemma _request_run path markets w :
  _request path markets w =
  match pending w with
  | Response status hdr json :: rest =>
      (if error_status status then Raise (HTTPError status hdr)
       else Return json,
       after w (request_of path markets) 1 [] rest)
  | NoResponse :: rest =>
      (Raise ConnectionError, after w (request_of path markets) 1 [] rest)
  | [] => (Raise ConnectionError, after w (request_of path markets) 1 [] [])
  end.
Proof.
  unfold _request, bind, requests_get, raise_for_status, after.
  rewrite app_nil_r.
  destruct (pending w) as [| [status hdr json |] rest]; try reflexivity.
  now destruct (error_status status).
Qed.

Lemma after_after w req n1 n2 ws1 ws2 rest1 rest2 :
  after (after w req n1 ws1 rest1) req n2 ws2 rest2 =
  after w req (n1 + n2) (ws1 ++ ws2) rest2.
Proof.
  unfold after. cbn. now rewrite <- !app_assoc, repeat_app.
Qed.

Lemma after_sleep w req n ws rest q :
  mkWorld (pending (after w req n ws rest)) (requests (after w req n ws rest))
    (slept (after w req n ws rest) ++ [q]) (printed (after w req n ws rest)) =
  after w req n (ws ++ [q]) rest.
Proof.
  unfold after. cbn. now rewrite <- app_assoc.
Qed.

(** What [time.sleep] does to the world. *)
Lemma time_sleep_run (x : pyfloat) w :
  time_sleep x w =
  match sleep_seconds x with
  | inl e => (Raise e, w)
  | inr q => (Return tt,
              mkWorld (pending w) (requests w) (slept w ++ [q]) (printed w))
  end.
Proof.
  unfold time_sleep. now destruct (sleep_seconds x).
Qed.

(** A wait [time.sleep] accepts is the number [wait_seconds]. *)
Lemma sleep_seconds_wait (hdr : option string) (attempt : Z) (q : Q) :
  sleep_seconds (wait_value hdr attempt) = inr q ->
  q = wait_seconds hdr attempt.
Proof.
  unfold wait_seconds, sleep_seconds.
  destruct (wait_value hdr attempt) as [v | neg |]; try discriminate.
  destruct (Qltb SLEEP_MAX (Qabs v)); [discriminate |].
  destruct (Qltb v 0); [discriminate |]. congruence.
Qed.

(** The turn of the loop: it leaves the loop with the body, with the
    failure, or with the exception of [time.sleep], or it sleeps and goes
    on. *)
Lemma retry_loop_last fuel path markets max_retries attempt w :
  retry_loop (S fuel) path markets max_retries attempt w =
  match pending w with
  | Response status hdr json :: rest =>
      if error_status status
      then
        if negb (status =? 429)%Z || (attempt >=? max_retries)%Z
        then (Raise (HTTPError status hdr),
              after w (request_of path markets) 1 [] rest)
        else
          match sleep_seconds (wait_value hdr attempt) with
          | inl e => (Raise e, after w (request_of path markets) 1 [] rest)
          | inr q =>
              retry_loop fuel path markets max_retries (attempt + 1)
                (after w (request_of path markets) 1 [q] rest)
          end
      else (Return json, after w (request_of path markets) 1 [] rest)
  | NoResponse :: rest =>
      (Raise ConnectionError, after w (request_of path markets) 1 [] rest)
  | [] => (Raise ConnectionError, after w (request_of path markets) 1 [] [])
  end.
Proof.
  cbn [retry_loop]. unfold except_HTTPError. rewrite _request_run.
  destruct (pending w) as [| [status hdr json |] rest]; try reflexivity.
  destruct (error_status status); [| reflexivity].
  destruct (negb (status =? 429)%Z || (attempt >=? max_retries)%Z);
    [reflexivity |].
  unfold bind. rewrite time_sleep_run.
  destruct (sleep_seconds (wait_value hdr attempt)); [reflexivity |].
  rewrite after_sleep. reflexivity.
Qed.

(** One turn of the loop on a 429 that is retried, when [time.sleep]
    accepts the wait. *)
Lemma retry_loop_429 fuel path markets max_retries attempt w hdr json rest q :
  pending w = Response 429 hdr json :: rest ->
  (attempt < max_retries)%Z ->
  sleep_seconds (wait_value hdr attempt) = inr q ->
  retry_loop (S fuel) path markets max_retries attempt w =
  retry_loop fuel path markets max_retries (attempt + 1)
    (after w (request_of path markets) 1 [wait_seconds hdr attempt] rest).
Proof.
  intros Hp Hlt Hq. rewrite retry_loop_last, Hp. cbn.
  replace (attempt >=? max_retries)%Z with false by lia.
  rewrite Hq. now rewrite (sleep_seconds_wait _ _ _ Hq).
Qed.

(** One turn of the loop on a 429 that would be retried, when [time.sleep]
    refuses the wait: its exception leaves the loop, after the one request
    and with no sleep. *)
Lemma retry_loop_refused fuel path markets max_retries attempt w hdr json rest
    e :
  pending w = Response 429 hdr json :: rest ->
  (attempt < max_retries)%Z ->
  sleep_seconds (wait_value hdr attempt) = inl e ->
  retry_loop (S fuel) path markets max_retries attempt w =
  (Raise e, after w (request_of path markets) 1 [] rest).
Proof.
  intros Hp Hlt He. rewrite retry_loop_last, Hp. cbn.
  replace (attempt >=? max_retries)%Z with false by lia.
  now rewrite He.
Qed.

(** A run of 429 replies, each retried. *)
Lemma retry_loop_429s (hs : list (option string * A)) :
  forall fuel path markets max_retries attempt w rest,
    pending w = map too_many hs ++ rest ->
    (attempt + Z.of_nat (List.length hs) <= max_retries)%Z ->
    accepted_waits (map fst hs) attempt = true ->
    retry_loop (List.length hs + fuel) path markets max_retries attempt w =
    retry_loop fuel path markets max_retries
      (attempt + Z.of_nat (List.length hs))
      (after w (request_of path markets) (List.length hs)
         (backoff (map fst hs) attempt) rest).
Proof.
  induction hs as [| [hdr json] hs IH];
    intros fuel path markets max_retries attempt w rest Hp Hle Hacc.
  - cbn in *. rewrite Z.add_0_r. unfold after. cbn. rewrite !app_nil_r.
    destruct w; cbn in *. now subst.
  - cbn [List.length map fst backoff Nat.add accepted_waits] in *.
    destruct (sleep_seconds (wait_value hdr attempt)) as [e | q] eqn:Hq;
      [discriminate |].
    rewrite (retry_loop_429 _ _ _ _ _ _ hdr json (map too_many hs ++ rest) q)
      by (try exact Hp; try exact Hq; lia).
    rewrite IH with (rest := rest);
      [| reflexivity | lia | exact Hacc].
    rewrite after_after. cbn [Nat.add app].
    f_equal. lia.
Qed.

Lemma retry_run_prefix path markets max_retries w
    (hs : list (option string * A)) rest :
  pending w = map too_many hs ++ rest ->
  (Z.of_nat (List.length hs) <= max_retries)%Z ->
  accepted_waits (map fst hs) 0 = true ->
  _request_with_429_retry path markets max_retries w =
  retry_loop (S (Z.to_nat max_retries - List.length hs)) path markets
    max_retries (Z.of_nat (List.length hs))
    (after w (request_of path markets) (List.length hs)
       (backoff (map fst hs) 0) rest).
Proof.
  intros Hp Hle Hacc. unfold _request_with_429_retry.
  replace (S (Z.to_nat max_retries))
    with (List.length hs + S (Z.to_nat max_retries - List.length hs))%nat
    by lia.
  now rewrite (retry_loop_429s hs _ _ _ _ 0%Z w rest Hp) by (lia || exact Hacc).
Qed.

(** After the retried 429 replies, a reply that is not an error ends the
    call with its body. *)
Lemma retry_run_success path markets max_retries w
    (hs : list (option string * A)) status hdr json rest :
  pending w = map too_many hs ++ Response status hdr json :: rest ->
  (Z.of_nat (List.length hs) <= max_retries)%Z ->
  accepted_waits (map fst hs) 0 = true ->
  error_status status = false ->
  _request_with_429_retry path markets max_retries w =
  (Return json,
   after w (request_of path markets) (S (List.length hs))
     (backoff (map fst hs) 0) rest).
Proof.
  intros Hp Hle Hacc Hs. rewrite (retry_run_prefix _ _ _ _ _ _ Hp Hle Hacc).
  rewrite retry_loop_last. cbn [pending after]. rewrite Hs.
  rewrite after_after, app_nil_r. now rewrite Nat.add_1_r.
Qed.

(** After the retried 429 replies, an error that is not a 429, or a 429 once
    [max_retries] replies were retried, is raised. *)
Lemma retry_run_failure path markets max_retries w
    (hs : list (option string * A)) status hdr json rest :
  pending w = map too_many hs ++ Response status hdr json :: rest ->
  (Z.of_nat (List.length hs) <= max_retries)%Z ->
  accepted_waits (map fst hs) 0 = true ->
  error_status status = true ->
  status <> 429%Z \/ Z.of_nat (List.length hs) = max_retries ->
  _request_with_429_retry path markets max_retries w =
  (Raise (HTTPError status hdr),
   after w (request_of path markets) (S (List.length hs))
     (backoff (map fst hs) 0) rest).
Proof.
  intros Hp Hle Hacc Hs Hexit.
  rewrite (retry_run_prefix _ _ _ _ _ _ Hp Hle Hacc).
  rewrite retry_loop_last. cbn [pending after]. rewrite Hs.
  replace (negb (status =? 429)%Z ||
           (Z.of_nat (List.length hs) >=? max_retries)%Z) with true
    by (destruct Hexit; lia).
  rewrite after_after, app_nil_r. now rewrite Nat.add_1_r.
Qed.

(** After the retried 429 replies, a 429 whose wait [time.sleep] refuses
    ends the call with the exception of [time.sleep]. *)
Lemma retry_run_refused path markets max_retries w
    (hs : list (option string * A)) hdr json rest e :
  pending w = map too_many hs ++ Response 429 hdr json :: rest ->
  (Z.of_nat (List.length hs) < max_retries)%Z ->
  accepted_waits (map fst hs) 0 = true ->
  sleep_seconds (wait_value hdr (Z.of_nat (List.length hs))) = inl e ->
  _request_with_429_retry path markets max_retries w =
  (Raise e,
   after w (request_of path markets) (S (List.length hs))
     (backoff (map fst hs) 0) rest).
Proof.
  intros Hp Hlt Hacc He.
  rewrite (retry_run_prefix _ _ _ _ _ _ Hp (Z.lt_le_incl _ _ Hlt) Hacc).
  rewrite (retry_loop_refused _ _ _ _ _ _ hdr json rest e);
    [| reflexivity | exact Hlt | exact He].
  rewrite after_after, app_nil_r. now rewrite Nat.add_1_r.
Qed.

(** The loop never runs out of fuel. *)
Lemma retry_loop_total fuel : forall path markets max_retries attempt w,
  (Z.to_nat (max_retries - attempt) < fuel)%nat ->
  fst (retry_loop fuel path markets max_retries attempt w) <> OutOfFuel.
Proof.
  induction fuel as [| fuel IH]; intros path markets max_retries attempt w Hf;
    [lia |].
  rewrite retry_loop_last.
  destruct (pending w) as [| [status hdr json |] rest]; try discriminate.
  destruct (error_status status); [| discriminate].
  destruct (negb (status =? 429)%Z || (attempt >=? max_retries)%Z) eqn:E;
    [discriminate |].
  destruct (sleep_seconds (wait_value hdr attempt)); [discriminate |].
  apply IH. lia.
Qed.

Lemma _request_with_429_retry_total path markets max_retries w :
  fst (_request_with_429_retry path markets max_retries w) <> OutOfFuel.
Proof.
  apply retry_loop_total. lia.
Qed.

(** A header that parses to a positive number is the wait. *)
Lemma wait_value_header (h : string) (v : Q) (attempt : Z) :
  h <> "" -> py_float h = Some (Finite v) -> 0 < v ->
  wait_value (Some h) attempt = Finite v.
Proof.
  intros Hne Hf Hv. unfold wait_value, retry_after_value, truthy.
  apply String.eqb_neq in Hne. rewrite Hne. cbn. rewrite Hf. cbn.
  destruct (Qle_bool v 0) eqn:E; [| reflexivity].
  apply Qle_bool_iff in E. lra.
Qed.

(** A header that is absent or empty, that does not parse, or that parses
    to a number that is not positive or to the negative infinity, is
    replaced by the exponential backoff. *)
Lemma wait_value_backoff (h : option string) (attempt : Z) :
  h = None \/ h = Some "" \/
  (exists s, h = Some s /\ py_float s = None) \/
  (exists s v, h = Some s /\ py_float s = Some (Finite v) /\ v <= 0) \/
  (exists s, h = Some s /\ py_float s = Some (Infinity true)) ->
  wait_value h attempt = Finite (inject_Z (2 ^ attempt)).
Proof.
  unfold wait_value, retry_after_value.
  intros [-> | [-> | [(s & -> & Hf) | [(s & v & -> & Hf & Hv) | (s & -> & Hf)]]]];
    try reflexivity.
  - rewrite Hf. now destruct (truthy s).
  - rewrite Hf. destruct (truthy s); [| reflexivity].
    cbn. apply Qle_bool_iff in Hv. now rewrite Hv.
  - rewrite Hf. now destruct (truthy s).
Qed.

(** A header that parses to a NaN or to the positive infinity is what
    [time.sleep] is called with. *)
Lemma wait_value_special (h : string) (x : pyfloat) (attempt : Z) :
  h <> "" -> py_float h = Some x -> x = NaN \/ x = Infinity false ->
  wait_value (Some h) attempt = x.
Proof.
  intros Hne Hf Hx. unfold wait_value, retry_after_value, truthy.
  apply String.eqb_neq in Hne. rewrite Hne. cbn. rewrite Hf.
  now destruct Hx as [-> | ->].
Qed.

End Requests.

Section RetryPolicy.
Context `{R : Runtime} {A : Type}.
Implicit Types (w : world A) (path : string) (markets : list string).

(** X29. The retry policy on waits that [time.sleep] accepts. When the
    upstream answers [length hs <= max_retries] times 429 and then something
    else or a last 429, and every wait in between is accepted: the wait
    after the 429 of attempt [i] (from 0) is its [Retry-After] value when
    that is present, parses to a number and is positive, and [2^i] seconds
    when it is absent, empty, unparsable, not positive or the negative
    infinity; a reply that is not an error is returned; an error other than
    429 is raised at once, with no wait of its own and no further request;
    and a 429 after [max_retries] retried ones is raised. *)
Theorem retry_policy_accepted_waits path markets max_retries w
    (hs : list (option string * A)) rest :
  pending w = map too_many hs ++ rest ->
  (Z.of_nat (List.length hs) <= max_retries)%Z ->
  accepted_waits (map fst hs) 0 = true ->
  let run := _request_with_429_retry path markets max_retries w in
  let done rest' :=
    after w (request_of path markets) (S (List.length hs))
      (backoff (map fst hs) 0) rest' in
  (forall h v attempt, h <> "" -> py_float h = Some (Finite v) -> 0 < v ->
     wait_value (Some h) attempt = Finite v) /\
  (forall h attempt,
     h = None \/ h = Some "" \/
     (exists s, h = Some s /\ py_float s = None) \/
     (exists s v, h = Some s /\ py_float s = Some (Finite v) /\ v <= 0) \/
     (exists s, h = Some s /\ py_float s = Some (Infinity true)) ->
     wait_value h attempt = Finite (inject_Z (2 ^ attempt))) /\
  (forall status hdr json rest',
     rest = Response status hdr json :: rest' ->
     error_status status = false ->
     run = (Return json, done rest')) /\
  (forall status hdr json rest',
     rest = Response status hdr json :: rest' ->
     error_status status = true -> status <> 429%Z ->
     run = (Raise (HTTPError status hdr), done rest')) /\
  (forall hdr json rest',
     rest = Response 429 hdr json :: rest' ->
     Z.of_nat (List.length hs) = max_retries ->
     run = (Raise (HTTPError 429 hdr), done rest')).
Proof.
  intros Hp Hle Hacc run done.
  split; [exact wait_value_header |].
  split; [exact wait_value_backoff |].
  split; [| split].
  - intros status hdr json rest' -> Hs.
    exact (retry_run_success _ _ _ _ _ _ _ _ _ Hp Hle Hacc Hs).
  - intros status hdr json rest' -> Hs Hne.
    exact (retry_run_failure _ _ _ _ _ _ _ _ _ Hp Hle Hacc Hs (or_introl Hne)).
  - intros hdr json rest' -> Hmax.
    exact (retry_run_failure _ _ _ _ _ _ _ _ _ Hp Hle Hacc eq_refl
             (or_intror Hmax)).
Qed.

(** C5, the defect. A 429 that the policy would retry and whose
    [Retry-After] header parses to a NaN, to the positive infinity or to a
    number beyond what [time.sleep] accepts is neither waited for nor backed
    off: the value is not [<= 0], so it is what [time.sleep] is called with,
    and the [ValueError] (NaN) or [OverflowError] of [time.sleep] leaves
    [_request_with_429_retry] after the one request, with no sleep and no
    retry. *)
Theorem retry_after_not_a_wait path markets max_retries w (h : string)
    (x : pyfloat) json rest :
  pending w = Response 429 (Some h) json :: rest ->
  (0 < max_retries)%Z ->
  h <> "" ->
  py_float h = Some x ->
  let run := _request_with_429_retry path markets max_retries w in
  let w' :=
    mkWorld rest (requests w ++ [request_of path markets]) (slept w)
      (printed w) in
  (x = NaN -> wait_value (Some h) 0 = NaN /\ run = (Raise ValueError, w')) /\
  (x = Infinity false ->
     wait_value (Some h) 0 = Infinity false /\
     run = (Raise OverflowError, w')) /\
  (forall v, x = Finite v -> SLEEP_MAX < v -> 0 < v ->
     wait_value (Some h) 0 = Finite v /\ run = (Raise OverflowError, w')).
Proof.
  intros Hp Hmax Hne Hf run w'.
  assert (Hrun : forall e, sleep_seconds (wait_value (Some h) 0) = inl e ->
                           run = (Raise e, w')).
  { intros e He. unfold run.
    rewrite (retry_run_refused path markets max_retries w [] (Some h) json
               rest e Hp Hmax eq_refl He).
    unfold after, w'. cbn. now rewrite app_nil_r. }
  split; [| split].
  - intros ->.
    rewrite (wait_value_special h NaN 0 Hne Hf (or_introl eq_refl)) in *.
    split; [reflexivity | now apply Hrun].
  - intros ->.
    rewrite (wait_value_special h _ 0 Hne Hf (or_intror eq_refl)) in *.
    split; [reflexivity | now apply Hrun].
  - intros v -> Hv Hpos.
    rewrite (wait_value_header h v 0 Hne Hf Hpos) in *.
    split; [reflexivity |]. apply Hrun. cbn.
    replace (Qltb SLEEP_MAX (Qabs v)) with true; [reflexivity |].
    symmetry. apply Qltb_lt. rewrite Qabs_pos by lra. exact Hv.
Qed.

End RetryPolicy.

Lemma retry_policy_accepted_waits_witness :
  _request_with_429_retry (H := example_runtime) "/p" ["m"] 3 (busy_once tt) =
    (Return tt,
     mkWorld [] [request_of (H := example_runtime) "/p" ["m"];
                 request_of (H := example_runtime) "/p" ["m"]] [2] []) /\
  _request_with_429_retry (H := example_runtime) "/p" ["m"] 3 (always_busy tt) =
    (Raise (HTTPError 429 None),
     mkWorld [Response 429 None tt]
       (repeat (request_of (H := example_runtime) "/p" ["m"]) 4)
       [1; 2; 4] []).
Proof.
  split.
  - destruct (retry_policy_accepted_waits (R := example_runtime) "/p" ["m"] 3
                (busy_once tt) [(Some "2", tt)] [Response 200 None tt] eq_refl)
      as (_ & _ & Hok & _); [cbn; lia | reflexivity |].
    exact (Hok 200%Z None tt [] eq_refl eq_refl).
  - destruct (retry_policy_accepted_waits (R := example_runtime) "/p" ["m"] 3
                (always_busy tt) [(None, tt); (None, tt); (None, tt)]
                [Response 429 None tt; Response 429 None tt] eq_refl)
      as (_ & _ & _ & _ & Hmax); [cbn; lia | reflexivity |].
    exact (Hmax None tt [Response 429 None tt] eq_refl eq_refl).
Defined.

(** With [Retry-After: nan] the call raises [ValueError] where the policy
    would wait one second and retry; with [Retry-After: 1e10] it raises
    [OverflowError] where the policy would wait and retry. *)
Lemma retry_after_not_a_wait_witness :
  _request_with_429_retry (H := example_runtime) "/p" ["m"] 3 (busy_nan tt) =
    (Raise ValueError,
     mkWorld [Response 200 None tt]
       [request_of (H := example_runtime) "/p" ["m"]] [] []) /\
  _request_with_429_retry (H := example_runtime) "/p" ["m"] 3 (busy_long tt) =
    (Raise OverflowError,
     mkWorld [Response 200 None tt]
       [request_of (H := example_runtime) "/p" ["m"]] [] []).
Proof.
  split.
  - refine (proj2 (proj1 (retry_after_not_a_wait (R := example_runtime)
               "/p" ["m"] 3 (busy_nan tt) "nan" NaN tt [Response 200 None tt]
               eq_refl _ _ eq_refl) eq_refl)); [lia | discriminate].
  - refine (proj2 (proj2 (proj2 (retry_after_not_a_wait (R := example_runtime)
               "/p" ["m"] 3 (busy_long tt) "1e10" (Finite 10000000000) tt
               [Response 200 None tt] eq_refl _ _ eq_refl))
               10000000000 eq_refl _ _)); [lia | discriminate | | ];
      reflexivity.
Defined.

(** ** The fetches *)

Section Fetches.
Context `{R : Runtime}.

(** The path of the games of a sport. *)
Lemma fetch_upcoming_games_request sport_key :
  fetch_upcoming_games sport_key =
  _request ("/sports/" ++ resolve_sport_key sport_key ++ "/odds")%string ["h2h"].
Proof. reflexivity. Qed.

(** C6, amended. The upcoming-games fetch issues exactly one request and
    never waits: on any error status, 429 included, it raises the failure to
    its caller at once, and on any other status it returns the body; the
    retry policy is not applied to it. *)
Theorem fetch_upcoming_games_no_retry (sport_key : string)
    (w : world (list raw_game)) status hdr json rest :
  pending w = Response status hdr json :: rest ->
  let req :=
    request_of ("/sports/" ++ resolve_sport_key sport_key ++ "/odds")%string
      ["h2h"] in
  let w' := mkWorld rest (requests w ++ [req]) (slept w) (printed w) in
  (error_status status = true ->
     fetch_upcoming_games sport_key w = (Raise (HTTPError status hdr), w')) /\
  (error_status status = false ->
     fetch_upcoming_games sport_key w = (Return json, w')).
Proof.
  intros Hp req w'. rewrite fetch_upcoming_games_request, _request_run, Hp.
  unfold after. cbn [repeat]. rewrite app_nil_r. fold req. fold w'.
  split; intros ->; reflexivity.
Qed.

Lemma fetch_event_props_run sport_key event_id m ms (w : world raw_event) :
  fetch_event_props sport_key event_id (m :: ms) w =
  match _request_with_429_retry (props_path sport_key event_id) (m :: ms) 3 w
  with
  | (Return json, w') => (Return (json, 0%Z), w')
  | (Raise (HTTPError status_code _), w') =>
      (Return (mkRawEvent None, 1%Z),
       mkWorld (pending w') (requests w') (slept w')
         (printed w' ++ [skip_line event_id status_code]))
  | (Raise e, w') => (Raise e, w')
  | (OutOfFuel, w') => (OutOfFuel, w')
  end.
Proof.
  unfold fetch_event_props, except_HTTPError, bind, props_path.
  destruct (_request_with_429_retry _ _ 3 w) as [[json | [] |] w'];
    reflexivity.
Qed.

(** C7. With an empty markets list the prop fetch returns the empty payload
    and zero errors and leaves the world as it is (no request); when the
    request under the retry policy ends in an HTTP failure it returns the
    empty payload and one error; this is what happens when the upstream
    answers a 429 after three retried ones, or another error status, the
    waits between the retried replies being ones [time.sleep] accepts; and
    it never raises an HTTP failure to its caller. *)
Theorem fetch_event_props_tolerant (sport_key event_id : string)
    (markets : list string) (w : world raw_event) :
  (markets = [] ->
     fetch_event_props sport_key event_id markets w =
     (Return (mkRawEvent None, 0%Z), w)) /\
  (forall status hdr w', markets <> [] ->
     _request_with_429_retry (props_path sport_key event_id) markets 3 w =
       (Raise (HTTPError status hdr), w') ->
     fetch_event_props sport_key event_id markets w =
     (Return (mkRawEvent None, 1%Z),
      mkWorld (pending w') (requests w') (slept w')
        (printed w' ++ [skip_line event_id status]))) /\
  (forall (hs : list (option string * raw_event)) status hdr json rest,
     markets <> [] ->
     pending w = map too_many hs ++ Response status hdr json :: rest ->
     (Z.of_nat (List.length hs) <= 3)%Z ->
     accepted_waits (map fst hs) 0 = true ->
     error_status status = true ->
     status <> 429%Z \/ Z.of_nat (List.length hs) = 3%Z ->
     fetch_event_props sport_key event_id markets w =
     (Return (mkRawEvent None, 1%Z),
      mkWorld rest
        (requests w ++
         repeat (request_of (props_path sport_key event_id) markets)
           (S (List.length hs)))
        (slept w ++ backoff (map fst hs) 0)
        (printed w ++ [skip_line event_id status]))) /\
  (forall status hdr,
     fst (fetch_event_props sport_key event_id markets w) <>
     Raise (HTTPError status hdr)) /\
  fst (fetch_event_props sport_key event_id markets w) <> OutOfFuel.
Proof.
  destruct markets as [| m ms].
  - repeat split; try discriminate; intros; congruence.
  - rewrite fetch_event_props_run.
    split; [discriminate |]. split; [| split; [| split]].
    + intros status hdr w' _ ->. reflexivity.
    + intros hs status hdr json rest _ Hp Hle Hacc Hs Hexit.
      now rewrite (retry_run_failure _ _ _ _ _ _ _ _ _ Hp Hle Hacc Hs Hexit).
    + intros status hdr.
      destruct (_request_with_429_retry _ _ 3 w) as [[json | [] |] w'];
        discriminate.
    + pose proof (_request_with_429_retry_total
                    (props_path sport_key event_id) (m :: ms) 3 w) as Htot.
      destruct (_request_with_429_retry _ _ 3 w) as [[json | [] |] w'];
        try discriminate.
      now elim Htot.
Qed.

End Fetches.

Lemma fetch_upcoming_games_no_retry_witness :
  fetch_upcoming_games (H := example_runtime) "nba" (always_busy (@nil raw_game)) =
  (Raise (HTTPError 429 None),
   mkWorld (repeat (Response 429 None (@nil raw_game)) 4)
     [request_of (H := example_runtime) "/sports/basketball_nba/odds" ["h2h"]]
     [] []).
Proof.
  exact (proj1 (fetch_upcoming_games_no_retry (R := example_runtime) "nba"
                  (always_busy (@nil raw_game)) 429%Z None (@nil raw_game) _ eq_refl) eq_refl).
Defined.


Lemma fetch_event_props_tolerant_witness :
  fetch_event_props (H := example_runtime) "nba" "e1" ["player_points"]
    (always_busy (mkRawEvent None)) =
  (Return (mkRawEvent None, 1%Z),
   mkWorld [Response 429 None (mkRawEvent None)]
     (repeat (request_of (H := example_runtime)
                "/sports/basketball_nba/events/e1/odds" ["player_points"]) 4)
     [1; 2; 4]
     ["Skipping props for event e1 after request failure. Status: 429."%string]) /\
  fetch_event_props (H := example_runtime) "nba" "e1" []
    (always_busy (mkRawEvent None)) =
  (Return (mkRawEvent None, 0%Z), always_busy (mkRawEvent None)).
Proof.
  split.
  - refine (proj1 (proj2 (proj2 (fetch_event_props_tolerant
               (R := example_runtime) "nba" "e1" ["player_points"]
               (always_busy (mkRawEvent None)))))
               [(None, mkRawEvent None); (None, mkRawEvent None);
                (None, mkRawEvent None)]
               429%Z None (mkRawEvent None)
               [Response 429 None (mkRawEvent None)] _ eq_refl _ eq_refl
               eq_refl (or_intror eq_refl));
      [discriminate | cbn; lia].
  - apply (proj1 (fetch_event_props_tolerant (R := example_runtime)
             "nba" "e1" [] (always_busy (mkRawEvent None)))).
    reflexivity.
Defined.

(** C6 as stated fails: on a 429 followed by a 200 the retry policy waits
    and returns the games, and [fetch_upcoming_games] raises the 429 after
    one request and no wait. *)
Lemma fetch_upcoming_games_429_not_retried :
  ~ (forall (sport_key : string) (w : world (list raw_game)),
       fetch_upcoming_games (H := example_runtime) sport_key w =
       _request_with_429_retry (H := example_runtime)
         ("/sports/" ++ resolve_sport_key sport_key ++ "/odds")%string
         ["h2h"] 3 w) /\
  _request_with_429_retry (H := example_runtime)
    "/sports/basketball_nba/odds" ["h2h"] 3 (busy_once (@nil raw_game)) =
    (Return [],
     mkWorld []
       (repeat (request_of (H := example_runtime)
                  "/sports/basketball_nba/odds" ["h2h"]) 2) [2] []) /\
  fetch_upcoming_games (H := example_runtime) "nba" (busy_once (@nil raw_game)) =
    (Raise (HTTPError 429 (Some "2")),
     mkWorld [Response 200 None (@nil raw_game)]
       (repeat (request_of (H := example_runtime)
                  "/sports/basketball_nba/odds" ["h2h"]) 1) [] []).
Proof.
  split; [| split; reflexivity].
  intros H. specialize (H "nba"%string (busy_once (@nil raw_game))).
  discriminate H.
Qed.

(** ** Normalization *)

(** An item on which the body of a loop does nothing can be left out. *)
Lemma fold_left_skip {X Y} (f : Y -> X -> Y) (l1 l2 : list X) (x : X) (a : Y) :
  (forall a', f a' x = a') ->
  fold_left f (l1 ++ x :: l2) a = fold_left f (l1 ++ l2) a.
Proof.
  intros E. rewrite !fold_left_app. cbn. now rewrite E.
Qed.

(** Two items on which the body of a loop does the same can be exchanged. *)
Lemma fold_left_same {X Y} (f : Y -> X -> Y) (l1 l2 : list X) (x x' : X) (a : Y) :
  (forall a', f a' x = f a' x') ->
  fold_left f (l1 ++ x :: l2) a = fold_left f (l1 ++ x' :: l2) a.
Proof.
  intros E. rewrite !fold_left_app. cbn. now rewrite E.
Qed.



Lemma get_set_same {V} (k : string) (v : V) (d : Dict.t V) :
  Dict.get k (Dict.set k v d) = Some v.
Proof.
  induction d as [| [k0 v0] d IH]; cbn.
  - now rewrite String.eqb_refl.
  - destruct (String.eqb k k0) eqn:E; cbn; rewrite E; [reflexivity | exact IH].
Qed.

Lemma get_set_other {V} (k k' : string) (v : V) (d : Dict.t V) :
  k <> k' -> Dict.get k (Dict.set k' v d) = Dict.get k d.
Proof.
  intros Hne. induction d as [| [k0 v0] d IH]; cbn.
  - apply String.eqb_neq in Hne. now rewrite Hne.
  - destruct (String.eqb_spec k' k0) as [-> | Hne0]; cbn.
    + apply String.eqb_neq in Hne. now rewrite Hne.
    + destruct (String.eqb k k0); [reflexivity | exact IH].
Qed.









(** The normalized games depend on a game through [normalize_game] only. *)
Lemma normalize_moneyline_odds_same gs1 g g' gs2 :
  normalize_game g = normalize_game g' ->
  normalize_moneyline_odds (gs1 ++ g :: gs2) =
  normalize_moneyline_odds (gs1 ++ g' :: gs2).
Proof.
  intros E. unfold normalize_moneyline_odds. apply fold_left_same.
  intros acc. unfold add_game. now rewrite E.
Qed.

Lemma normalize_game_books id home away ct bs bs' :
  fold_left add_bookmaker bs [] = fold_left add_bookmaker bs' [] ->
  normalize_game (mkRawGame id home away ct (Some bs)) =
  normalize_game (mkRawGame id home away ct (Some bs')).
Proof.
  intros E. unfold normalize_game. cbn. now rewrite E.
Qed.

(** Later outcomes, markets and bookmakers keep a stored price, or replace
    it by another price they store. *)
Section Retention.
Context `{R : Runtime}.
Variables (P : price -> Prop) (key book_name side_name : string).







End Retention.



(** Every price the moneyline normalizer stores is the conversion of its
    odds. *)
Lemma set_Forall {V} (P : V -> Prop) (k : string) (v : V) (d : Dict.t V) :
  P v -> Forall (fun kv => P (snd kv)) d ->
  Forall (fun kv => P (snd kv)) (Dict.set k v d).
Proof.
  intros Hv. induction 1 as [| [k0 v0] d H0 Hd IH]; cbn.
  - now repeat constructor.
  - destruct (String.eqb k k0); constructor; assumption.
Qed.

Lemma add_outcome_converted (os : list raw_outcome) : forall teams,
  Forall (fun kv => converted (snd kv)) teams ->
  Forall (fun kv => converted (snd kv)) (fold_left add_outcome os teams).
Proof.
  induction os as [| o os IH]; intros teams Hall; cbn; [exact Hall |].
  apply IH. unfold add_outcome.
  destruct (o_name o) as [team |]; [| exact Hall].
  destruct (o_price o) as [price |]; [| exact Hall].
  apply set_Forall; [| exact Hall]. unfold converted. cbn. reflexivity.
Qed.


(** ** Totality of the moneyline normalization *)

Lemma in_keys_set {V} (k k' : string) (v : V) (d : Dict.t V) :
  In k' (Dict.keys (Dict.set k v d)) <-> k' = k \/ In k' (Dict.keys d).
Proof.
  induction d as [| [k0 v0] d IH]; cbn.
  - split; [intros [<- | []]; now left | intros [-> | []]; now left].
  - destruct (String.eqb_spec k k0) as [-> | Hne]; cbn.
    + split; [now right | intros [-> | H]; [now left | exact H]].
    + unfold Dict.keys in IH. rewrite IH. tauto.
Qed.

Lemma NoDup_keys_set {V} (k : string) (v : V) (d : Dict.t V) :
  NoDup (Dict.keys d) -> NoDup (Dict.keys (Dict.set k v d)).
Proof.
  induction d as [| [k0 v0] d IH]; cbn; intros Hnd.
  - repeat constructor. intros [].
  - inversion Hnd as [| ? ? Hnin Hnd']; subst.
    destruct (String.eqb_spec k k0) as [-> | Hne]; cbn.
    + now constructor.
    + constructor; [| now apply IH].
      intros Hin. apply (in_keys_set k k0 v d) in Hin as [-> | Hin];
        contradiction.
Qed.

Lemma normalize_game_complete g :
  complete_game g ->
  exists game_data, normalize_game g = inr game_data /\
                    g_id g = Some (game_id game_data).
Proof.
  intros (Hid & Hhome & Haway). unfold normalize_game.
  destruct (g_id g) as [id |]; [| contradiction].
  destruct (g_home_team g) as [home |]; [| contradiction].
  destruct (g_away_team g) as [away |]; [| contradiction].
  eexists. split; reflexivity.
Qed.

Lemma normalize_game_incomplete g :
  ~ complete_game g -> exists k, normalize_game g = inl (KeyError k).
Proof.
  intros Hnot. unfold normalize_game, complete_game in *.
  destruct (g_id g) as [id |]; [| eauto].
  destruct (g_home_team g) as [home |]; [| eauto].
  destruct (g_away_team g) as [away |]; [| eauto].
  elim Hnot. repeat split; discriminate.
Qed.

Lemma fold_add_game_raised gs e : fold_left add_game gs (inl e) = inl e.
Proof.
  induction gs as [| g gs IH]; [reflexivity | exact IH].
Qed.

Lemma normalize_game_error g e :
  normalize_game g = inl e -> exists k, e = KeyError k.
Proof.
  unfold normalize_game.
  destruct (g_id g); [| intros [= <-]; eauto].
  destruct (g_home_team g); [| intros [= <-]; eauto].
  destruct (g_away_team g); [discriminate | intros [= <-]; eauto].
Qed.

Lemma fold_add_game_error gs : forall normalized e,
  fold_left add_game gs (inr normalized) = inl e -> exists k, e = KeyError k.
Proof.
  induction gs as [| g gs IH]; intros normalized e; cbn; [discriminate |].
  destruct (normalize_game g) as [e1 | gd] eqn:Eg.
  - rewrite fold_add_game_raised. intros [= <-].
    exact (normalize_game_error _ _ Eg).
  - apply IH.
Qed.

Lemma fold_add_game_complete gs : forall normalized,
  Forall complete_game gs ->
  exists normalized',
    fold_left add_game gs (inr normalized) = inr normalized' /\
    (NoDup (Dict.keys normalized) -> NoDup (Dict.keys normalized')) /\
    (forall id, In id (Dict.keys normalized') <->
                In id (Dict.keys normalized) \/
                exists g, In g gs /\ g_id g = Some id).
Proof.
  induction gs as [| g gs IH]; intros normalized Hall.
  - exists normalized. cbn. repeat split; auto.
    intros [H | (g & [] & _)]. exact H.
  - inversion Hall as [| ? ? Hg Hgs]; subst.
    destruct (normalize_game_complete g Hg) as (gd & Egd & Eid).
    cbn [fold_left add_game]. rewrite Egd.
    destruct (IH (Dict.set (game_id gd) gd normalized) Hgs)
      as (n' & En' & Hnd & Hkeys).
    exists n'. split; [exact En' |]. split.
    + intros H. apply Hnd. now apply NoDup_keys_set.
    + intros id. rewrite Hkeys, in_keys_set. split.
      * intros [[-> | H] | (g' & Hin & Hid)].
        -- right. exists g. split; [now left | exact Eid].
        -- now left.
        -- right. exists g'. split; [now right | exact Hid].
      * intros [H | (g' & [<- | Hin] & Hid)].
        -- left. now right.
        -- left. left. congruence.
        -- right. eauto.
Qed.

(** On records without [null]: the normalization raises [KeyError], and
    returns no games at all, as soon as one raw game lacks [id], [home_team]
    or [away_team]; when every raw game has the three it returns, and the
    result has exactly one entry per distinct game id of the input. *)
Lemma normalize_moneyline_odds_typed (raw_games : list raw_game) :
  ((exists g, In g raw_games /\ ~ complete_game g) ->
     exists k, normalize_moneyline_odds raw_games = inl (KeyError k)) /\
  ((forall g, In g raw_games -> complete_game g) ->
     exists normalized,
       normalize_moneyline_odds raw_games = inr normalized /\
       NoDup (Dict.keys normalized) /\
       forall id, In id (Dict.keys normalized) <->
                  exists g, In g raw_games /\ g_id g = Some id).
Proof.
  unfold normalize_moneyline_odds.
  split.
  - intros (g & Hin & Hnot).
    destruct (in_split _ _ Hin) as (gs1 & gs2 & ->).
    destruct (normalize_game_incomplete g Hnot) as (k & Ek).
    rewrite fold_left_app. cbn [fold_left].
    destruct (fold_left add_game gs1 (inr [])) as [e | normalized] eqn:E1.
    + destruct (fold_add_game_error _ _ _ E1) as (k1 & ->).
      cbn. rewrite fold_add_game_raised. eauto.
    + cbn. rewrite Ek, fold_add_game_raised. eauto.
  - intros Hall. apply Forall_forall in Hall.
    destruct (fold_add_game_complete raw_games [] Hall)
      as (n' & En' & Hnd & Hkeys).
    exists n'. split; [exact En' |]. split; [apply Hnd; constructor |].
    intros id. rewrite Hkeys. cbn. tauto.
Qed.

(** ** Totality of the moneyline normalization, with nulls *)

Lemma key_eqb_spec (k k' : option string) :
  reflect (k = k') (Wire.key_eqb k k').
Proof.
  destruct k as [a |], k' as [b |]; cbn; try (constructor; congruence).
  destruct (String.eqb_spec a b); constructor; congruence.
Qed.

Lemma wire_in_keys_set k k' v d :
  In k' (Wire.keys (Wire.set k v d)) <-> k' = k \/ In k' (Wire.keys d).
Proof.
  induction d as [| [k0 v0] d IH]; cbn.
  - split; [intros [<- | []]; now left | intros [-> | []]; now left].
  - destruct (key_eqb_spec k k0) as [-> | Hne]; cbn.
    + split; [now right | intros [-> | H]; [now left | exact H]].
    + unfold Wire.keys in IH. rewrite IH. tauto.
Qed.

Lemma wire_NoDup_keys_set k v d :
  NoDup (Wire.keys d) -> NoDup (Wire.keys (Wire.set k v d)).
Proof.
  induction d as [| [k0 v0] d IH]; cbn; intros Hnd.
  - repeat constructor. intros [].
  - inversion Hnd as [| ? ? Hnin Hnd']; subst.
    destruct (key_eqb_spec k k0) as [-> | Hne]; cbn.
    + now constructor.
    + constructor; [| now apply IH].
      intros Hin. apply (wire_in_keys_set k k0 v d) in Hin as [-> | Hin];
        contradiction.
Qed.

Lemma wire_fold_add_bookmaker_raised bs e :
  fold_left Wire.add_bookmaker bs (inl e) = inl e.
Proof.
  induction bs as [| b bs IH]; [reflexivity | exact IH].
Qed.

(** A bookmaker whose lists are not [null] does not raise. *)
Lemma wire_add_bookmaker_returns books b :
  Wire.b_markets b <> Wire.Null ->
  (forall m, In m (Wire.listed (Wire.b_markets b)) ->
     Wire.m_outcomes m <> Wire.Null) ->
  exists books', Wire.add_bookmaker (inr books) b = inr books'.
Proof.
  intros Hms Hos. unfold Wire.add_bookmaker.
  destruct (usable_name (Wire.book_name_of b)) as [book_name |]; [| eauto].
  destruct (Wire.b_markets b) as [| | ms]; cbn in *;
    [eauto | now elim Hms |].
  destruct (find Wire.is_h2h ms) as [m |] eqn:Em; [| eauto].
  apply find_some in Em as [Hin _]. specialize (Hos m Hin).
  destruct (Wire.m_outcomes m) as [| | os]; cbn;
    [eauto | now elim Hos |].
  destruct (fold_left Wire.add_outcome os []); eauto.
Qed.

Lemma wire_fold_add_bookmaker_returns bs : forall books,
  (forall b, In b bs ->
     Wire.b_markets b <> Wire.Null /\
     forall m, In m (Wire.listed (Wire.b_markets b)) ->
       Wire.m_outcomes m <> Wire.Null) ->
  exists books', fold_left Wire.add_bookmaker bs (inr books) = inr books'.
Proof.
  induction bs as [| b bs IH]; intros books Hbs; cbn [fold_left]; [eauto |].
  destruct (Hbs b (or_introl eq_refl)) as [Hms Hos].
  destruct (wire_add_bookmaker_returns books b Hms Hos) as (books1 & ->).
  apply IH. intros b' Hin. apply Hbs. now right.
Qed.

Lemma wire_normalize_game_returns g :
  Wire.complete_game g -> Wire.no_null_list g ->
  exists game_data,
    Wire.normalize_game g = inr game_data /\
    Wire.id_of g = Some (Wire.game_id game_data).
Proof.
  intros (Hid & Hhome & Haway) (Hbs & Hlists).
  destruct (wire_fold_add_bookmaker_returns
              (Wire.listed (Wire.g_bookmakers g)) [] Hlists) as (books' & E).
  unfold Wire.normalize_game, Wire.id_of.
  destruct (Wire.g_id g) as [| | id]; [now elim Hid | |];
    (destruct (Wire.g_home_team g) as [| | home]; [now elim Hhome | |]);
    (destruct (Wire.g_away_team g) as [| | away]; [now elim Haway | |]);
    (destruct (Wire.g_bookmakers g) as [| | bs]; [| now elim Hbs |]);
    cbn in E |- *; try rewrite E; eexists; split; reflexivity.
Qed.

Lemma wire_normalize_game_incomplete g :
  ~ Wire.complete_game g -> exists k, Wire.normalize_game g = inl (KeyError k).
Proof.
  intros Hnot. unfold Wire.normalize_game, Wire.complete_game in *.
  destruct (Wire.g_id g) as [| | id]; cbn; [eauto | |];
    (destruct (Wire.g_home_team g) as [| | home]; cbn; [eauto | |]);
    (destruct (Wire.g_away_team g) as [| | away]; cbn; [eauto | |]);
    elim Hnot; repeat split; discriminate.
Qed.

Lemma wire_fold_add_game_raised gs e :
  fold_left Wire.add_game gs (inl e) = inl e.
Proof.
  induction gs as [| g gs IH]; [reflexivity | exact IH].
Qed.

Lemma wire_fold_add_game_returns gs : forall normalized,
  Forall (fun g => Wire.complete_game g /\ Wire.no_null_list g) gs ->
  exists normalized',
    fold_left Wire.add_game gs (inr normalized) = inr normalized' /\
    (NoDup (Wire.keys normalized) -> NoDup (Wire.keys normalized')) /\
    (forall id, In id (Wire.keys normalized') <->
                In id (Wire.keys normalized) \/
                exists g, In g gs /\ Wire.id_of g = Some id).
Proof.
  induction gs as [| g gs IH]; intros normalized Hall.
  - exists normalized. cbn. repeat split; auto.
    intros [H | (g & [] & _)]. exact H.
  - inversion Hall as [| ? ? [Hg Hnull] Hgs]; subst.
    destruct (wire_normalize_game_returns g Hg Hnull) as (gd & Egd & Eid).
    cbn [fold_left Wire.add_game]. rewrite Egd.
    destruct (IH (Wire.set (Wire.game_id gd) gd normalized) Hgs)
      as (n' & En' & Hnd & Hkeys).
    exists n'. split; [exact En' |]. split.
    + intros H. apply Hnd. now apply wire_NoDup_keys_set.
    + intros id. rewrite Hkeys, wire_in_keys_set. split.
      * intros [[-> | H] | (g' & Hin & Hid)].
        -- right. exists g. split; [now left | exact Eid].
        -- now left.
        -- right. exists g'. split; [now right | exact Hid].
      * intros [H | (g' & [<- | Hin] & Hid)].
        -- left. now right.
        -- left. left. congruence.
        -- right. eauto.
Qed.

Lemma wire_complete_dec g :
  Wire.complete_game g \/ ~ Wire.complete_game g.
Proof.
  unfold Wire.complete_game.
  destruct (Wire.g_id g); [right; now intros (H & _) | |];
    (destruct (Wire.g_home_team g); [right; now intros (_ & H & _) | |]);
    (destruct (Wire.g_away_team g); [right; now intros (_ & _ & H) | |]);
    left; repeat split; discriminate.
Qed.

(** The normalization raises as soon as a game lacks one of the three
    keys. *)
Lemma wire_normalize_incomplete_raises gs :
  (exists g, In g gs /\ ~ Wire.complete_game g) ->
  exists e, Wire.normalize_moneyline_odds gs = inl e.
Proof.
  intros (g & Hin & Hnot). unfold Wire.normalize_moneyline_odds.
  destruct (in_split _ _ Hin) as (gs1 & gs2 & ->).
  destruct (wire_normalize_game_incomplete g Hnot) as (k & Ek).
  rewrite fold_left_app. cbn [fold_left].
  destruct (fold_left Wire.add_game gs1 (inr [])) as [e | normalized].
  - cbn. rewrite wire_fold_add_game_raised. eauto.
  - cbn. rewrite Ek, wire_fold_add_game_raised. eauto.
Qed.

(** Without a [null] list the only exception is [KeyError]. *)
Lemma wire_fold_add_game_no_null gs : forall acc,
  (forall g, In g gs -> Wire.no_null_list g) ->
  (exists k, fold_left Wire.add_game gs (inr acc) = inl (KeyError k)) \/
  exists acc', fold_left Wire.add_game gs (inr acc) = inr acc'.
Proof.
  induction gs as [| g0 gs IH]; intros acc Hgs; cbn [fold_left Wire.add_game];
    [right; eauto |].
  destruct (wire_complete_dec g0) as [Hc | Hc].
  - destruct (wire_normalize_game_returns g0 Hc (Hgs g0 (or_introl eq_refl)))
      as (gd & -> & _).
    apply IH. intros g' Hg'. apply Hgs. now right.
  - destruct (wire_normalize_game_incomplete g0 Hc) as (k0 & ->).
    left. exists k0. apply wire_fold_add_game_raised.
Qed.

(** On records without [null] the two normalizations agree. *)
Lemma wire_add_outcome (os : list raw_outcome) : forall teams,
  fold_left Wire.add_outcome (map wire_outcome os) teams =
  fold_left add_outcome os teams.
Proof.
  induction os as [| o os IH]; intros teams; [reflexivity |].
  cbn [map fold_left]. rewrite IH. f_equal.
  unfold Wire.add_outcome, add_outcome, wire_outcome. cbn.
  destruct (o_name o), (o_price o); reflexivity.
Qed.

Lemma wire_find_h2h (ms : list raw_market) :
  find Wire.is_h2h (map wire_market ms) = option_map wire_market (find is_h2h ms).
Proof.
  induction ms as [| m ms IH]; [reflexivity |]. cbn [map find].
  replace (Wire.is_h2h (wire_market m)) with (is_h2h m)
    by (unfold Wire.is_h2h, is_h2h, wire_market; cbn; now destruct (m_key m)).
  now destruct (is_h2h m).
Qed.

Lemma wire_add_bookmaker books (b : raw_bookmaker) :
  Wire.add_bookmaker (inr books) (wire_bookmaker b) =
  inr (add_bookmaker books b).
Proof.
  unfold Wire.add_bookmaker, add_bookmaker.
  replace (Wire.book_name_of (wire_bookmaker b)) with (book_name_of b)
    by (unfold Wire.book_name_of, book_name_of, wire_bookmaker; cbn;
        destruct (b_title b); [reflexivity | now destruct (b_key b)]).
  destruct (usable_name (book_name_of b)) as [book_name |]; [| reflexivity].
  unfold wire_bookmaker. cbn [Wire.b_markets].
  destruct (b_markets b) as [ms |]; cbn; [| reflexivity].
  rewrite wire_find_h2h. destruct (find is_h2h ms) as [m |]; cbn;
    [| reflexivity].
  destruct (m_outcomes m) as [os |]; cbn; [| reflexivity].
  rewrite wire_add_outcome.
  now destruct (fold_left add_outcome os []).
Qed.

Lemma wire_fold_add_bookmaker (bs : list raw_bookmaker) : forall books,
  fold_left Wire.add_bookmaker (map wire_bookmaker bs) (inr books) =
  inr (fold_left add_bookmaker bs books).
Proof.
  induction bs as [| b bs IH]; intros books; [reflexivity |].
  cbn [map fold_left]. now rewrite wire_add_bookmaker, IH.
Qed.

Lemma wire_normalize_game (g : raw_game) :
  Wire.normalize_game (wire_game g) =
  match normalize_game g with
  | inl e => inl e
  | inr game_data => inr (snd (wire_normalized (game_id game_data, game_data)))
  end.
Proof.
  unfold Wire.normalize_game, normalize_game, wire_game. cbn.
  destruct (g_id g) as [id |]; [| reflexivity].
  destruct (g_home_team g) as [home |]; [| reflexivity].
  destruct (g_away_team g) as [away |]; [| reflexivity]. cbn.
  destruct (g_bookmakers g) as [bs |]; cbn.
  - rewrite wire_fold_add_bookmaker. cbn. now destruct (g_commence_time g).
  - now destruct (g_commence_time g).
Qed.

Lemma wire_set (k : string) (v : game) (d : Dict.t game) :
  Wire.set (Some k) (snd (wire_normalized (k, v))) (map wire_normalized d) =
  map wire_normalized (Dict.set k v d).
Proof.
  induction d as [| [k0 v0] d IH]; [reflexivity |]. cbn.
  destruct (String.eqb k k0); cbn; [reflexivity |].
  f_equal. exact IH.
Qed.

Lemma wire_fold_add_game (gs : list raw_game) : forall normalized,
  fold_left Wire.add_game (map wire_game gs)
    (inr (map wire_normalized normalized)) =
  match fold_left add_game gs (inr normalized) with
  | inl e => inl e
  | inr normalized' => inr (map wire_normalized normalized')
  end.
Proof.
  induction gs as [| g gs IH]; intros normalized; [reflexivity |].
  cbn [map fold_left Wire.add_game add_game].
  rewrite wire_normalize_game.
  destruct (normalize_game g) as [e | gd].
  - now rewrite wire_fold_add_game_raised, fold_add_game_raised.
  - cbn [Wire.game_id wire_normalized snd fst].
    rewrite <- IH. f_equal. f_equal. apply wire_set.
Qed.

Lemma wire_refines_typed (raw_games : list raw_game) :
  Wire.normalize_moneyline_odds (map wire_game raw_games) =
  match normalize_moneyline_odds raw_games with
  | inl e => inl e
  | inr normalized => inr (map wire_normalized normalized)
  end.
Proof.
  exact (wire_fold_add_game raw_games []).
Qed.

(** C10 as stated fails: a game with the three fields whose [bookmakers]
    is [null] makes the normalization raise [TypeError]. *)
Lemma null_bookmakers_raise :
  ~ (forall raw_games,
       (forall g, In g raw_games -> Wire.complete_game g) ->
       exists normalized,
         Wire.normalize_moneyline_odds raw_games = inr normalized) /\
  Wire.complete_game null_bookmakers_game /\
  Wire.normalize_moneyline_odds [null_bookmakers_game] = inl TypeError.
Proof.
  assert (Hc : Wire.complete_game null_bookmakers_game)
    by (repeat split; discriminate).
  split; [| split; [exact Hc | reflexivity]].
  intros H. destruct (H [null_bookmakers_game]) as (n & En).
  - now intros g [<- | []].
  - discriminate En.
Qed.

(** C10, amended. The moneyline normalization returns no games at all, and
    raises, as soon as one raw game lacks [id], [home_team] or [away_team];
    the exception is [KeyError] when no list of the games is [null]. When
    every raw game has the three keys and no list of bookmakers, markets or
    outcomes is [null], it returns, whatever keys of the bookmakers, markets
    and outcomes are missing or [null], and the result has exactly one entry
    per distinct game id of the input. On records without [null] this is the
    normalization of the typed records. *)
Theorem normalize_moneyline_odds_total_without_null
    (raw_games : list Wire.raw_game) :
  ((exists g, In g raw_games /\ ~ Wire.complete_game g) ->
     (exists e, Wire.normalize_moneyline_odds raw_games = inl e) /\
     ((forall g, In g raw_games -> Wire.no_null_list g) ->
      exists k, Wire.normalize_moneyline_odds raw_games = inl (KeyError k))) /\
  ((forall g, In g raw_games -> Wire.complete_game g /\ Wire.no_null_list g) ->
     exists normalized,
       Wire.normalize_moneyline_odds raw_games = inr normalized /\
       NoDup (Wire.keys normalized) /\
       forall id, In id (Wire.keys normalized) <->
                  exists g, In g raw_games /\ Wire.id_of g = Some id) /\
  (forall typed_games,
     raw_games = map wire_game typed_games ->
     Wire.normalize_moneyline_odds raw_games =
     match normalize_moneyline_odds typed_games with
     | inl e => inl e
     | inr normalized => inr (map wire_normalized normalized)
     end).
Proof.
  split; [| split].
  - intros Hbad. split; [exact (wire_normalize_incomplete_raises _ Hbad) |].
    intros Hnull. destruct Hbad as (g & Hin & Hnot).
    unfold Wire.normalize_moneyline_odds.
    destruct (in_split _ _ Hin) as (gs1 & gs2 & ->).
    destruct (wire_normalize_game_incomplete g Hnot) as (k & Ek).
    rewrite fold_left_app. cbn [fold_left].
    destruct (wire_fold_add_game_no_null gs1 []) as [(k' & ->) | (acc' & ->)].
    + intros g' Hg'. apply Hnull. apply in_or_app. now left.
    + cbn. rewrite wire_fold_add_game_raised. eauto.
    + cbn. rewrite Ek, wire_fold_add_game_raised. eauto.
  - intros Hall. apply Forall_forall in Hall.
    destruct (wire_fold_add_game_returns raw_games [] Hall)
      as (n' & En' & Hnd & Hkeys).
    exists n'. split; [exact En' |]. split; [apply Hnd; constructor |].
    intros id. rewrite Hkeys. cbn. tauto.
  - intros typed_games ->. apply wire_refines_typed.
Qed.

Lemma normalize_moneyline_odds_total_without_null_witness :
  (exists k,
     Wire.normalize_moneyline_odds [null_price_game; nameless_wire_game] =
     inl (KeyError k)) /\
  (exists normalized,
     Wire.normalize_moneyline_odds
       [null_price_game; null_price_game] = inr normalized /\
     Wire.keys normalized = [Some "g2"%string] /\
     map (fun kv => Wire.books (snd kv)) normalized =
       [ [ ("A"%string, [ ("H"%string, price_of 120) ]) ] ]) /\
  Wire.normalize_moneyline_odds (map wire_game sample_games) =
    inr (map wire_normalized sample_normalized).
Proof.
  assert (Hnull : Wire.no_null_list null_price_game).
  { split; [discriminate |]. intros b [<- | []].
    split; [discriminate |]. intros m [<- | []]. discriminate. }
  split; [| split].
  - apply (proj1 (normalize_moneyline_odds_total_without_null
                    [null_price_game; nameless_wire_game])).
    + exists nameless_wire_game. split; [right; now left |].
      intros (H & _). now apply H.
    + intros g [<- | [<- | []]]; [exact Hnull |].
      split; [discriminate |]. intros b [].
  - destruct (proj1 (proj2 (normalize_moneyline_odds_total_without_null
                              [null_price_game; null_price_game])))
      as (n & En & _).
    + intros g [<- | [<- | []]]; (split; [| exact Hnull]);
        repeat split; discriminate.
    + eexists. split; [reflexivity |]. split; reflexivity.
  - apply (proj2 (proj2 (normalize_moneyline_odds_total_without_null
                           (map wire_game sample_games))) sample_games).
    reflexivity.
Defined.

(** ** The scenario of the two books *)

(** Book A at +120 on the home team and book B at +150 on the away team:
    the games normalize, and the detector emits one row, over book A, under
    book B, with a profit of 14.545 percent. *)
Example two_books_scenario :
  exists normalized opp,
    normalize_moneyline_odds sample_games = inr normalized /\
    detect_moneyline_arbitrage normalized = [opp] /\
    over_book (arb_of opp) = "A"%string /\
    under_book (arb_of opp) = "B"%string /\
    profit_percent (arb_of opp) == 14545 # 1000.
Proof.
  do 2 eexists. split; [reflexivity |]. split; [reflexivity |].
  repeat split.
Qed.

(** With equal odds the first bookmaker is kept. *)
Example first_of_equal_odds :
  _best_prop_side
    [ ("A"%string, [ ("X"%string, mkPrice 120 (5 # 11)) ]);
      ("B"%string, [ ("X"%string, mkPrice 120 (5 # 11)) ]) ] "X" =
  Some {| book := "A"; odds := 120; implied_prob := 5 # 11 |}.
Proof. reflexivity. Qed.

(** An event in which book A quotes Over and a mislabelled side for one
    player line and book B quotes Under. *)
Example prop_scenario :
  normalize_prop_odds (H := example_runtime) "g1"
    (mkRawEvent
       (Some
          [ mkBookmaker (Some "A"%string) None
              (Some [ mkMarket (Some "player_points"%string)
                        (Some [ mkOutcome (Some "Over"%string)
                                  (Some "P"%string) (Some (49 # 2)) (Some 110);
                                mkOutcome (Some "Push"%string)
                                  (Some "P"%string) (Some (49 # 2)) (Some 900) ]) ]);
            mkBookmaker None (Some "B"%string)
              (Some [ mkMarket (Some "player_points"%string)
                        (Some [ mkOutcome (Some "Under"%string)
                                  (Some "P"%string) (Some (49 # 2)) (Some 105) ]) ]) ]))
  = [ ("g1"%string,
       [ ("player_points"%string,
          [ ("P|?"%string,
             {| pl_player := "P"; pl_line := 49 # 2;
                pl_books :=
                  [ ("A"%string,
                     [ ("Over"%string,
                        mkPrice 110 (odds_to_probability 110)) ]);
                    ("B"%string,
                     [ ("Under"%string,
                        mkPrice 105 (odds_to_probability 105)) ]) ] |}) ]) ]) ].
Proof. reflexivity. Qed.

(** ** The binary64 reading: comparisons of floats *)

(** [x < y] excludes [y <= x], NaN included. *)
Lemma SFcompare_Lt_Gt (x y : spec_float) :
  SFcompare x y = Some Lt -> SFcompare y x = Some Gt.
Proof.
  destruct x as [sx | sx | | sx mx ex], y as [sy | sy | | sy my ey]; cbn;
    try discriminate;
    try (destruct sx; try destruct sy; (discriminate || reflexivity)).
  destruct sx, sy; try (discriminate || reflexivity);
    rewrite (Z.compare_antisym ex ey);
    destruct (ex ?= ey)%Z eqn:E; cbn; try (discriminate || reflexivity);
    change (Pos.compare_cont Eq mx my) with (mx ?= my)%positive;
    change (Pos.compare_cont Eq my mx) with (my ?= mx)%positive;
    rewrite (Pos.compare_antisym mx my);
    destruct (mx ?= my)%positive; cbn; (discriminate || reflexivity).
Qed.

Lemma ltb_not_leb (x y : float) :
  PrimFloat.ltb x y = true -> PrimFloat.leb y x = false.
Proof.
  rewrite ltb_spec, leb_spec. unfold SFltb, SFleb.
  destruct (SFcompare (Prim2SF x) (Prim2SF y)) as [[| |] |] eqn:E;
    try discriminate.
  intros _. now rewrite (SFcompare_Lt_Gt _ _ E).
Qed.

(** ** Two-way arbitrage on binary64 *)

(** C1. [detect_two_way_arbitrage] on the floats it computes with: no
    opportunity when a side is absent; none when both are present and the
    float sum of their implied probabilities is [>= 1]; and when the sum is
    [< 1], the opportunity whose profit is [round((1 - sum) * 100, 3)] in
    float arithmetic, with the book and odds of [side_a] on the over leg and
    those of [side_b] on the under leg. *)
Theorem detect_two_way_arbitrage_binary64 (side_a side_b : option B64.side) :
  (side_a = None \/ side_b = None ->
     B64.detect_two_way_arbitrage side_a side_b = None) /\
  (forall a b, side_a = Some a -> side_b = Some b ->
     PrimFloat.leb 1 (B64.implied_prob a + B64.implied_prob b) = true ->
     B64.detect_two_way_arbitrage side_a side_b = None) /\
  (forall a b, side_a = Some a -> side_b = Some b ->
     PrimFloat.ltb (B64.implied_prob a + B64.implied_prob b) 1 = true ->
     B64.detect_two_way_arbitrage side_a side_b =
     Some {| B64.profit_percent :=
               B64.round3
                 ((1 - (B64.implied_prob a + B64.implied_prob b)) * 100)%float;
             B64.over_book := B64.book a;
             B64.under_book := B64.book b;
             B64.over_odds := B64.odds a;
             B64.under_odds := B64.odds b |}).
Proof.
  split; [| split].
  - intros [-> | ->]; [reflexivity | now destruct side_a].
  - intros a b -> -> H. cbn. now rewrite H.
  - intros a b -> -> H. cbn. now rewrite (ltb_not_leb _ _ H).
Qed.

(** At +150 with book A and +156 with book B the floats are 0.4 and
    0.390625, their sum is below 1 and the profit is 20.937 percent; at
    -1000 and +1000 the float sum is 1.0 and there is no opportunity. *)
Lemma detect_two_way_arbitrage_binary64_witness :
  B64.detect_two_way_arbitrage (Some B64.at_150) (Some B64.at_156) =
    Some {| B64.profit_percent := 20.937%float;
            B64.over_book := "A"; B64.under_book := "B";
            B64.over_odds := B64.Int 150; B64.under_odds := B64.Int 156 |} /\
  B64.detect_two_way_arbitrage (Some B64.at_minus_1000) (Some B64.at_1000) =
    None /\
  B64.detect_two_way_arbitrage None (Some B64.at_1000) = None.
Proof.
  split; [| split].
  - refine (eq_trans
              (proj2 (proj2 (detect_two_way_arbitrage_binary64
                               (Some B64.at_150) (Some B64.at_156)))
                 B64.at_150 B64.at_156 eq_refl eq_refl _) _);
      vm_compute; reflexivity.
  - refine (proj1 (proj2 (detect_two_way_arbitrage_binary64
                            (Some B64.at_minus_1000) (Some B64.at_1000)))
              B64.at_minus_1000 B64.at_1000 eq_refl eq_refl _).
    vm_compute. reflexivity.
  - apply (proj1 (detect_two_way_arbitrage_binary64 None (Some B64.at_1000))).
    now left.
Defined.

(** ** Implied probability on binary64 *)

Lemma all_inside_sound (p : positive) : forall lo z,
  B64.all_inside p lo = true ->
  (lo <= z < lo + Zpos p)%Z ->
  B64.inside z = true /\ B64.inside (- z) = true.
Proof.
  induction p as [p IH | p IH |]; intros lo z H Hz; cbn [B64.all_inside] in H.
  - apply andb_prop in H as [H H2]. apply andb_prop in H as [H H1].
    apply andb_prop in H as [Ha Hb].
    destruct (Z.eq_dec z lo) as [-> | Hne]; [now split |].
    destruct (Z_lt_le_dec z (lo + 1 + Zpos p)) as [Hlt | Hge].
    + apply (IH (lo + 1)%Z); [exact H1 | lia].
    + apply (IH (lo + 1 + Zpos p)%Z); [exact H2 | lia].
  - apply andb_prop in H as [H1 H2].
    destruct (Z_lt_le_dec z (lo + Zpos p)) as [Hlt | Hge].
    + apply (IH lo); [exact H1 | lia].
    + apply (IH (lo + Zpos p)%Z); [exact H2 | lia].
  - apply andb_prop in H as [Ha Hb].
    replace z with lo by lia. now split.
Qed.

Lemma all_inside_100000 : B64.all_inside 100000 1 = true.
Proof. vm_compute. reflexivity. Qed.

(** C2 as stated fails: the float returned for the odds [-10^19] is exactly
    1.0, and the one returned for [10^400] is exactly 0.0. *)
Lemma odds_to_probability_reaches_one :
  ~ (forall z, z <> 0%Z ->
       PrimFloat.ltb 0 (B64.odds_to_probability (B64.Int z)) = true /\
       PrimFloat.ltb (B64.odds_to_probability (B64.Int z)) 1 = true) /\
  B64.odds_to_probability (B64.Int (- 10 ^ 19)) = 1%float /\
  B64.odds_to_probability (B64.Float (-1e19)) = 1%float /\
  B64.odds_to_probability (B64.Int (10 ^ 400)) = 0%float.
Proof.
  split; [| repeat split; vm_compute; reflexivity].
  intros H. destruct (H (- 10 ^ 19)%Z) as [_ H1]; [discriminate |].
  vm_compute in H1. discriminate H1.
Qed.

(** C2, amended. The conversion returns [100 / (odds + 100)] for positive
    odds and [abs(odds) / (abs(odds) + 100)] otherwise, computed in binary64
    (one rounded division on an [int], rounded operations on a [float]); it
    returns the floats 0.4 for +150 and 0.6 for -150; the exact value of
    the quotient lies strictly between 0 and 1 for every nonzero odds; and
    the float returned lies strictly between 0 and 1 for every nonzero
    integer odds of magnitude up to 100000. *)
Theorem odds_to_probability_binary64 :
  (forall z, (0 < z)%Z ->
     B64.odds_to_probability (B64.Int z) = B64.true_divide 100 (z + 100)) /\
  (forall z, (z <= 0)%Z ->
     B64.odds_to_probability (B64.Int z) =
     B64.true_divide (Z.abs z) (Z.abs z + 100)) /\
  (forall f, PrimFloat.ltb 0 f = true ->
     B64.odds_to_probability (B64.Float f) = (100 / (f + 100))%float) /\
  (forall f, PrimFloat.ltb 0 f = false ->
     B64.odds_to_probability (B64.Float f) = (abs f / (abs f + 100))%float) /\
  B64.odds_to_probability (B64.Int 150) = 0.4%float /\
  B64.odds_to_probability (B64.Int (-150)) = 0.6%float /\
  B64.odds_to_probability (B64.Float 150) = 0.4%float /\
  B64.odds_to_probability (B64.Float (-150)) = 0.6%float /\
  (forall o : Q, ~ o == 0 ->
     (0 < o -> odds_to_probability o == 100 / (o + 100)) /\
     (o <= 0 -> odds_to_probability o == Qabs o / (Qabs o + 100)) /\
     0 < odds_to_probability o < 1) /\
  (forall z, z <> 0%Z -> (Z.abs z <= 100000)%Z ->
     PrimFloat.ltb 0 (B64.odds_to_probability (B64.Int z)) = true /\
     PrimFloat.ltb (B64.odds_to_probability (B64.Int z)) 1 = true).
Proof.
  split; [| split; [| split; [| split]]].
  - intros z Hz. cbn. now replace (0 <? z)%Z with true by lia.
  - intros z Hz. cbn. now replace (0 <? z)%Z with false by lia.
  - intros f Hf. cbn. now rewrite Hf.
  - intros f Hf. cbn. now rewrite Hf.
  - split; [vm_compute; reflexivity |].
    split; [vm_compute; reflexivity |].
    split; [vm_compute; reflexivity |].
    split; [vm_compute; reflexivity |].
    split.
    + intros o Ho. split; [| split].
      * intros Hpos. now rewrite odds_to_probability_pos.
      * intros Hle. now rewrite odds_to_probability_nonpos.
      * now apply odds_to_probability_range.
    + intros z Hz Habs.
      assert (Hin : B64.inside (Z.abs z) = true /\
                    B64.inside (- Z.abs z) = true).
      { apply (all_inside_sound 100000 1); [exact all_inside_100000 | lia]. }
      assert (Hz' : B64.inside z = true).
      { destruct Hin as [Hp Hn]. destruct (Z_lt_le_dec z 0).
        - now replace z with (- Z.abs z)%Z by lia.
        - now replace z with (Z.abs z) by lia. }
      unfold B64.inside in Hz'. now apply andb_prop in Hz'.
Qed.

(** ** Detection on binary64 *)

Lemma b64_detect_moneyline_rows (games_by_id : Dict.t B64.game) :
  B64.detect_moneyline_arbitrage games_by_id =
  flat_map
    (fun '(id, g) =>
       match B64.detect_two_way_arbitrage
               (B64._best_price_for_team g (B64.home_team g))
               (B64._best_price_for_team g (B64.away_team g)) with
       | None => []
       | Some arb =>
           [ {| B64.opp_game_id := id; B64.market_type := "h2h";
                B64.player_name := None; B64.line_value := None;
                B64.opp_home_team := Some (B64.home_team g);
                B64.opp_away_team := Some (B64.away_team g);
                B64.arb_of := arb |} ]
       end)
    games_by_id.
Proof.
  unfold B64.detect_moneyline_arbitrage.
  rewrite <- (app_nil_l (flat_map _ _)), <- fold_left_append.
  apply fold_left_ext. intros acc [id g]. cbn.
  destruct (B64.detect_two_way_arbitrage _ _);
    [reflexivity | now rewrite app_nil_r].
Qed.

Lemma b64_prop_step_acc game_id market_type acc item :
  B64.prop_step game_id market_type acc item =
  acc ++ B64.prop_step game_id market_type [] item.
Proof.
  unfold B64.prop_step. destruct (B64.detect_two_way_arbitrage _ _); cbn.
  - reflexivity.
  - now rewrite app_nil_r.
Qed.

Lemma b64_detect_prop_rows
    (normalized_props : Dict.t (Dict.t (Dict.t B64.player_line))) :
  B64.detect_prop_arbitrage normalized_props =
  flat_map
    (fun '(game_id, markets) =>
       flat_map
         (fun '(market_type, player_lines) =>
            flat_map (B64.prop_step game_id market_type []) player_lines)
         markets)
    normalized_props.
Proof.
  unfold B64.detect_prop_arbitrage.
  rewrite <- (app_nil_l (flat_map _ _)), <- fold_left_append.
  apply fold_left_ext. intros acc [game_id markets].
  rewrite <- fold_left_append.
  apply fold_left_ext. intros acc' [market_type player_lines].
  rewrite <- fold_left_append.
  apply fold_left_ext. intros acc'' item. apply b64_prop_step_acc.
Qed.

Lemma b64_offered_cons name x bks j bk p :
  B64.offered name (x :: bks) (S j) bk p <-> B64.offered name bks j bk p.
Proof.
  unfold B64.offered. cbn. tauto.
Qed.

(** What the loop holds after a prefix is nothing, or the price of a
    bookmaker of the prefix. *)
Lemma b64_best_fold_prefix name bks :
  fold_left (B64.best_step name) bks None = None \/
  exists j bk p,
    B64.offered name bks j bk p /\
    fold_left (B64.best_step name) bks None = Some (B64.side_of bk p).
Proof.
  induction bks as [| [bk0 prices0] bks IH] using rev_ind; [now left |].
  rewrite fold_left_app. cbn [fold_left B64.best_step].
  destruct (Dict.get name prices0) as [data |] eqn:Eget.
  - assert (Hoff : B64.offered name (bks ++ [(bk0, prices0)])
                     (List.length bks) bk0 data).
    { exists prices0. split; [| exact Eget].
      rewrite nth_error_app2 by lia. now rewrite Nat.sub_diag. }
    destruct IH as [-> | (j & bk & p & Hj & ->)].
    + right. now exists (List.length bks), bk0, data.
    + right.
      destruct (B64.gt (B64.price_odds data) (B64.odds (B64.side_of bk p))).
      * now exists (List.length bks), bk0, data.
      * exists j, bk, p. split; [| reflexivity].
        destruct Hj as (prices & Hn & Hg). exists prices. split; [| exact Hg].
        rewrite nth_error_app1; [exact Hn |].
        apply nth_error_Some. congruence.
  - destruct IH as [-> | (j & bk & p & Hj & ->)]; [now left |].
    right. exists j, bk, p. split; [| reflexivity].
    destruct Hj as (prices & Hn & Hg). exists prices. split; [| exact Hg].
    rewrite nth_error_app1; [exact Hn |].
    apply nth_error_Some. congruence.
Qed.

(** A price that no later bookmaker beats stays the best one. *)
Lemma b64_best_fold_suffix name bks : forall s,
  (forall j bk p, B64.offered name bks j bk p ->
     B64.gt (B64.price_odds p) (B64.odds s) = false) ->
  fold_left (B64.best_step name) bks (Some s) = Some s.
Proof.
  induction bks as [| [bk0 prices0] bks IH]; intros s Hs; [reflexivity |].
  cbn [fold_left B64.best_step].
  destruct (Dict.get name prices0) as [data |] eqn:Eget.
  - rewrite (Hs 0%nat bk0 data) by (exists prices0; now split).
    apply IH. intros j bk p Hj. apply (Hs (S j) bk p).
    now apply b64_offered_cons.
  - apply IH. intros j bk p Hj. apply (Hs (S j) bk p).
    now apply b64_offered_cons.
Qed.

Lemma b64_offered_app_l name l1 l2 j bk p :
  B64.offered name l1 j bk p -> B64.offered name (l1 ++ l2) j bk p.
Proof.
  intros (prices & Hn & Hg). exists prices. split; [| exact Hg].
  rewrite nth_error_app1; [exact Hn |]. apply nth_error_Some. congruence.
Qed.

Lemma b64_offered_app_r name l1 l2 j bk p :
  B64.offered name l2 j bk p ->
  B64.offered name (l1 ++ l2) (List.length l1 + j) bk p.
Proof.
  intros (prices & Hn & Hg). exists prices. split; [| exact Hg].
  rewrite nth_error_app2 by lia.
  now replace (List.length l1 + j - List.length l1)%nat with j by lia.
Qed.

(** The bookmaker that holds the best price is the one the loop selects. *)
Lemma b64_holds_best_selected name bks i bk p :
  B64.holds_best name bks i bk p ->
  fold_left (B64.best_step name) bks None = Some (B64.side_of bk p).
Proof.
  intros [(prices & Hn & Hg) Hbest].
  destruct (nth_error_split bks i Hn) as (l1 & l2 & -> & Hlen).
  rewrite fold_left_app. cbn [fold_left]. unfold B64.best_step at 2.
  rewrite Hg.
  assert (Hhere :
    match fold_left (B64.best_step name) l1 None with
    | None => true
    | Some b => B64.gt (B64.price_odds p) (B64.odds b)
    end = true).
  { destruct (b64_best_fold_prefix name l1) as [-> | (j & bk' & p' & Hj & ->)];
      [reflexivity |].
    cbn [B64.side_of B64.odds].
    apply (proj1 (Hbest j bk' p' (b64_offered_app_l _ _ _ _ _ _ Hj))).
    destruct Hj as (prices' & Hn' & _).
    assert (j < List.length l1)%nat by (apply nth_error_Some; congruence).
    lia. }
  cbv zeta. rewrite Hhere.
  apply b64_best_fold_suffix. intros j bk' p' Hj.
  cbn [B64.side_of B64.odds].
  apply (proj2 (Hbest (List.length l1 + S j)%nat bk' p'
                  (b64_offered_app_r name l1 ((bk, prices) :: l2) (S j) bk' p'
                     (proj2 (b64_offered_cons _ _ _ _ _ _) Hj)))).
  lia.
Qed.

(** C9. When one bookmaker holds the best price on both sides of a game,
    or on both sides of a player line, and the float sum of the two implied
    probabilities is below 1, the detector emits the opportunity, with that
    bookmaker on both legs; what the bookmaker holds is read off the books,
    the best price being the one whose odds are greater than those of every
    bookmaker before it and not exceeded by those of a bookmaker after
    it. *)
Theorem same_book_opportunity_binary64 :
  (forall (games_by_id : Dict.t B64.game) (id : string) (g : B64.game)
          (i : nat) (bk : string) (h a : B64.price),
     In (id, g) games_by_id ->
     B64.holds_best (B64.home_team g) (B64.books g) i bk h ->
     B64.holds_best (B64.away_team g) (B64.books g) i bk a ->
     PrimFloat.ltb (B64.price_implied_prob h + B64.price_implied_prob a) 1
       = true ->
     In {| B64.opp_game_id := id; B64.market_type := "h2h";
           B64.player_name := None; B64.line_value := None;
           B64.opp_home_team := Some (B64.home_team g);
           B64.opp_away_team := Some (B64.away_team g);
           B64.arb_of :=
             {| B64.profit_percent :=
                  B64.round3
                    ((1 - (B64.price_implied_prob h
                           + B64.price_implied_prob a)) * 100)%float;
                B64.over_book := bk; B64.under_book := bk;
                B64.over_odds := B64.price_odds h;
                B64.under_odds := B64.price_odds a |} |}
        (B64.detect_moneyline_arbitrage games_by_id)) /\
  (forall (normalized_props : Dict.t (Dict.t (Dict.t B64.player_line)))
          (id : string) (markets : Dict.t (Dict.t B64.player_line))
          (mt : string) (player_lines : Dict.t B64.player_line)
          (key : string) (pl : B64.player_line)
          (i : nat) (bk : string) (o u : B64.price),
     In (id, markets) normalized_props ->
     In (mt, player_lines) markets ->
     In (key, pl) player_lines ->
     B64.holds_best "Over" (B64.pl_books pl) i bk o ->
     B64.holds_best "Under" (B64.pl_books pl) i bk u ->
     PrimFloat.ltb (B64.price_implied_prob o + B64.price_implied_prob u) 1
       = true ->
     In {| B64.opp_game_id := id; B64.market_type := mt;
           B64.player_name := Some (B64.pl_player pl);
           B64.line_value := Some (B64.pl_line pl);
           B64.opp_home_team := None; B64.opp_away_team := None;
           B64.arb_of :=
             {| B64.profit_percent :=
                  B64.round3
                    ((1 - (B64.price_implied_prob o
                           + B64.price_implied_prob u)) * 100)%float;
                B64.over_book := bk; B64.under_book := bk;
                B64.over_odds := B64.price_odds o;
                B64.under_odds := B64.price_odds u |} |}
        (B64.detect_prop_arbitrage normalized_props)).
Proof.
  split.
  - intros games_by_id id g i bk h a Hin Hh Ha Hsum.
    rewrite b64_detect_moneyline_rows. apply in_flat_map.
    exists (id, g). split; [exact Hin |]. cbv beta iota.
    unfold B64._best_price_for_team.
    rewrite (b64_holds_best_selected _ _ _ _ _ Hh),
            (b64_holds_best_selected _ _ _ _ _ Ha).
    cbn. rewrite (ltb_not_leb _ _ Hsum). now left.
  - intros normalized_props id markets mt player_lines key pl i bk o u
      Hin1 Hin2 Hin3 Ho Hu Hsum.
    rewrite b64_detect_prop_rows. apply in_flat_map.
    exists (id, markets). split; [exact Hin1 |]. apply in_flat_map.
    exists (mt, player_lines). split; [exact Hin2 |]. apply in_flat_map.
    exists (key, pl). split; [exact Hin3 |].
    unfold B64.prop_step, B64._best_prop_side. cbn [snd].
    rewrite (b64_holds_best_selected _ _ _ _ _ Ho),
            (b64_holds_best_selected _ _ _ _ _ Hu).
    cbn. rewrite (ltb_not_leb _ _ Hsum). now left.
Qed.

(** In the books where A quotes +110 on both sides and B +100 and -120,
    book A holds the best price of a side at position 0. *)
Lemma books_A_best_holds (name : string) (bks : Dict.t (Dict.t B64.price))
    (pa pb : B64.price) (pricesA pricesB : Dict.t B64.price) :
  bks = [ ("A"%string, pricesA); ("B"%string, pricesB) ] ->
  Dict.get name pricesA = Some pa ->
  Dict.get name pricesB = Some pb ->
  B64.gt (B64.price_odds pb) (B64.price_odds pa) = false ->
  B64.holds_best name bks 0 "A" pa.
Proof.
  intros -> HA HB Hgt. split.
  - exists pricesA. now split.
  - intros j bk' p' (prices & Hn & Hg). split; [lia |]. intros Hj.
    destruct j as [| [| j]]; [lia | | destruct j; discriminate Hn].
    cbn in Hn. injection Hn as <- <-. congruence.
Qed.

Lemma same_book_opportunity_binary64_witness :
  (exists opp,
     In opp (B64.detect_moneyline_arbitrage [("g1"%string, B64.game_A_best)]) /\
     B64.over_book (B64.arb_of opp) = "A"%string /\
     B64.under_book (B64.arb_of opp) = "A"%string /\
     B64.profit_percent (B64.arb_of opp) = 4.762%float) /\
  (exists opp,
     In opp (B64.detect_prop_arbitrage B64.props_A_best) /\
     B64.over_book (B64.arb_of opp) = "A"%string /\
     B64.under_book (B64.arb_of opp) = "A"%string /\
     B64.player_name opp = Some "P"%string /\
     B64.profit_percent (B64.arb_of opp) = 4.762%float).
Proof.
  split.
  - eexists. split.
    + apply (proj1 same_book_opportunity_binary64
               [("g1"%string, B64.game_A_best)] "g1"%string B64.game_A_best
               0%nat "A"%string (B64.price_of (B64.Int 110))
               (B64.price_of (B64.Int 110))).
      * left. reflexivity.
      * now apply (books_A_best_holds "H" _ _ (B64.price_of (B64.Int 100))
                     _ _ eq_refl).
      * now apply (books_A_best_holds "W" _ _ (B64.price_of (B64.Int (-120)))
                     _ _ eq_refl).
      * vm_compute. reflexivity.
    + cbn [B64.arb_of B64.over_book B64.under_book B64.profit_percent].
      split; [reflexivity |]. split; [reflexivity |].
      vm_compute. reflexivity.
  - eexists. split.
    + apply (proj2 same_book_opportunity_binary64
               B64.props_A_best "g1"%string
               [ ("player_points"%string,
                  [ ("P|24.5"%string, B64.line_A_best) ]) ]
               "player_points"%string
               [ ("P|24.5"%string, B64.line_A_best) ]
               "P|24.5"%string B64.line_A_best
               0%nat "A"%string (B64.price_of (B64.Int 110))
               (B64.price_of (B64.Int 110))).
      * left. reflexivity.
      * left. reflexivity.
      * left. reflexivity.
      * now apply (books_A_best_holds "Over" _ _ (B64.price_of (B64.Int 100))
                     _ _ eq_refl).
      * now apply (books_A_best_holds "Under" _ _
                     (B64.price_of (B64.Int (-120))) _ _ eq_refl).
      * vm_compute. reflexivity.
    + cbn [B64.arb_of B64.over_book B64.under_book B64.profit_percent
           B64.player_name B64.pl_player B64.line_A_best].
      split; [reflexivity |]. split; [reflexivity |].
      split; [reflexivity |]. vm_compute. reflexivity.
Defined.

(** * Part III: further properties of the code *)

(** ** Implied probability, continued *)

Lemma odds_to_probability_complement_aux (a : Q) :
  ~ a == 0 -> odds_to_probability a + odds_to_probability (- a) == 1.
Proof.
  intros Ha. destruct (Qlt_le_dec 0 a) as [Hpos | Hneg].
  - rewrite (odds_to_probability_pos a) by exact Hpos.
    rewrite (odds_to_probability_neg (- a)) by lra.
    field. lra.
  - assert (Hlt : a < 0).
    { destruct (Qle_lt_or_eq _ _ Hneg) as [H | H]; [exact H | contradiction]. }
    rewrite (odds_to_probability_neg a) by exact Hneg.
    rewrite (odds_to_probability_pos (- a)) by lra.
    field. lra.
Qed.

(** X1. Opposite odds split the probability: for nonzero odds [a], the
    implied probabilities of [a] and of [- a] sum to 1. *)
Theorem odds_to_probability_complement (a : Q) :
  ~ a == 0 -> odds_to_probability a + odds_to_probability (- a) == 1.
Proof.
  exact (odds_to_probability_complement_aux a).
Qed.

Lemma odds_to_probability_complement_witness :
  odds_to_probability 150 + odds_to_probability (- (150)) == 1.
Proof.
  apply (odds_to_probability_complement 150). discriminate.
Defined.

(** ** Rounding and the profit *)

Lemma Qltb_comp (x x' y y' : Q) : x == x' -> y == y' -> Qltb x y = Qltb x' y'.
Proof.
  intros Ex Ey. unfold Qltb. now rewrite Ex, Ey.
Qed.

Lemma round_half_even_comp (x y : Q) :
  x == y -> round_half_even x = round_half_even y.
Proof.
  intros E. unfold round_half_even. rewrite (Qfloor_comp _ _ E).
  rewrite (Qltb_comp (x - inject_Z (Qfloor y)) (y - inject_Z (Qfloor y))
             (1 # 2) (1 # 2)) by (rewrite ?E; reflexivity).
  rewrite (Qltb_comp (1 # 2) (1 # 2)
             (x - inject_Z (Qfloor y)) (y - inject_Z (Qfloor y)))
    by (rewrite ?E; reflexivity).
  reflexivity.
Qed.

Lemma round3_comp (x y : Q) : x == y -> round3 x = round3 y.
Proof.
  intros E. unfold round3. rewrite (round_half_even_comp (x * 1000) (y * 1000)).
  - reflexivity.
  - now rewrite E.
Qed.

(** X4. Exchanging the two sides exchanges the legs and keeps the profit:
    an opportunity is found for [(a, b)] exactly when one is found for
    [(b, a)], with the same [profit_percent] and the over and under legs
    swapped. *)
Theorem detect_two_way_arbitrage_swap (side_a side_b : option side) :
  (detect_two_way_arbitrage side_a side_b = None <->
   detect_two_way_arbitrage side_b side_a = None) /\
  (forall r, detect_two_way_arbitrage side_a side_b = Some r ->
     detect_two_way_arbitrage side_b side_a =
     Some {| profit_percent := profit_percent r;
             over_book := under_book r; under_book := over_book r;
             over_odds := under_odds r; under_odds := over_odds r |}).
Proof.
  destruct side_a as [a |], side_b as [b |]; cbn;
    try (split; [tauto | discriminate]).
  assert (E : Qle_bool 1 (implied_prob b + implied_prob a) =
              Qle_bool 1 (implied_prob a + implied_prob b))
    by (now rewrite Qplus_comm).
  rewrite E. destruct (Qle_bool 1 (implied_prob a + implied_prob b)).
  - split; [tauto | discriminate].
  - split; [split; discriminate |]. intros r [= <-]. cbn.
    do 2 f_equal. apply round3_comp. now rewrite Qplus_comm.
Qed.

(** ** The retry loop, continued *)

Section RetryBounds.
Context `{R : Runtime} {A : Type}.
Implicit Types (w : world A) (path : string) (markets : list string).

(** What [time.sleep] is called with is never [<= 0]. *)
Lemma wait_value_not_le_zero (h : option string) (attempt : Z) :
  (0 <= attempt)%Z -> le_zero (wait_value h attempt) = false.
Proof.
  intros Ha. unfold wait_value.
  destruct (le_zero (retry_after_value h)) eqn:E; [| exact E].
  cbn. destruct (Qle_bool (inject_Z (2 ^ attempt)) 0) eqn:E'; [| reflexivity].
  apply Qle_bool_iff in E'. change 0 with (inject_Z 0) in E'.
  rewrite <- Zle_Qle in E'.
  pose proof (Z.pow_pos_nonneg 2 attempt). lia.
Qed.

(** A wait that [time.sleep] accepts is positive. *)
Lemma wait_seconds_pos (h : option string) (attempt : Z) (q : Q) :
  (0 <= attempt)%Z ->
  sleep_seconds (wait_value h attempt) = inr q -> 0 < q.
Proof.
  intros Ha Hq. pose proof (wait_value_not_le_zero h attempt Ha) as Hle.
  unfold sleep_seconds in Hq.
  destruct (wait_value h attempt) as [v | neg |]; try discriminate.
  destruct (Qltb SLEEP_MAX (Qabs v)); [discriminate |].
  destruct (Qltb v 0); [discriminate |].
  injection Hq as <-. cbn in Hle.
  apply Qnot_le_lt. intros H. apply Qle_bool_iff in H. congruence.
Qed.

(** X5. Whatever the [Retry-After] header, what [time.sleep] is called with
    before a retry is never zero, a negative number or the negative
    infinity: it is a positive number, the positive infinity or a NaN, and
    when [time.sleep] accepts it the seconds slept are positive. *)
Theorem wait_seconds_positive (h : option string) (attempt : Z) :
  (0 <= attempt)%Z ->
  le_zero (wait_value h attempt) = false /\
  (wait_value h attempt = NaN \/
   wait_value h attempt = Infinity false \/
   exists v, wait_value h attempt = Finite v /\ 0 < v) /\
  (forall q, sleep_seconds (wait_value h attempt) = inr q ->
     0 < q /\ q = wait_seconds h attempt).
Proof.
  intros Ha. pose proof (wait_value_not_le_zero h attempt Ha) as Hle.
  split; [exact Hle |]. split.
  - destruct (wait_value h attempt) as [v | [|] |]; cbn in Hle;
      try discriminate; auto.
    right. right. exists v. split; [reflexivity |].
    apply Qnot_le_lt. intros H. apply Qle_bool_iff in H. congruence.
  - intros q Hq. split; [exact (wait_seconds_pos h attempt q Ha Hq) |].
    exact (sleep_seconds_wait h attempt q Hq).
Qed.

Lemma retry_loop_bound fuel : forall path markets max_retries attempt w,
  (0 <= attempt)%Z ->
  (Z.to_nat (max_retries - attempt) < fuel)%nat ->
  exists n ws,
    snd (retry_loop fuel path markets max_retries attempt w) =
      after w (request_of path markets) (S n) ws (skipn (S n) (pending w)) /\
    List.length ws = n /\
    (n <= Z.to_nat (max_retries - attempt))%nat /\
    Forall (fun q => 0 < q) ws.
Proof.
  induction fuel as [| fuel IH];
    intros path markets max_retries attempt w Ha Hf; [lia |].
  rewrite retry_loop_last.
  destruct (pending w) as [| [status hdr json |] rest] eqn:Hp;
    try (exists 0%nat, []; repeat split; [lia | constructor]).
  destruct (error_status status);
    [| exists 0%nat, []; repeat split; [lia | constructor]].
  destruct (negb (status =? 429)%Z || (attempt >=? max_retries)%Z) eqn:E;
    [exists 0%nat, []; repeat split; [lia | constructor] |].
  destruct (sleep_seconds (wait_value hdr attempt)) as [e | q] eqn:Hq;
    [exists 0%nat, []; repeat split; [lia | constructor] |].
  destruct (IH path markets max_retries (attempt + 1)%Z
              (after w (request_of path markets) 1 [q] rest))
    as (n & ws & Hw & Hlen & Hn & Hpos); [lia | lia |].
  exists (S n), (q :: ws).
  rewrite Hw, after_after. cbn [pending after app Nat.add skipn List.length].
  repeat split; [lia | lia |].
  constructor; [exact (wait_seconds_pos hdr attempt q Ha Hq) | exact Hpos].
Qed.

(** X6. Whatever the upstream answers, a call under the retry policy issues
    at least one and at most [max_retries + 1] requests, all of them the same
    request; it sleeps once between two consecutive requests and not after
    the last one; it consumes one reply per request; and it prints
    nothing. *)
Theorem retry_requests_bounded path markets (max_retries : Z) w :
  exists n ws,
    snd (_request_with_429_retry path markets max_retries w) =
      mkWorld (skipn (S n) (pending w))
        (requests w ++ repeat (request_of path markets) (S n))
        (slept w ++ ws) (printed w) /\
    List.length ws = n /\
    (Z.of_nat n <= Z.max 0 max_retries)%Z /\
    Forall (fun q => 0 < q) ws.
Proof.
  destruct (retry_loop_bound (S (Z.to_nat max_retries)) path markets
              max_retries 0 w) as (n & ws & Hw & Hlen & Hn & Hpos);
    [lia | rewrite Z.sub_0_r; lia |].
  exists n, ws. split; [exact Hw |]. split; [exact Hlen |].
  split; [lia | exact Hpos].
Qed.

(** X7. With [max_retries] at 0 or below the retry policy adds nothing: the
    call is the plain request, and a 429 is raised at once. *)
Theorem no_retries_is_plain_request path markets (max_retries : Z) w :
  (max_retries <= 0)%Z ->
  _request_with_429_retry path markets max_retries w = _request path markets w.
Proof.
  intros Hle. unfold _request_with_429_retry.
  replace (Z.to_nat max_retries) with 0%nat by lia.
  rewrite retry_loop_last, _request_run.
  destruct (pending w) as [| [status hdr json |] rest]; try reflexivity.
  destruct (error_status status); [| reflexivity].
  replace (0 >=? max_retries)%Z with true by lia.
  now rewrite orb_true_r.
Qed.

Lemma backoff_no_header_sum (k : nat) : forall attempt : Z,
  (0 <= attempt)%Z ->
  fold_right Qplus 0 (backoff (repeat None k) attempt) ==
  inject_Z (2 ^ attempt * (2 ^ Z.of_nat k - 1)).
Proof.
  induction k as [| k IH]; intros attempt Ha.
  - cbn. now rewrite Z.mul_0_r.
  - cbn [repeat backoff fold_right]. rewrite IH by lia.
    unfold wait_seconds at 1.
    rewrite (wait_value_backoff None attempt) by now left.
    rewrite <- inject_Z_plus. apply inject_Z_injective.
    rewrite Nat2Z.inj_succ, Z.pow_succ_r by lia.
    rewrite Z.pow_add_r by lia. lia.
Qed.

(** X8. Without [Retry-After] headers the waits double from one second
    on, so [k] retries wait [2^k - 1] seconds in all. *)
Theorem backoff_total_without_header (k : nat) :
  fold_right Qplus 0 (backoff (repeat None k) 0) ==
  inject_Z (2 ^ Z.of_nat k - 1).
Proof.
  rewrite backoff_no_header_sum by lia.
  now rewrite Z.pow_0_r, Z.mul_1_l.
Qed.

End RetryBounds.

Lemma wait_seconds_positive_witness :
  le_zero (wait_value (H := example_runtime) (Some "nan"%string) 3) = false /\
  wait_value (H := example_runtime) (Some "nan"%string) 3 = NaN /\
  wait_value (H := example_runtime) (Some "0"%string) 3 = Finite 8.
Proof.
  split; [| split; reflexivity].
  apply (wait_seconds_positive (R := example_runtime)). lia.
Defined.

Lemma no_retries_is_plain_request_witness :
  _request_with_429_retry (H := example_runtime) "/p" ["m"] 0 (busy_once tt) =
  (Raise (HTTPError 429 (Some "2"%string)),
   mkWorld [Response 200 None tt]
     [request_of (H := example_runtime) "/p" ["m"]] [] []).
Proof.
  rewrite (no_retries_is_plain_request (R := example_runtime)) by lia.
  reflexivity.
Defined.

(** ** The prop fetch, continued *)

Section PropFetch.
Context `{R : Runtime}.

(** The exceptions of a sleep are those of [time.sleep]. *)
Lemma sleep_seconds_error (x : pyfloat) (e : exn) :
  sleep_seconds x = inl e -> e = ValueError \/ e = OverflowError.
Proof.
  unfold sleep_seconds. destruct x as [v | neg |].
  - destruct (Qltb SLEEP_MAX (Qabs v)); [intros [= <-]; now right |].
    destruct (Qltb v 0); [intros [= <-]; now left | discriminate].
  - intros [= <-]. now right.
  - intros [= <-]. now left.
Qed.

(** What the retry loop can raise: the HTTP failure, the failure of the
    transport, and the two exceptions of [time.sleep]. *)
Lemma retry_loop_raises {A} fuel :
  forall path markets max_retries attempt (w : world A) e,
    fst (retry_loop fuel path markets max_retries attempt w) = Raise e ->
    (exists status hdr, e = HTTPError status hdr) \/ e = ConnectionError \/
    e = ValueError \/ e = OverflowError.
Proof.
  induction fuel as [| fuel IH]; intros path markets max_retries attempt w e;
    [discriminate |].
  rewrite retry_loop_last.
  destruct (pending w) as [| [status hdr json |] rest];
    try (intros [= <-]; now auto).
  destruct (error_status status); [| discriminate].
  destruct (negb (status =? 429)%Z || (attempt >=? max_retries)%Z);
    [intros [= <-]; left; now exists status, hdr |].
  destruct (sleep_seconds (wait_value hdr attempt)) as [e' | q] eqn:Hq;
    [| apply IH].
  intros [= <-]. right. right. exact (sleep_seconds_error _ _ Hq).
Qed.

Lemma fetch_event_props_outcomes_aux (sport_key event_id : string)
    (markets : list string) (w : world raw_event) :
  exists n ws lines,
    snd (fetch_event_props sport_key event_id markets w) =
      mkWorld (skipn n (pending w))
        (requests w ++
         repeat (request_of (props_path sport_key event_id) markets) n)
        (slept w ++ ws) (printed w ++ lines) /\
    (n <= 4)%nat /\ (List.length ws <= 3)%nat /\
    ((exists json,
        fst (fetch_event_props sport_key event_id markets w) =
          Return (json, 0%Z) /\ lines = []) \/
     (exists status,
        fst (fetch_event_props sport_key event_id markets w) =
          Return (mkRawEvent None, 1%Z) /\
        lines = [skip_line event_id status]) \/
     (exists e,
        fst (fetch_event_props sport_key event_id markets w) = Raise e /\
        (e = ConnectionError \/ e = ValueError \/ e = OverflowError) /\
        lines = [])).
Proof.
  destruct markets as [| m ms].
  - exists 0%nat, [], []. cbn. rewrite !app_nil_r.
    split; [now destruct w |]. split; [lia |]. split; [lia |].
    left. now exists (mkRawEvent None).
  - rewrite fetch_event_props_run.
    pose proof (_request_with_429_retry_total
                  (props_path sport_key event_id) (m :: ms) 3 w) as Htot.
    pose proof (retry_loop_raises 4 (props_path sport_key event_id)
                  (m :: ms) 3 0 w) as Hexn.
    destruct (retry_loop_bound 4 (props_path sport_key event_id) (m :: ms)
                3 0 w) as (n & ws & Hw & Hlen & Hn & _); [lia | cbn; lia |].
    change (retry_loop 4 (props_path sport_key event_id) (m :: ms) 3 0 w)
      with (_request_with_429_retry (props_path sport_key event_id)
              (m :: ms) 3 w) in Hw, Hexn.
    cbn in Hn.
    destruct (_request_with_429_retry _ _ 3 w)
      as [[json | e |] w']; cbn [fst snd] in *; subst w'.
    + exists (S n), ws, []. rewrite app_nil_r. unfold after.
      split; [reflexivity |]. split; [lia |]. split; [lia |].
      left. now exists json.
    + destruct (Hexn e eq_refl) as [(status & hdr & ->) | He].
      * exists (S n), ws, [skip_line event_id status]. unfold after.
        split; [reflexivity |]. split; [lia |]. split; [lia |].
        right. left. now exists status.
      * exists (S n), ws, []. rewrite app_nil_r. unfold after.
        destruct He as [-> | [-> | ->]]; cbn [fst snd];
          (split; [reflexivity |]; split; [lia |]; split; [lia |];
           right; right; eexists; repeat split; auto).
    + now elim Htot.
Qed.

(** X9. Whatever the upstream answers, the prop fetch of an event ends in
    one of three ways: the body with zero errors; the empty payload with one
    error and one printed line; or an exception it lets through, which is
    the failure of the transport or one of the two exceptions of
    [time.sleep] on a [Retry-After] wait it refuses. It issues at most four
    requests and sleeps at most three times. *)
Theorem fetch_event_props_outcomes (sport_key event_id : string)
    (markets : list string) (w : world raw_event) :
  exists n ws lines,
    snd (fetch_event_props sport_key event_id markets w) =
      mkWorld (skipn n (pending w))
        (requests w ++
         repeat (request_of (props_path sport_key event_id) markets) n)
        (slept w ++ ws) (printed w ++ lines) /\
    (n <= 4)%nat /\ (List.length ws <= 3)%nat /\
    ((exists json,
        fst (fetch_event_props sport_key event_id markets w) =
          Return (json, 0%Z) /\ lines = []) \/
     (exists status,
        fst (fetch_event_props sport_key event_id markets w) =
          Return (mkRawEvent None, 1%Z) /\
        lines = [skip_line event_id status]) \/
     (exists e,
        fst (fetch_event_props sport_key event_id markets w) = Raise e /\
        (e = ConnectionError \/ e = ValueError \/ e = OverflowError) /\
        lines = [])).
Proof.
  exact (fetch_event_props_outcomes_aux sport_key event_id markets w).
Qed.

End PropFetch.

(** ** Sport keys and prop markets *)

Lemma resolve_sport_key_cases (sport_key : string) :
  resolve_sport_key sport_key = sport_key \/
  In (resolve_sport_key sport_key) (map snd SPORT_KEY_ALIASES).
Proof.
  unfold resolve_sport_key, SPORT_KEY_ALIASES. cbn [Dict.get map snd].
  repeat (match goal with
          | |- context [String.eqb sport_key ?s] =>
              destruct (String.eqb sport_key s)
          end; [right; cbn; tauto |]).
  now left.
Qed.

Lemma resolve_sport_key_idempotent_aux (sport_key : string) :
  resolve_sport_key (resolve_sport_key sport_key) = resolve_sport_key sport_key.
Proof.
  destruct (resolve_sport_key_cases sport_key) as [E | Hin].
  - rewrite E. exact E.
  - cbn in Hin.
    repeat (destruct Hin as [<- | Hin]; [reflexivity |]). contradiction.
Qed.

(** X10. Resolving a sport key twice is resolving it once: no canonical
    key is itself an alias. *)
Theorem resolve_sport_key_idempotent (sport_key : string) :
  resolve_sport_key (resolve_sport_key sport_key) = resolve_sport_key sport_key.
Proof.
  exact (resolve_sport_key_idempotent_aux sport_key).
Qed.

(** Settles a statement about the prop markets of a literal key. *)
Ltac concrete_key :=
  vm_compute (get_prop_markets _);
  split;
  [ intros H; first [ now elim H | intuition reflexivity ]
  | intros H; first [ discriminate
                    | destruct H as [E | [E | [E | E]]]; discriminate E ] ].

(** X11. The prop markets of a sport do not depend on whether the alias or
    the canonical key is given, and they are configured (not empty) for
    exactly four keys: [nfl], [nba] and the canonical keys of the two. *)
Theorem get_prop_markets_configured (sport_key : string) :
  get_prop_markets (resolve_sport_key sport_key) = get_prop_markets sport_key /\
  (get_prop_markets sport_key <> [] <->
   sport_key = "nfl"%string \/ sport_key = "americanfootball_nfl"%string \/
   sport_key = "nba"%string \/ sport_key = "basketball_nba"%string).
Proof.
  split.
  - unfold get_prop_markets. now rewrite resolve_sport_key_idempotent_aux.
  - assert (Hknown : forall c : string,
              {sport_key = c} + {String.eqb sport_key c = false}).
    { intros c. destruct (String.eqb_spec sport_key c); [now left | now right]. }
    destruct (Hknown "nhl"%string) as [-> | E1]; [concrete_key |].
    destruct (Hknown "nfl"%string) as [-> | E2]; [concrete_key |].
    destruct (Hknown "soccer"%string) as [-> | E3]; [concrete_key |].
    destruct (Hknown "nba"%string) as [-> | E4]; [concrete_key |].
    destruct (Hknown "mlb"%string) as [-> | E5]; [concrete_key |].
    destruct (Hknown "ufc"%string) as [-> | E6]; [concrete_key |].
    destruct (Hknown "americanfootball_nfl"%string) as [-> | E7];
      [concrete_key |].
    destruct (Hknown "basketball_nba"%string) as [-> | E8]; [concrete_key |].
    unfold get_prop_markets, resolve_sport_key, SPORT_KEY_ALIASES,
      PROP_MARKETS_BY_SPORT.
    cbn [Dict.get]. rewrite E1, E2, E3, E4, E5, E6. rewrite E7, E8.
    apply String.eqb_neq in E2, E4, E7, E8.
    split; [intros H; now elim H | intros [-> | [-> | [-> | ->]]]; contradiction].
Qed.

(** ** Dictionaries *)

Lemma set_not_nil {V} (k : string) (v : V) (d : Dict.t V) : Dict.set k v d <> [].
Proof.
  destruct d as [| [k0 v0] d]; cbn; [discriminate |].
  destruct (String.eqb k k0); discriminate.
Qed.

(** An assignment keeps what holds of every key and value, when it holds of
    the assigned ones. *)
Lemma set_Forall_kv {V} (P : string -> V -> Prop) (k : string) (v : V)
    (d : Dict.t V) :
  P k v -> Forall (fun kv => P (fst kv) (snd kv)) d ->
  Forall (fun kv => P (fst kv) (snd kv)) (Dict.set k v d).
Proof.
  intros Hv. induction 1 as [| [k0 v0] d H0 Hd IH]; cbn.
  - now repeat constructor.
  - destruct (String.eqb_spec k k0) as [<- | _]; constructor; assumption.
Qed.

Lemma get_Forall_kv {V} (P : string -> V -> Prop) (k : string) (v : V)
    (d : Dict.t V) :
  Forall (fun kv => P (fst kv) (snd kv)) d -> Dict.get k d = Some v -> P k v.
Proof.
  induction 1 as [| [k0 v0] d H0 Hd IH]; cbn; [discriminate |].
  destruct (String.eqb_spec k k0) as [-> | _]; [| exact IH].
  now intros [= <-].
Qed.

Lemma update_Forall_kv {V} (P : string -> V -> Prop) (k : string) (dflt : V)
    (f : V -> V) (d : Dict.t V) :
  (forall v, P k v -> P k (f v)) -> P k (f dflt) ->
  Forall (fun kv => P (fst kv) (snd kv)) d ->
  Forall (fun kv => P (fst kv) (snd kv)) (Dict.update k dflt f d).
Proof.
  intros Hf Hd Hall. unfold Dict.update.
  destruct (Dict.get k d) as [v |] eqn:E.
  - apply set_Forall_kv; [| exact Hall].
    apply Hf. exact (get_Forall_kv P k v d Hall E).
  - now apply set_Forall_kv.
Qed.

Lemma NoDup_keys_update {V} (k : string) (dflt : V) (f : V -> V)
    (d : Dict.t V) :
  NoDup (Dict.keys d) -> NoDup (Dict.keys (Dict.update k dflt f d)).
Proof.
  intros H. unfold Dict.update.
  destruct (Dict.get k d); now apply NoDup_keys_set.
Qed.

Lemma update_not_nil {V} (k : string) (dflt : V) (f : V -> V) (d : Dict.t V) :
  Dict.update k dflt f d <> [].
Proof.
  unfold Dict.update. destruct (Dict.get k d); apply set_not_nil.
Qed.

(** ** Invariants of the normalized games *)

Lemma usable_name_not_empty (name : option string) (n : string) :
  usable_name name = Some n -> n <> ""%string.
Proof.
  destruct name as [s |]; cbn; [| discriminate].
  unfold truthy. destruct (String.eqb_spec s ""); cbn; [discriminate |].
  now intros [= <-].
Qed.

Lemma add_outcome_NoDup (os : list raw_outcome) : forall teams,
  NoDup (Dict.keys teams) ->
  NoDup (Dict.keys (fold_left add_outcome os teams)).
Proof.
  induction os as [| o os IH]; intros teams Hnd; cbn; [exact Hnd |].
  apply IH. unfold add_outcome.
  destruct (o_name o); [| exact Hnd]. destruct (o_price o); [| exact Hnd].
  now apply NoDup_keys_set.
Qed.

Lemma add_bookmaker_well_formed books b :
  well_formed_books books -> well_formed_books (add_bookmaker books b).
Proof.
  intros [Hnd Hall]. unfold add_bookmaker.
  destruct (usable_name (book_name_of b)) as [name |] eqn:En; [| now split].
  destruct (find is_h2h _) as [m |]; [| now split].
  destruct (fold_left add_outcome (get_default (m_outcomes m)) []) as [| kv teams]
    eqn:Et; [now split |].
  split; [now apply NoDup_keys_set |].
  apply (set_Forall_kv (fun k v => k <> ""%string /\ well_formed_prices v));
    [| exact Hall].
  split; [exact (usable_name_not_empty _ _ En) |].
  rewrite <- Et. split; [rewrite Et; discriminate |]. split.
  - apply add_outcome_NoDup. constructor.
  - apply add_outcome_converted. constructor.
Qed.

Lemma fold_add_bookmaker_well_formed bs : forall books,
  well_formed_books books ->
  well_formed_books (fold_left add_bookmaker bs books).
Proof.
  induction bs as [| b bs IH]; intros books H; cbn; [exact H |].
  now apply IH, add_bookmaker_well_formed.
Qed.

Lemma normalize_game_well_formed g gd :
  normalize_game g = inr gd ->
  g_id g = Some (game_id gd) /\ g_home_team g = Some (home_team gd) /\
  g_away_team g = Some (away_team gd) /\ well_formed_books (books gd).
Proof.
  unfold normalize_game.
  destruct (g_id g); [| discriminate].
  destruct (g_home_team g); [| discriminate].
  destruct (g_away_team g); [| discriminate].
  intros [= <-]. cbn. repeat split; try reflexivity.
  - apply (fold_add_bookmaker_well_formed _ []). split; constructor.
  - apply (fold_add_bookmaker_well_formed _ []). split; constructor.
Qed.

Lemma fold_add_game_well_formed gs : forall normalized normalized',
  Forall (fun kv => game_id (snd kv) = fst kv /\ well_formed_books (books (snd kv)))
    normalized ->
  fold_left add_game gs (inr normalized) = inr normalized' ->
  Forall (fun kv => game_id (snd kv) = fst kv /\ well_formed_books (books (snd kv)))
    normalized'.
Proof.
  induction gs as [| g gs IH]; intros normalized normalized' Hall; cbn.
  - now intros [= <-].
  - destruct (normalize_game g) as [e | gd] eqn:Eg.
    + now rewrite fold_add_game_raised.
    + apply IH.
      apply (set_Forall_kv
               (fun k v => game_id v = k /\ well_formed_books (books v)));
        [| exact Hall].
      split; [reflexivity |]. now apply (normalize_game_well_formed g).
Qed.

(** X12. Every game the moneyline normalization returns is stored under
    its own id; its books have distinct, non-empty names; every book has at
    least one price and one price per team; and every price stores the
    conversion of its odds. *)
Theorem normalized_games_well_formed (raw_games : list raw_game)
    (normalized : Dict.t game) :
  normalize_moneyline_odds raw_games = inr normalized ->
  forall id gd, In (id, gd) normalized ->
    game_id gd = id /\
    NoDup (Dict.keys (books gd)) /\
    forall bk prices, In (bk, prices) (books gd) ->
      bk <> ""%string /\ prices <> [] /\ NoDup (Dict.keys prices) /\
      forall team p, In (team, p) prices ->
        price_implied_prob p == odds_to_probability (price_odds p).
Proof.
  intros E id gd Hin.
  pose proof (fold_add_game_well_formed raw_games [] normalized
                (Forall_nil _) E) as Hall.
  rewrite Forall_forall in Hall. destruct (Hall _ Hin) as [Hid [Hnd Hbooks]].
  cbn in Hid. split; [exact Hid |]. split; [exact Hnd |].
  intros bk prices Hbk. rewrite Forall_forall in Hbooks.
  destruct (Hbooks _ Hbk) as [Hne (Hnil & Hndp & Hconv)]. cbn in *.
  split; [exact Hne |]. split; [exact Hnil |]. split; [exact Hndp |].
  intros team p Hp. rewrite Forall_forall in Hconv.
  pose proof (Hconv _ Hp) as Hc. unfold converted in Hc. cbn [snd] in Hc.
  exact Hc.
Qed.

Lemma normalized_games_well_formed_witness :
  exists gd,
    In ("g1"%string, gd) sample_normalized /\
    game_id gd = "g1"%string /\ NoDup (Dict.keys (books gd)).
Proof.
  eexists. split; [left; reflexivity |].
  destruct (normalized_games_well_formed sample_games sample_normalized
              eq_refl "g1"%string _ (or_introl eq_refl)) as (Hid & Hnd & _).
  split; [exact Hid | exact Hnd].
Defined.

(** ** Games that share an id, and markets that are not used *)

Lemma fold_add_game_keeps gs : forall normalized normalized' id gd,
  Dict.get id normalized = Some gd ->
  (forall g, In g gs -> g_id g <> Some id) ->
  fold_left add_game gs (inr normalized) = inr normalized' ->
  Dict.get id normalized' = Some gd.
Proof.
  induction gs as [| g gs IH]; intros normalized normalized' id gd Hget Hno; cbn.
  - now intros [= <-].
  - destruct (normalize_game g) as [e | gd'] eqn:Eg.
    + now rewrite fold_add_game_raised.
    + apply IH; [| intros g' Hg'; apply Hno; now right].
      rewrite get_set_other; [exact Hget |].
      intros ->. apply (Hno g); [now left |].
      now destruct (normalize_game_well_formed g gd' Eg) as [-> _].
Qed.

(** X13. When several raw games carry the same id, the last one is the one
    stored: looking up the id of a game that no later game shares gives the
    normalization of that game. *)
Theorem last_game_of_an_id_is_stored (gs1 gs2 : list raw_game) (g : raw_game)
    (gd : game) (normalized : Dict.t game) :
  normalize_moneyline_odds (gs1 ++ g :: gs2) = inr normalized ->
  normalize_game g = inr gd ->
  (forall g', In g' gs2 -> g_id g' <> Some (game_id gd)) ->
  Dict.get (game_id gd) normalized = Some gd.
Proof.
  unfold normalize_moneyline_odds. rewrite fold_left_app. cbn [fold_left].
  intros E Eg Hno.
  destruct (fold_left add_game gs1 (inr [])) as [e | n1].
  - cbn in E. now rewrite fold_add_game_raised in E.
  - cbn in E. rewrite Eg in E.
    apply (fold_add_game_keeps gs2 _ _ _ _ (get_set_same _ _ _) Hno E).
Qed.

Lemma last_game_of_an_id_is_stored_witness :
  exists normalized gd,
    normalize_moneyline_odds (sample_games ++ [renamed_game]) = inr normalized /\
    Dict.get "g1" normalized = Some gd /\ home_team gd = "Z"%string.
Proof.
  eexists.
  exists {| game_id := "g1"; home_team := "Z"; away_team := "W";
            commence_time := None; books := [] |}.
  split; [reflexivity |]. split; [| reflexivity].
  apply (last_game_of_an_id_is_stored sample_games [] renamed_game
           {| game_id := "g1"; home_team := "Z"; away_team := "W";
              commence_time := None; books := [] |}).
  - reflexivity.
  - reflexivity.
  - intros g' [].
Defined.

Lemma add_bookmaker_first_h2h books title key ms m :
  find is_h2h ms = Some m ->
  add_bookmaker books (mkBookmaker title key (Some ms)) =
  add_bookmaker books (mkBookmaker title key (Some [m])).
Proof.
  intros E. unfold add_bookmaker. cbn. rewrite E.
  destruct (find_some _ _ E) as [_ Hm]. now rewrite Hm.
Qed.

(** X14. Of a bookmaker's markets only the first [h2h] market is read:
    the normalized games are those of the same input in which that bookmaker
    has this one market only. *)
Theorem only_first_h2h_market_is_read
    (gs1 gs2 : list raw_game) (id home away ct : option string)
    (bs1 bs2 : list raw_bookmaker) (title key : option string)
    (ms : list raw_market) (m : raw_market) :
  find is_h2h ms = Some m ->
  normalize_moneyline_odds
    (gs1 ++
     mkRawGame id home away ct
       (Some (bs1 ++ mkBookmaker title key (Some ms) :: bs2)) :: gs2) =
  normalize_moneyline_odds
    (gs1 ++
     mkRawGame id home away ct
       (Some (bs1 ++ mkBookmaker title key (Some [m]) :: bs2)) :: gs2).
Proof.
  intros E. apply normalize_moneyline_odds_same, normalize_game_books.
  apply fold_left_same. intros books.
  now apply add_bookmaker_first_h2h.
Qed.

Lemma only_first_h2h_market_is_read_witness :
  normalize_moneyline_odds
    [ mkRawGame (Some "g1"%string) (Some "H"%string) (Some "W"%string) None
        (Some [ mkBookmaker (Some "A"%string) None
                  (Some [ totals_market; h2h_market; second_h2h_market ]) ]) ] =
  normalize_moneyline_odds
    [ mkRawGame (Some "g1"%string) (Some "H"%string) (Some "W"%string) None
        (Some [ mkBookmaker (Some "A"%string) None (Some [ h2h_market ]) ]) ].
Proof.
  apply (only_first_h2h_market_is_read [] [] _ _ _ _ [] []).
  reflexivity.
Defined.

(** ** Invariants of the normalized props *)

Section PropInvariants.
Context `{R : Runtime}.

Lemma over_under_side (name : option string) (s : string) :
  is_over_under name = Some s -> s = "Over"%string \/ s = "Under"%string.
Proof.
  destruct name as [n |]; cbn; [| discriminate].
  destruct (String.eqb_spec n "Over") as [-> | _]; cbn.
  - intros [= <-]. now left.
  - destruct (String.eqb_spec n "Under") as [-> | _]; [| discriminate].
    intros [= <-]. now right.
Qed.

Lemma add_price_books_ok bks book_name side o :
  book_name <> ""%string ->
  side = "Over"%string \/ side = "Under"%string ->
  books_ok bks ->
  books_ok
    (Dict.update book_name []
       (Dict.set side
          {| price_odds := o; price_implied_prob := odds_to_probability o |})
       bks).
Proof.
  intros Hname Hside [[Hnd Hall] Hou].
  split; [split |].
  - now apply NoDup_keys_update.
  - apply (update_Forall_kv
             (fun k v => k <> ""%string /\ well_formed_prices v));
      [| | exact Hall].
    + intros v [_ (Hnil & Hndv & Hconv)]. split; [exact Hname |].
      split; [apply set_not_nil |]. split; [now apply NoDup_keys_set |].
      apply set_Forall; [| exact Hconv]. unfold converted. cbn. reflexivity.
    + split; [exact Hname |]. cbn. split; [discriminate |].
      split; [repeat constructor; intros [] |].
      repeat constructor.
  - apply (update_Forall_kv (fun _ v => over_under_only v)); [| | exact Hou].
    + intros v Hv.
      apply (set_Forall_kv
               (fun k _ => k = "Over"%string \/ k = "Under"%string));
        assumption.
    + cbn. constructor; [exact Hside | constructor].
Qed.

Lemma add_prop_outcome_well_formed book_name bucket o :
  book_name <> ""%string ->
  well_formed_bucket bucket ->
  well_formed_bucket (add_prop_outcome book_name bucket o).
Proof.
  intros Hname [Hnd Hall]. unfold add_prop_outcome.
  destruct (is_over_under (o_name o)) as [side |] eqn:Es; [| now split].
  destruct (o_description o) as [player |]; [| now split].
  destruct (o_point o) as [line |]; [| now split].
  destruct (o_price o) as [odds |]; [| now split].
  pose proof (over_under_side _ _ Es) as Hside.
  split; [now apply NoDup_keys_update |].
  apply (update_Forall_kv (fun k e => well_formed_entry k e));
    [| | exact Hall].
  - intros e (Hkey & _ & Hwf & Hou). cbn.
    destruct (add_price_books_ok (pl_books e) book_name side odds Hname Hside
                (conj Hwf Hou)) as [Hwf' Hou'].
    split; [exact Hkey |]. split; [apply update_not_nil |]. now split.
  - cbn.
    destruct (add_price_books_ok [] book_name side odds Hname Hside)
      as [Hwf' Hou'].
    { split; [split |]; constructor. }
    split; [reflexivity |]. split; [discriminate |]. now split.
Qed.

Lemma fold_add_prop_outcome_well_formed book_name os : forall bucket,
  book_name <> ""%string ->
  well_formed_bucket bucket ->
  well_formed_bucket (fold_left (add_prop_outcome book_name) os bucket).
Proof.
  induction os as [| o os IH]; intros bucket Hname H; cbn; [exact H |].
  apply IH; [exact Hname |]. now apply add_prop_outcome_well_formed.
Qed.

Lemma add_prop_market_well_formed book_name by_market m :
  book_name <> ""%string ->
  well_formed_markets by_market ->
  well_formed_markets (add_prop_market book_name by_market m).
Proof.
  intros Hname [Hnd Hall]. unfold add_prop_market.
  destruct (usable_name (m_key m)) as [mt |] eqn:Em; [| now split].
  pose proof (usable_name_not_empty _ _ Em) as Hmt.
  split; [now apply NoDup_keys_update |].
  apply (update_Forall_kv
           (fun k b => k <> ""%string /\ well_formed_bucket b));
    [| | exact Hall].
  - intros b [_ Hb]. split; [exact Hmt |].
    now apply fold_add_prop_outcome_well_formed.
  - split; [exact Hmt |].
    apply fold_add_prop_outcome_well_formed; [exact Hname |].
    split; constructor.
Qed.

Lemma add_prop_bookmaker_well_formed by_market b :
  well_formed_markets by_market ->
  well_formed_markets (add_prop_bookmaker by_market b).
Proof.
  intros H. unfold add_prop_bookmaker.
  destruct (usable_name (book_name_of b)) as [name |] eqn:En; [| exact H].
  pose proof (usable_name_not_empty _ _ En) as Hname.
  revert by_market H.
  induction (get_default (b_markets b)) as [| m ms IH]; intros by_market H;
    cbn; [exact H |].
  apply IH. now apply add_prop_market_well_formed.
Qed.

Lemma fold_add_prop_bookmaker_well_formed bs : forall by_market,
  well_formed_markets by_market ->
  well_formed_markets (fold_left add_prop_bookmaker bs by_market).
Proof.
  induction bs as [| b bs IH]; intros by_market H; cbn; [exact H |].
  now apply IH, add_prop_bookmaker_well_formed.
Qed.

(** X15. The normalized props of an event hold one entry, under the game
    id given; its market types are distinct and not empty; and every
    player-line entry is stored under the key made of its player and line,
    has at least one book, books with distinct non-empty names, and in every
    book at least one price, no side other than [Over] and [Under], and
    prices that store the conversion of their odds. *)
Theorem normalized_props_well_formed (game_id : string)
    (raw_event_odds : raw_event) :
  exists by_market,
    normalize_prop_odds game_id raw_event_odds = [(game_id, by_market)] /\
    NoDup (Dict.keys by_market) /\
    forall mt bucket, In (mt, bucket) by_market ->
      mt <> ""%string /\ NoDup (Dict.keys bucket) /\
      forall key e, In (key, e) bucket ->
        key = (pl_player e ++ "|" ++ py_str (pl_line e))%string /\
        pl_books e <> [] /\ NoDup (Dict.keys (pl_books e)) /\
        forall bk sides, In (bk, sides) (pl_books e) ->
          bk <> ""%string /\ sides <> [] /\ NoDup (Dict.keys sides) /\
          forall side p, In (side, p) sides ->
            (side = "Over"%string \/ side = "Under"%string) /\
            price_implied_prob p == odds_to_probability (price_odds p).
Proof.
  eexists. split; [reflexivity |].
  assert (Hwf : well_formed_markets
                  (fold_left add_prop_bookmaker
                     (get_default (e_bookmakers raw_event_odds)) [])).
  { apply fold_add_prop_bookmaker_well_formed. split; constructor. }
  destruct Hwf as [Hnd Hall]. split; [exact Hnd |].
  intros mt bucket Hin. rewrite Forall_forall in Hall.
  destruct (Hall _ Hin) as [Hmt [Hndb Hb]]. cbn in Hmt, Hndb, Hb.
  split; [exact Hmt |]. split; [exact Hndb |].
  intros key e He. rewrite Forall_forall in Hb.
  destruct (Hb _ He) as (Hkey & Hnil & [Hndk Hbooks] & Hou). cbn in *.
  split; [exact Hkey |]. split; [exact Hnil |]. split; [exact Hndk |].
  intros bk sides Hbk. rewrite Forall_forall in Hbooks, Hou.
  destruct (Hbooks _ Hbk) as [Hname (Hsn & Hsnd & Hconv)]. cbn in *.
  split; [exact Hname |]. split; [exact Hsn |]. split; [exact Hsnd |].
  intros side p Hp. pose proof (Hou _ Hbk) as Hside. cbn in Hside.
  unfold over_under_only in Hside. rewrite Forall_forall in Hside, Hconv.
  split; [exact (Hside _ Hp) | exact (Hconv _ Hp)].
Qed.

(** X16. A bookmaker of an event without a usable name, and a market
    without a usable key, contribute nothing to the normalized props, which
    are those of the same event without them. *)
Theorem normalize_prop_odds_skips (game_id : string) :
  (forall bs1 bad bs2,
     usable_name (book_name_of bad) = None ->
     normalize_prop_odds game_id (mkRawEvent (Some (bs1 ++ bad :: bs2))) =
     normalize_prop_odds game_id (mkRawEvent (Some (bs1 ++ bs2)))) /\
  (forall bs1 bs2 title key ms1 bad ms2,
     usable_name (m_key bad) = None ->
     normalize_prop_odds game_id
       (mkRawEvent
          (Some (bs1 ++ mkBookmaker title key (Some (ms1 ++ bad :: ms2)) :: bs2))) =
     normalize_prop_odds game_id
       (mkRawEvent
          (Some (bs1 ++ mkBookmaker title key (Some (ms1 ++ ms2)) :: bs2)))).
Proof.
  split.
  - intros bs1 bad bs2 Hbad. unfold normalize_prop_odds. cbn. do 2 f_equal.
    apply fold_left_skip. intros by_market.
    unfold add_prop_bookmaker. now rewrite Hbad.
  - intros bs1 bs2 title key ms1 bad ms2 Hbad.
    unfold normalize_prop_odds. cbn. do 2 f_equal.
    apply fold_left_same. intros by_market. unfold add_prop_bookmaker. cbn.
    destruct (usable_name (book_name_of _)) as [name |]; [| reflexivity].
    apply fold_left_skip. intros by_market'.
    unfold add_prop_market. now rewrite Hbad.
Qed.

End PropInvariants.

(** ** What the detector emits *)

Lemma two_way_some (x y : option side) (r : arb) :
  detect_two_way_arbitrage x y = Some r ->
  exists a b, x = Some a /\ y = Some b /\
    implied_prob a + implied_prob b < 1 /\
    r = {| profit_percent :=
             round3 ((1 - (implied_prob a + implied_prob b)) * 100);
           over_book := book a; under_book := book b;
           over_odds := odds a; under_odds := odds b |}.
Proof.
  destruct x as [a |], y as [b |]; cbn; try discriminate.
  destruct (Qle_bool 1 (implied_prob a + implied_prob b)) eqn:E;
    [discriminate |].
  intros [= <-]. exists a, b. repeat split.
  apply Qnot_le_lt. intros H. apply Qle_bool_iff in H. congruence.
Qed.

Lemma best_is_offered name bks s :
  fold_left (best_step name) bks None = Some s ->
  exists i p, offered name bks i (book s) p /\
              price_odds p = odds s /\ price_implied_prob p = implied_prob s.
Proof.
  intros E. pose proof (best_fold_selected name bks) as H. rewrite E in H.
  destruct H as (i & p & Hoff & Ho & Hp & _). exists i, p. now repeat split.
Qed.

Lemma flat_map_length_le {X Y} (f : X -> list Y) (l : list X) :
  (forall x, (List.length (f x) <= 1)%nat) ->
  (List.length (flat_map f l) <= List.length l)%nat.
Proof.
  intros H. induction l as [| x l IH]; cbn; [lia |].
  rewrite length_app. specialize (H x). lia.
Qed.

(** X17. Every row of the moneyline detection comes from a game of the
    input: it carries the game's id and teams and the market type [h2h]; its
    over leg is a price some bookmaker of the game offers for the home team
    and its under leg one offered for the away team; the implied
    probabilities of the two sum to less than 1; and there is at most one row
    per game. *)
Theorem moneyline_rows_sound (games_by_id : Dict.t game) :
  (List.length (detect_moneyline_arbitrage games_by_id)
   <= List.length games_by_id)%nat /\
  forall opp, In opp (detect_moneyline_arbitrage games_by_id) ->
    exists id g i p j q,
      In (id, g) games_by_id /\
      opp_game_id opp = id /\ market_type opp = "h2h"%string /\
      player_name opp = None /\ line_value opp = None /\
      opp_home_team opp = Some (home_team g) /\
      opp_away_team opp = Some (away_team g) /\
      offered (home_team g) (books g) i (over_book (arb_of opp)) p /\
      price_odds p = over_odds (arb_of opp) /\
      offered (away_team g) (books g) j (under_book (arb_of opp)) q /\
      price_odds q = under_odds (arb_of opp) /\
      price_implied_prob p + price_implied_prob q < 1.
Proof.
  rewrite detect_moneyline_arbitrage_rows. split.
  - apply flat_map_length_le. intros [id g]. cbn.
    destruct (detect_two_way_arbitrage _ _); cbn; lia.
  - intros opp Hin. apply in_flat_map in Hin as ([id g] & Hg & Hopp).
    cbn in Hopp.
    destruct (detect_two_way_arbitrage _ _) as [r |] eqn:E; [| contradiction].
    destruct Hopp as [<- | []].
    destruct (two_way_some _ _ _ E) as (a & b & Ea & Eb & Hsum & ->).
    destruct (best_is_offered _ _ _ Ea) as (i & p & Hp & Hpo & Hpp).
    destruct (best_is_offered _ _ _ Eb) as (j & q & Hq & Hqo & Hqp).
    exists id, g, i, p, j, q. cbn. rewrite Hpp, Hqp. now repeat split.
Qed.

(** X18. Every row of the prop detection comes from a player line of the
    input: it carries the game id and market type under which the line is
    stored and the line's player and value, and no team names; its over leg
    is a price some bookmaker of the line offers for [Over] and its under leg
    one offered for [Under]; and the implied probabilities of the two sum to
    less than 1. *)
Theorem prop_rows_sound
    (normalized_props : Dict.t (Dict.t (Dict.t player_line))) :
  forall opp, In opp (detect_prop_arbitrage normalized_props) ->
    exists id markets mt bucket key pl i p j q,
      In (id, markets) normalized_props /\ In (mt, bucket) markets /\
      In (key, pl) bucket /\
      opp_game_id opp = id /\ market_type opp = mt /\
      player_name opp = Some (pl_player pl) /\
      line_value opp = Some (pl_line pl) /\
      opp_home_team opp = None /\ opp_away_team opp = None /\
      offered "Over" (pl_books pl) i (over_book (arb_of opp)) p /\
      price_odds p = over_odds (arb_of opp) /\
      offered "Under" (pl_books pl) j (under_book (arb_of opp)) q /\
      price_odds q = under_odds (arb_of opp) /\
      price_implied_prob p + price_implied_prob q < 1.
Proof.
  rewrite detect_prop_arbitrage_rows. intros opp Hin.
  apply in_flat_map in Hin as ([id markets] & Hm & Hin).
  apply in_flat_map in Hin as ([mt bucket] & Hb & Hin).
  apply in_flat_map in Hin as ([key pl] & Hpl & Hopp).
  unfold prop_step in Hopp. cbn [snd] in Hopp.
  destruct (detect_two_way_arbitrage _ _) as [r |] eqn:E; [| contradiction].
  destruct Hopp as [<- | []].
  destruct (two_way_some _ _ _ E) as (a & b & Ea & Eb & Hsum & ->).
  destruct (best_is_offered _ _ _ Ea) as (i & p & Hp & Hpo & Hpp).
  destruct (best_is_offered _ _ _ Eb) as (j & q & Hq & Hqo & Hqp).
  exists id, markets, mt, bucket, key, pl, i, p, j, q. cbn.
  rewrite Hpp, Hqp. now repeat split.
Qed.

(** X19. A bookmaker's own two-sided line at opposite odds is no arbitrage:
    when the two sides store the conversions of odds [a] and [- a], with [a]
    not zero, nothing is emitted. *)
Theorem opposite_odds_no_arbitrage (x y : side) :
  ~ odds x == 0 -> odds y == - odds x ->
  implied_prob x == odds_to_probability (odds x) ->
  implied_prob y == odds_to_probability (odds y) ->
  detect_two_way_arbitrage (Some x) (Some y) = None.
Proof.
  intros Hnz Hopp Hx Hy. cbn.
  assert (Hsum : implied_prob x + implied_prob y == 1).
  { rewrite Hx, Hy, (odds_to_probability_eq _ _ Hopp).
    now apply odds_to_probability_complement_aux. }
  assert (E : Qle_bool 1 (implied_prob x + implied_prob y) = true).
  { apply Qle_bool_iff. rewrite Hsum. apply Qle_refl. }
  now rewrite E.
Qed.

Lemma opposite_odds_no_arbitrage_witness :
  detect_two_way_arbitrage
    (Some {| book := "A"; odds := 150;
             implied_prob := odds_to_probability 150 |})
    (Some {| book := "A"; odds := -150;
             implied_prob := odds_to_probability (-150) |}) = None.
Proof.
  apply opposite_odds_no_arbitrage; cbn; [discriminate | reflexivity ..].
Defined.

Lemma prop_rows_sound_witness :
  exists opp,
    In opp (detect_prop_arbitrage
              (normalize_prop_odds (H := example_runtime) "g1" sample_event)) /\
    opp_game_id opp = "g1"%string /\
    market_type opp = "player_points"%string.
Proof.
  eexists. split; [left; reflexivity |].
  destruct (prop_rows_sound
              (normalize_prop_odds (H := example_runtime) "g1" sample_event)
              _ (or_introl eq_refl))
    as (id & markets & mt & bucket & key & pl & i & p & j & q & H).
  split; reflexivity.
Defined.

(** ** The bearer token *)

Lemma prefix_app (p s : string) :
  String.prefix p s = true -> exists t, s = (p ++ t)%string.
Proof.
  revert s. induction p as [| c p IH]; intros s.
  - intros _. now exists s.
  - destruct s as [| c' s]; cbn; [discriminate |].
    destruct (Ascii.ascii_dec c c') as [<- | _]; [| discriminate].
    intros H. destruct (IH s H) as [t ->]. now exists t.
Qed.

(** X20. The token is what follows ["Bearer "]: a header made of this
    prefix and any text, the empty one included, gives that text; nothing
    else gives a token; and the subscript after the split never fails. *)
Theorem extract_auth_token_spec (authorization : option string) :
  (forall token,
     extract_auth_token (Some ("Bearer " ++ token)%string) = Token token) /\
  (forall token, extract_auth_token authorization = Token token <->
                 authorization = Some ("Bearer " ++ token)%string) /\
  extract_auth_token authorization <> IndexError.
Proof.
  assert (Hfwd : forall token,
            extract_auth_token (Some ("Bearer " ++ token)%string) = Token token).
  { intros token. destruct token; reflexivity. }
  split; [exact Hfwd |].
  destruct authorization as [a |]; cbn.
  - unfold truthy.
    destruct (String.eqb_spec a "") as [-> | Hne]; cbn.
    + split; [| discriminate]. intros token. split; discriminate.
    + destruct (String.prefix "Bearer " a) eqn:Ep; cbn.
      * destruct (prefix_app _ _ Ep) as [t ->].
        change (after_first_space ("Bearer " ++ t)%string) with (Some t).
        split; [| discriminate]. intros token. split.
        -- now intros [= ->].
        -- intros E. rewrite <- (Hfwd t), E. apply Hfwd.
      * split; [| discriminate]. intros token.
        split; [discriminate |]. intros [= ->].
        destruct token; discriminate Ep.
  - split; [| discriminate]. intros token. split; discriminate.
Qed.

(** ** The moneyline pipeline *)

Lemma set_length_le {V} (k : string) (v : V) (d : Dict.t V) :
  (List.length (Dict.set k v d) <= S (List.length d))%nat.
Proof.
  induction d as [| [k0 v0] d IH]; cbn; [lia |].
  destruct (String.eqb k k0); cbn; lia.
Qed.

Lemma fold_add_game_length gs : forall normalized normalized',
  fold_left add_game gs (inr normalized) = inr normalized' ->
  (List.length normalized' <= List.length normalized + List.length gs)%nat.
Proof.
  induction gs as [| g gs IH]; intros normalized normalized'; cbn.
  - intros [= <-]. lia.
  - destruct (normalize_game g) as [e | gd].
    + now rewrite fold_add_game_raised.
    + intros E. apply IH in E.
      pose proof (set_length_le (game_id gd) gd normalized). lia.
Qed.

Lemma normalize_incomplete_raises (gs : list raw_game) :
  (exists g, In g gs /\ ~ complete_game g) ->
  exists k, normalize_moneyline_odds gs = inl (KeyError k).
Proof.
  intros (g & Hin & Hnot). unfold normalize_moneyline_odds.
  destruct (in_split _ _ Hin) as (gs1 & gs2 & ->).
  destruct (normalize_game_incomplete g Hnot) as (k & Ek).
  rewrite fold_left_app. cbn [fold_left].
  destruct (fold_left add_game gs1 (inr [])) as [e | n1] eqn:E1.
  - destruct (fold_add_game_error _ _ _ E1) as (k1 & ->).
    cbn. rewrite fold_add_game_raised. eauto.
  - cbn. rewrite Ek, fold_add_game_raised. eauto.
Qed.

Lemma moneyline_row_game_id (games_by_id : Dict.t game) (opp : opportunity) :
  In opp (detect_moneyline_arbitrage games_by_id) ->
  In (opp_game_id opp) (Dict.keys games_by_id).
Proof.
  rewrite detect_moneyline_arbitrage_rows. intros Hin.
  apply in_flat_map in Hin as ([id g] & Hg & Hopp). cbn in Hopp.
  destruct (detect_two_way_arbitrage _ _); [| contradiction].
  destruct Hopp as [<- | []]. cbn.
  apply in_map_iff. now exists (id, g).
Qed.

Lemma moneyline_rows_length (games_by_id : Dict.t game) :
  (List.length (detect_moneyline_arbitrage games_by_id)
   <= List.length games_by_id)%nat.
Proof.
  rewrite detect_moneyline_arbitrage_rows.
  apply flat_map_length_le. intros [id g]. cbn.
  destruct (detect_two_way_arbitrage _ _); cbn; lia.
Qed.

Section Pipelines.
Context `{R : Runtime}.

(** A normalization that returns had the three keys in every game. *)
Lemma normalize_returns_complete (gs : list raw_game) (n : Dict.t game) :
  normalize_moneyline_odds gs = inr n ->
  forall g, In g gs -> complete_game g.
Proof.
  intros En g Hin.
  assert (Hnn : ~ ~ complete_game g).
  { intros Hnot.
    destruct (normalize_incomplete_raises gs (ex_intro _ g (conj Hin Hnot)))
      as (k & Ek). congruence. }
  unfold complete_game in *.
  repeat split; intros E; apply Hnn; intros (H1 & H2 & H3); contradiction.
Qed.

(** X21. The moneyline pipeline makes one request and never waits. On an
    error status it raises the HTTP failure, and a body with a game that
    lacks [id], [home_team] or [away_team] does not make it return. Whenever
    it returns, the status is not an error, every game of the body has the
    three keys, and what it returns is the normalization of the body and the
    rows detected in it, at most one row per raw game, each with the id of a
    raw game of the body. *)
Theorem fetch_moneyline_opportunities_spec (sport_key : string)
    (w : world (list raw_game)) status hdr raw_games rest :
  pending w = Response status hdr raw_games :: rest ->
  let req :=
    request_of ("/sports/" ++ resolve_sport_key sport_key ++ "/odds")%string
      ["h2h"%string] in
  let w' := mkWorld rest (requests w ++ [req]) (slept w) (printed w) in
  let run := fetch_moneyline_opportunities sport_key w in
  snd run = w' /\
  (error_status status = true -> fst run = Raise (HTTPError status hdr)) /\
  ((exists g, In g raw_games /\ ~ complete_game g) ->
     forall result, fst run <> Return result) /\
  (forall opps normalized, fst run = Return (opps, normalized) ->
     error_status status = false /\
     (forall g, In g raw_games -> complete_game g) /\
     normalize_moneyline_odds raw_games = inr normalized /\
     opps = detect_moneyline_arbitrage normalized /\
     (List.length opps <= List.length raw_games)%nat /\
     forall opp, In opp opps ->
       exists g, In g raw_games /\ g_id g = Some (opp_game_id opp)).
Proof.
  intros Hp req w' run.
  assert (Hrun : fetch_upcoming_games sport_key w =
                 (if error_status status then Raise (HTTPError status hdr)
                  else Return raw_games, w')).
  { rewrite fetch_upcoming_games_request, _request_run, Hp.
    unfold after. cbn [repeat]. now rewrite app_nil_r. }
  assert (Hcases :
    run = (Raise (HTTPError status hdr), w') /\ error_status status = true \/
    (exists e, run = (Raise e, w') /\ error_status status = false /\
               normalize_moneyline_odds raw_games = inl e) \/
    (exists n, run = (Return (detect_moneyline_arbitrage n, n), w') /\
               error_status status = false /\
               normalize_moneyline_odds raw_games = inr n)).
  { unfold run, fetch_moneyline_opportunities, bind. rewrite Hrun.
    destruct (error_status status); [now left | right].
    cbv beta iota zeta.
    destruct (normalize_moneyline_odds raw_games) as [e | n];
      [left; now exists e | right; now exists n]. }
  split; [| split; [| split]].
  - destruct Hcases as [[-> _] | [(e & -> & _) | (n & -> & _)]]; reflexivity.
  - intros Es.
    destruct Hcases as [[-> _] | [(e & _ & Es' & _) | (n & _ & Es' & _)]];
      [reflexivity | congruence | congruence].
  - intros Hbad result.
    destruct (normalize_incomplete_raises _ Hbad) as (k & Ek).
    destruct Hcases as [[-> _] | [(e & -> & _) | (n & _ & _ & En)]];
      [discriminate | discriminate | congruence].
  - intros opps normalized E.
    destruct Hcases as [[Er _] | [(e & Er & _) | (n & Er & Es & En)]];
      rewrite Er in E; try discriminate E.
    injection E as <- <-.
    split; [exact Es |].
    split; [exact (normalize_returns_complete _ _ En) |].
    split; [exact En |]. split; [reflexivity |]. split.
    + pose proof (moneyline_rows_length n).
      pose proof (fold_add_game_length raw_games [] n En). cbn in *. lia.
    + intros opp Hin. apply moneyline_row_game_id in Hin.
      pose proof (normalize_returns_complete _ _ En) as Hall.
      apply Forall_forall in Hall.
      destruct (fold_add_game_complete raw_games [] Hall)
        as (n' & En' & _ & Hkeys).
      assert (n' = n)
        by (pose proof (En' : normalize_moneyline_odds raw_games = inr n');
            congruence).
      subst n'. apply Hkeys in Hin as [[] | Hg]. exact Hg.
Qed.

(** ** The prop pipeline *)

Lemma in_get_some {V} (k : string) (v : V) (d : Dict.t V) :
  In (k, v) d -> exists v', Dict.get k d = Some v'.
Proof.
  induction d as [| [k0 v0] d IH]; cbn; [contradiction |].
  intros [[= -> ->] | Hin].
  - rewrite String.eqb_refl. eauto.
  - destruct (String.eqb k k0); eauto.
Qed.

Lemma prop_row_game_id (game_id : string) (raw_props : raw_event)
    (opp : opportunity) :
  In opp (detect_prop_arbitrage (normalize_prop_odds game_id raw_props)) ->
  opp_game_id opp = game_id.
Proof.
  rewrite detect_prop_arbitrage_rows. unfold normalize_prop_odds.
  cbn [flat_map]. rewrite app_nil_r. intros Hin.
  apply in_flat_map in Hin as ([mt bucket] & _ & Hin).
  apply in_flat_map in Hin as ([key pl] & _ & Hopp).
  unfold prop_step in Hopp.
  destruct (detect_two_way_arbitrage _ _); [| contradiction].
  now destruct Hopp as [<- | []].
Qed.

Lemma empty_payload_no_rows (game_id : string) :
  detect_prop_arbitrage (normalize_prop_odds game_id (mkRawEvent None)) = [].
Proof. reflexivity. Qed.

End Pipelines.

Lemma fetch_moneyline_opportunities_spec_witness :
  exists opp,
    fetch_moneyline_opportunities (H := example_runtime) "nba" games_world =
    (Return ([opp], sample_normalized),
     mkWorld []
       [request_of (H := example_runtime) "/sports/basketball_nba/odds"
          ["h2h"%string]] [] []) /\
    opp_game_id opp = "g1"%string /\
    exists g, In g sample_games /\ g_id g = Some (opp_game_id opp).
Proof.
  destruct (fetch_moneyline_opportunities_spec (R := example_runtime) "nba"
              games_world 200%Z None sample_games [] eq_refl)
    as (_ & _ & _ & Hok).
  eexists. split; [reflexivity |]. split; [reflexivity |].
  destruct (Hok _ _ eq_refl) as (_ & _ & _ & _ & _ & Hids).
  apply Hids. left. reflexivity.
Defined.

Section PropPipeline.
Context `{R : Runtime}.

Lemma extends_refl {A} (w : world A) : extends w w 0 0 0.
Proof.
  exists [], [], []. cbn. rewrite !app_nil_r. now destruct w.
Qed.

Lemma extends_trans {A} (w w1 w2 : world A) a b c a' b' c' :
  extends w w1 a b c -> extends w1 w2 a' b' c' ->
  extends w w2 (a + a') (b + b') (c + c').
Proof.
  intros (r1 & s1 & l1 & -> & <- & <- & <-) (r2 & s2 & l2 & -> & <- & <- & <-).
  exists (r1 ++ r2), (s1 ++ s2), (l1 ++ l2). cbn.
  rewrite skipn_skipn, !app_assoc, !length_app.
  repeat split. f_equal. f_equal. lia.
Qed.

Lemma fetch_event_props_extends sport_key event_id markets
    (w : world raw_event) :
  exists nr ns nl,
    extends w (snd (fetch_event_props sport_key event_id markets w)) nr ns nl /\
    (nr <= 4)%nat /\ (ns <= 3)%nat /\
    ((exists json,
        fst (fetch_event_props sport_key event_id markets w) =
          Return (json, 0%Z) /\ nl = 0%nat) \/
     (fst (fetch_event_props sport_key event_id markets w) =
        Return (mkRawEvent None, 1%Z) /\ nl = 1%nat) \/
     (exists e,
        fst (fetch_event_props sport_key event_id markets w) = Raise e /\
        let_through e /\ nl = 0%nat)).
Proof.
  destruct (fetch_event_props_outcomes_aux sport_key event_id markets w)
    as (n & ws & lines & Hw & Hn & Hws & Hcases).
  exists n, (List.length ws), (List.length lines).
  split; [| split; [exact Hn | split; [exact Hws |]]].
  - exists (repeat (request_of (props_path sport_key event_id) markets) n),
      ws, lines.
    split; [exact Hw |]. now rewrite repeat_length.
  - destruct Hcases as [(json & E & ->) | [(status & E & ->) | (e & E & He & ->)]].
    + left. now exists json.
    + right. left. now split.
    + right. right. now exists e.
Qed.

Lemma prop_game_step_outcomes sport_key markets games opps errs item
    (w : world raw_event) :
  (exists g, Dict.get (fst item) games = Some g) ->
  exists nr ns nl,
    extends w (snd (prop_game_step sport_key markets games (opps, errs) item w))
      nr ns nl /\
    (nr <= 4)%nat /\ (ns <= 3)%nat /\ (nl <= 1)%nat /\
    ((exists e,
        fst (prop_game_step sport_key markets games (opps, errs) item w) =
          Raise e /\ let_through e) \/
     exists opps',
       fst (prop_game_step sport_key markets games (opps, errs) item w) =
         Return (opps ++ opps', (errs + Z.of_nat nl)%Z) /\
       forall opp, In opp opps' -> teams_attached games opp).
Proof.
  intros [g Hg].
  destruct (fetch_event_props_extends sport_key (fst item) markets w)
    as (nr & ns & nl & Hext & Hnr & Hns & Hcases).
  exists nr, ns, nl. unfold prop_game_step, bind.
  destruct (fetch_event_props sport_key (fst item) markets w) as [r w1].
  cbn [fst snd] in *.
  destruct Hcases as [(json & -> & ->) | [[-> ->] | (e & -> & He & ->)]].
  - destruct (is_empty_payload json).
    + cbn. split; [exact Hext |]. repeat split; try lia.
      right. exists []. rewrite app_nil_r, Z.add_0_r. cbn.
      split; [reflexivity | contradiction].
    + rewrite Hg. cbn. split; [exact Hext |]. repeat split; try lia.
      right. eexists. rewrite Z.add_0_r. split; [reflexivity |].
      intros opp Hin. apply in_map_iff in Hin as (o & <- & Ho).
      apply prop_row_game_id in Ho. exists g. cbn. rewrite Ho.
      now repeat split.
  - cbn. split; [exact Hext |]. repeat split; try lia.
    right. exists []. rewrite app_nil_r. cbn.
    split; [reflexivity | contradiction].
  - cbn. split; [exact Hext |]. repeat split; try lia. left. now exists e.
Qed.

Lemma for_each_prop_games sport_key markets games items :
  forall opps errs (w : world raw_event),
    (forall item, In item items ->
       exists g, Dict.get (fst item) games = Some g) ->
    exists nr ns nl,
      extends w
        (snd (for_each (prop_game_step sport_key markets games) items
                (opps, errs) w)) nr ns nl /\
      (nr <= 4 * List.length items)%nat /\
      (ns <= 3 * List.length items)%nat /\
      (nl <= List.length items)%nat /\
      ((exists e,
          fst (for_each (prop_game_step sport_key markets games) items
                 (opps, errs) w) = Raise e /\ let_through e) \/
       exists opps',
         fst (for_each (prop_game_step sport_key markets games) items
                (opps, errs) w) =
           Return (opps ++ opps', (errs + Z.of_nat nl)%Z) /\
         forall opp, In opp opps' -> teams_attached games opp).
Proof.
  induction items as [| item items IH]; intros opps errs w Hitems.
  - exists 0%nat, 0%nat, 0%nat. cbn.
    split; [apply extends_refl |]. repeat split; try lia.
    right. exists []. rewrite app_nil_r, Z.add_0_r.
    split; [reflexivity | contradiction].
  - destruct (prop_game_step_outcomes sport_key markets games opps errs item w)
      as (nr & ns & nl & Hext & Hnr & Hns & Hnl & Hcases);
      [apply Hitems; now left |].
    cbn [for_each]. unfold bind.
    destruct (prop_game_step sport_key markets games (opps, errs) item w)
      as [r w1]. cbn [fst snd] in *.
    destruct Hcases as [(e & -> & He) | (opps1 & -> & Hteams1)].
    + exists nr, ns, nl. cbn [fst snd List.length].
      split; [exact Hext |]. repeat split; try lia. left. now exists e.
    + destruct (IH (opps ++ opps1) (errs + Z.of_nat nl)%Z w1)
        as (nr' & ns' & nl' & Hext' & Hnr' & Hns' & Hnl' & Hcases');
        [intros x Hx; apply Hitems; now right |].
      exists (nr + nr')%nat, (ns + ns')%nat, (nl + nl')%nat.
      cbn [List.length].
      split; [exact (extends_trans _ _ _ _ _ _ _ _ _ Hext Hext') |].
      repeat split; try lia.
      destruct Hcases' as [E | (opps2 & E & Hteams2)]; [now left |].
      right. exists (opps1 ++ opps2). rewrite E. split.
      * rewrite app_assoc. do 2 f_equal. lia.
      * intros opp Hin. apply in_app_or in Hin as [Hin | Hin]; auto.
Qed.

Lemma fetch_prop_opportunities_outcomes sport_key games
    (w : world raw_event) :
  exists nr ns nl,
    extends w (snd (fetch_prop_opportunities sport_key games w)) nr ns nl /\
    (nr <= 4 * List.length games)%nat /\
    (ns <= 3 * List.length games)%nat /\
    (nl <= List.length games)%nat /\
    ((exists e,
        fst (fetch_prop_opportunities sport_key games w) = Raise e /\
        let_through e) \/
     exists opps,
       fst (fetch_prop_opportunities sport_key games w) =
         Return (opps, Z.of_nat nl) /\
       forall opp, In opp opps -> teams_attached games opp).
Proof.
  unfold fetch_prop_opportunities.
  destruct (get_prop_markets sport_key) as [| m ms].
  - exists 0%nat, 0%nat, 0%nat. cbn.
    split; [apply extends_refl |]. repeat split; try lia.
    right. exists []. split; [reflexivity | contradiction].
  - destruct (for_each_prop_games sport_key (m :: ms) games games [] 0%Z w)
      as (nr & ns & nl & H); [| exists nr, ns, nl; exact H].
    intros [k g] Hin. exact (in_get_some k g games Hin).
Qed.

(** X22. For a sport without configured prop markets, and for an empty set
    of games, the prop pipeline returns no opportunity and zero errors and
    leaves the world as it is: no request is made. *)
Theorem fetch_prop_opportunities_nothing_to_do (sport_key : string)
    (games : Dict.t game) (w : world raw_event) :
  get_prop_markets sport_key = [] \/ games = [] ->
  fetch_prop_opportunities sport_key games w = (Return ([], 0%Z), w).
Proof.
  unfold fetch_prop_opportunities. intros [-> | ->]; [reflexivity |].
  now destruct (get_prop_markets sport_key).
Qed.


(** X24. Every opportunity the prop pipeline returns carries the home and
    away team of the normalized game of its id. *)
Theorem fetch_prop_opportunities_teams (sport_key : string)
    (games : Dict.t game) (w : world raw_event) opps errs :
  fst (fetch_prop_opportunities sport_key games w) = Return (opps, errs) ->
  forall opp, In opp opps ->
    exists g,
      Dict.get (opp_game_id opp) games = Some g /\
      opp_home_team opp = Some (home_team g) /\
      opp_away_team opp = Some (away_team g).
Proof.
  intros E.
  destruct (fetch_prop_opportunities_outcomes sport_key games w)
    as (nr & ns & nl & _ & _ & _ & _ & [(e & E' & _) | (opps' & E' & Hteams)]).
  - congruence.
  - rewrite E in E'. injection E' as -> _. exact Hteams.
Qed.

End PropPipeline.

Lemma fetch_prop_opportunities_nothing_to_do_witness :
  fetch_prop_opportunities (H := example_runtime) "soccer" sample_normalized
    event_world = (Return ([], 0%Z), event_world).
Proof.
  apply (fetch_prop_opportunities_nothing_to_do (R := example_runtime)).
  left. reflexivity.
Defined.

Lemma fetch_prop_opportunities_teams_witness :
  exists opp,
    fst (fetch_prop_opportunities (H := example_runtime) "nba"
           sample_normalized event_world) = Return ([opp], 0%Z) /\
    opp_home_team opp = Some "H"%string /\
    opp_away_team opp = Some "W"%string.
Proof.
  eexists. split; [reflexivity |].
  destruct (fetch_prop_opportunities_teams (R := example_runtime) "nba"
              sample_normalized event_world _ _ eq_refl _ (or_introl eq_refl))
    as (g & Hg & Hh & Ha).
  cbn in Hg. injection Hg as <-. split; [exact Hh | exact Ha].
Defined.

(** ** The storage of the rows *)

Section Storage.
Context `{C : Clock}.

Lemma format_qualifying_run {Row} (row_of : string -> opportunity -> Row)
    (min : Q) (opps : list opportunity) : forall s,
  format_qualifying
    (fun event => sbind now_isoformat (fun t => sret (row_of t event)))
    min opps s =
  (stamped row_of (clock_reads s) (filter (qualifies min) opps),
   mkStore (clock_reads s + List.length (filter (qualifies min) opps))
     (upserts s)).
Proof.
  set (format := fun event : opportunity =>
                   sbind now_isoformat (fun t => sret (row_of t event))).
  induction opps as [| opp opps IH]; intros s; cbn [format_qualifying filter].
  - cbn. rewrite Nat.add_0_r. now destruct s.
  - destruct (qualifies min opp); [| apply IH].
    unfold sbind at 1.
    replace (format opp s)
      with (row_of (utc_now_isoformat (clock_reads s)) opp,
            mkStore (S (clock_reads s)) (upserts s)) by reflexivity.
    unfold sbind at 1. rewrite IH. cbn.
    now rewrite Nat.add_succ_r.
Qed.

Lemma stamped_length {Row} (row_of : string -> opportunity -> Row) opps :
  forall n, List.length (stamped row_of n opps) = List.length opps.
Proof.
  induction opps as [| opp opps IH]; intros n; cbn; [reflexivity |].
  now rewrite IH.
Qed.

Lemma upsert_moneyline_run (opps : list opportunity) (min : Q) (s : store) :
  upsert_moneyline_opportunities opps min s =
  (stamped moneyline_row_of (clock_reads s) (filter (qualifies min) opps),
   mkStore (clock_reads s + List.length (filter (qualifies min) opps))
     (upserts s ++
      match filter (qualifies min) opps with
      | [] => []
      | _ :: _ =>
          [UpsertMoneyline MONEYLINE_ARBITRAGE_TABLE
             (stamped moneyline_row_of (clock_reads s)
                (filter (qualifies min) opps))
             MONEYLINE_CONFLICT_KEYS]
      end)).
Proof.
  unfold upsert_moneyline_opportunities, sbind at 1.
  unfold _format_moneyline_opportunity.
  rewrite (format_qualifying_run moneyline_row_of).
  destruct (filter (qualifies min) opps); cbn; [now rewrite app_nil_r |].
  reflexivity.
Qed.

Lemma upsert_prop_run (opps : list opportunity) (min : Q) (s : store) :
  upsert_prop_opportunities opps min s =
  (stamped prop_row_of (clock_reads s) (filter (qualifies min) opps),
   mkStore (clock_reads s + List.length (filter (qualifies min) opps))
     (upserts s ++
      match filter (qualifies min) opps with
      | [] => []
      | _ :: _ =>
          [UpsertProp PROP_ARBITRAGE_TABLE
             (stamped prop_row_of (clock_reads s)
                (filter (qualifies min) opps))
             PROP_CONFLICT_KEYS]
      end)).
Proof.
  unfold upsert_prop_opportunities, sbind at 1.
  unfold _format_prop_opportunity.
  rewrite (format_qualifying_run prop_row_of).
  destruct (filter (qualifies min) opps); cbn; [now rewrite app_nil_r |].
  reflexivity.
Qed.

Lemma stamped_profit_moneyline opps min : forall n,
  Forall (fun r => min <= mr_profit_percent r)
    (stamped moneyline_row_of n (filter (qualifies min) opps)).
Proof.
  induction opps as [| opp opps IH]; intros n; cbn; [constructor |].
  destruct (qualifies min opp) eqn:E; [| apply IH].
  cbn. constructor; [| apply IH]. cbn. now apply Qle_bool_iff.
Qed.

Lemma stamped_profit_prop opps min : forall n,
  Forall (fun r => min <= pr_profit_percent r)
    (stamped prop_row_of n (filter (qualifies min) opps)).
Proof.
  induction opps as [| opp opps IH]; intros n; cbn; [constructor |].
  destruct (qualifies min opp) eqn:E; [| apply IH].
  cbn. constructor; [| apply IH]. cbn. now apply Qle_bool_iff.
Qed.

(** X25. The moneyline upsert returns one row per opportunity whose profit
    is at least the threshold, in the order of the input, each stamped with
    the next reading of the clock; every returned row meets the threshold;
    when no opportunity qualifies nothing is sent to the storage, and
    otherwise exactly one upsert of these rows is, to the moneyline table
    with its conflict keys. *)
Theorem upsert_moneyline_opportunities_spec (opps : list opportunity)
    (min : Q) (s : store) :
  let rows := fst (upsert_moneyline_opportunities opps min s) in
  let s' := snd (upsert_moneyline_opportunities opps min s) in
  rows = stamped moneyline_row_of (clock_reads s)
           (filter (qualifies min) opps) /\
  Forall (fun r => min <= mr_profit_percent r) rows /\
  (List.length rows <= List.length opps)%nat /\
  (rows = [] -> upserts s' = upserts s) /\
  (rows <> [] ->
   upserts s' =
   upserts s ++
   [UpsertMoneyline MONEYLINE_ARBITRAGE_TABLE rows MONEYLINE_CONFLICT_KEYS]).
Proof.
  rewrite upsert_moneyline_run. cbn [fst snd upserts].
  split; [reflexivity |]. split; [apply stamped_profit_moneyline |].
  split; [rewrite stamped_length; apply filter_length_le |].
  destruct (filter (qualifies min) opps) as [| opp l]; cbn.
  - split; [intros _; now rewrite app_nil_r | intros H; now elim H].
  - split; [discriminate | reflexivity].
Qed.

(** X26. The prop upsert does the same with the prop rows: one row per
    qualifying opportunity, in order, each meeting the threshold; no call to
    the storage when none qualifies, and otherwise one upsert of these rows
    to the prop table with its conflict keys. *)
Theorem upsert_prop_opportunities_spec (opps : list opportunity)
    (min : Q) (s : store) :
  let rows := fst (upsert_prop_opportunities opps min s) in
  let s' := snd (upsert_prop_opportunities opps min s) in
  rows = stamped prop_row_of (clock_reads s) (filter (qualifies min) opps) /\
  Forall (fun r => min <= pr_profit_percent r) rows /\
  (List.length rows <= List.length opps)%nat /\
  (rows = [] -> upserts s' = upserts s) /\
  (rows <> [] ->
   upserts s' =
   upserts s ++ [UpsertProp PROP_ARBITRAGE_TABLE rows PROP_CONFLICT_KEYS]).
Proof.
  rewrite upsert_prop_run. cbn [fst snd upserts].
  split; [reflexivity |]. split; [apply stamped_profit_prop |].
  split; [rewrite stamped_length; apply filter_length_le |].
  destruct (filter (qualifies min) opps) as [| opp l]; cbn.
  - split; [intros _; now rewrite app_nil_r | intros H; now elim H].
  - split; [discriminate | reflexivity].
Qed.

Lemma filter_split_length {X} (q m : X -> bool) (l : list X) :
  (List.length (filter q (filter m l)) +
   List.length (filter q (filter (fun x => negb (m x)) l)) =
   List.length (filter q l))%nat.
Proof.
  induction l as [| x l IH]; cbn; [reflexivity |].
  destruct (m x); cbn; destruct (q x); cbn; lia.
Qed.

Lemma stamped_market_type opps : forall n,
  Forall (fun opp => is_moneyline opp = false) opps ->
  Forall (fun r => pr_market_type r <> "h2h"%string)
    (stamped prop_row_of n opps).
Proof.
  induction opps as [| opp opps IH]; intros n Hall; cbn; [constructor |].
  inversion Hall as [| ? ? Hopp Hrest]; subst.
  constructor; [| now apply IH]. cbn.
  unfold is_moneyline in Hopp. now apply String.eqb_neq.
Qed.

(** X27. The mixed upsert sends every qualifying opportunity to exactly one
    of the two tables: the rows of market type [h2h] are the moneyline rows,
    no prop row has that market type, and the two lists together have as many
    rows as there are qualifying opportunities. It calls the storage at most
    twice. *)
Theorem upsert_arbitrage_opportunities_split (opps : list opportunity)
    (min : Q) (s : store) :
  let r := fst (upsert_arbitrage_opportunities opps min s) in
  let s' := snd (upsert_arbitrage_opportunities opps min s) in
  moneyline_rows_of r =
    stamped moneyline_row_of (clock_reads s)
      (filter (qualifies min) (filter is_moneyline opps)) /\
  Forall (fun row => pr_market_type row <> "h2h"%string) (prop_rows_of r) /\
  (List.length (moneyline_rows_of r) + List.length (prop_rows_of r) =
   List.length (filter (qualifies min) opps))%nat /\
  exists calls,
    upserts s' = upserts s ++ calls /\ (List.length calls <= 2)%nat.
Proof.
  unfold upsert_arbitrage_opportunities, sbind.
  rewrite upsert_moneyline_run, upsert_prop_run. unfold sret. cbn [fst snd].
  cbn [moneyline_rows_of prop_rows_of clock_reads upserts].
  split; [reflexivity |]. split; [| split].
  - apply stamped_market_type. apply Forall_forall. intros opp Hin.
    apply filter_In in Hin as [Hin _]. apply filter_In in Hin as [_ Hm].
    now apply negb_true_iff.
  - rewrite !stamped_length. apply filter_split_length.
  - eexists. rewrite <- app_assoc. split; [reflexivity |].
    rewrite length_app.
    destruct (filter (qualifies min) (filter is_moneyline opps));
      destruct (filter (qualifies min) (filter _ opps)); cbn; lia.
Qed.

End Storage.

(** The three opportunities of the sample against the default threshold:
    the moneyline one and one prop are stored, each with one call. *)
Example mixed_upsert_scenario :
  upsert_arbitrage_opportunities (H := example_clock) mixed_opportunities
    DEFAULT_MIN_PROFIT_PERCENT (mkStore 0 []) =
  ({| moneyline_rows_of :=
        [ moneyline_row_of "t0" (opp_with "g1" "h2h" (5 # 2)) ];
      prop_rows_of :=
        [ prop_row_of "t1" (opp_with "g1" "player_points" 3) ] |},
   mkStore 2
     [ UpsertMoneyline MONEYLINE_ARBITRAGE_TABLE
         [ moneyline_row_of "t0" (opp_with "g1" "h2h" (5 # 2)) ]
         MONEYLINE_CONFLICT_KEYS;
       UpsertProp PROP_ARBITRAGE_TABLE
         [ prop_row_of "t1" (opp_with "g1" "player_points" 3) ]
         PROP_CONFLICT_KEYS ]).
Proof. reflexivity. Qed.

(** ** The moneyline run *)

Lemma stamped_in {Row} `{Clock} (row_of : string -> opportunity -> Row) opps :
  forall n r, In r (stamped row_of n opps) ->
    exists t opp, In opp opps /\ r = row_of t opp.
Proof.
  induction opps as [| opp opps IH]; intros n r; cbn; [contradiction |].
  intros [<- | Hin].
  - exists (utc_now_isoformat n), opp. split; [now left | reflexivity].
  - destruct (IH _ _ Hin) as (t & o & Ho & ->). exists t, o.
    split; [now right | reflexivity].
Qed.

Section MoneylineRun.
Context `{R : Runtime} `{C : Clock}.

(** X28. The moneyline run stores nothing and prints nothing when the
    fetch fails: on an error status it raises the HTTP failure, and a body
    with a game that lacks [id], [home_team] or [away_team] does not make it
    return. Whenever it returns, the body normalizes, and with the rows
    detected in the normalized games: what it returns are the rows of the
    detected opportunities of at least 1.99 percent, in order, stamped at
    successive readings of the clock; each has the id of a raw game of the
    body; they are sent in one upsert, or in none when there is no row; and
    one summary line is printed with the number of detected opportunities
    and the number of rows. *)
Theorem fetch_and_process_moneyline_spec (sport_key : string)
    (w : world (list raw_game)) (s : store) status hdr raw_games rest :
  pending w = Response status hdr raw_games :: rest ->
  let run := fetch_and_process_moneyline sport_key (w, s) in
  (error_status status = true ->
     fst run = Raise (HTTPError status hdr) /\ snd (snd run) = s /\
     printed (fst (snd run)) = printed w) /\
  ((exists g, In g raw_games /\ ~ complete_game g) ->
     (forall rows, fst run <> Return rows) /\ snd (snd run) = s /\
     printed (fst (snd run)) = printed w) /\
  (forall rows, fst run = Return rows ->
     exists normalized,
       normalize_moneyline_odds raw_games = inr normalized /\
       let opps := detect_moneyline_arbitrage normalized in
       rows = stamped moneyline_row_of (clock_reads s)
                (filter (qualifies DEFAULT_MIN_PROFIT_PERCENT) opps) /\
       Forall (fun r => DEFAULT_MIN_PROFIT_PERCENT <= mr_profit_percent r)
         rows /\
       (List.length rows <= List.length opps <= List.length raw_games)%nat /\
       (forall r, In r rows ->
          exists g, In g raw_games /\ g_id g = Some (mr_game_id r)) /\
       upserts (snd (snd run)) =
         upserts s ++
         match rows with
         | [] => []
         | _ :: _ =>
             [UpsertMoneyline MONEYLINE_ARBITRAGE_TABLE rows
                MONEYLINE_CONFLICT_KEYS]
         end /\
       printed (fst (snd run)) =
         printed w ++
         [moneyline_summary (List.length opps) (List.length rows)]).
Proof.
  intros Hp run.
  assert (Hrun : fetch_upcoming_games sport_key w =
                 (if error_status status then Raise (HTTPError status hdr)
                  else Return raw_games,
                  mkWorld rest
                    (requests w ++
                     [request_of
                        ("/sports/" ++ resolve_sport_key sport_key ++ "/odds")%string
                        ["h2h"%string]]) (slept w) (printed w))).
  { rewrite fetch_upcoming_games_request, _request_run, Hp.
    unfold after. cbn [repeat]. now rewrite app_nil_r. }
  unfold run, fetch_and_process_moneyline, fetch_moneyline_opportunities, bind.
  rewrite Hrun. split; [| split].
  - intros ->. cbn. repeat split.
  - intros Hbad. destruct (normalize_incomplete_raises _ Hbad) as (k & Ek).
    destruct (error_status status); [cbn; repeat split; discriminate |].
    cbv beta iota zeta. rewrite Ek. cbn. repeat split; discriminate.
  - intros rows.
    destruct (error_status status); [discriminate |].
    cbv beta iota zeta.
    destruct (normalize_moneyline_odds raw_games) as [e | n] eqn:En;
      [discriminate |].
    unfold ret. rewrite upsert_moneyline_run. unfold print.
    cbn [fst snd printed upserts]. intros [= <-].
    exists n. split; [reflexivity |]. cbv zeta.
    split; [reflexivity |].
    split; [apply stamped_profit_moneyline |].
    split; [split; [rewrite stamped_length; apply filter_length_le |] |].
    + pose proof (fold_add_game_length raw_games [] n En). cbn in *.
      pose proof (moneyline_rows_length n). lia.
    + split; [| split; [| reflexivity]].
      * intros r Hr. apply stamped_in in Hr as (t & opp & Hopp & ->).
        apply filter_In in Hopp as [Hopp _].
        apply moneyline_row_game_id in Hopp.
        pose proof (normalize_returns_complete _ _ En) as Hall.
        apply Forall_forall in Hall.
        destruct (fold_add_game_complete raw_games [] Hall)
          as (n' & En' & _ & Hkeys).
        assert (n' = n)
        by (pose proof (En' : normalize_moneyline_odds raw_games = inr n');
            congruence).
        subst n'. apply Hkeys in Hopp as [[] | Hg]. exact Hg.
      * f_equal.
        destruct (filter (qualifies DEFAULT_MIN_PROFIT_PERCENT)
                    (detect_moneyline_arbitrage n)); reflexivity.
Qed.

End MoneylineRun.

Lemma fetch_and_process_moneyline_spec_witness :
  exists row,
    fetch_and_process_moneyline (H := example_runtime) (H0 := example_clock)
      "nba" (games_world, mkStore 0 []) =
    (Return [row],
     (mkWorld []
        [request_of (H := example_runtime) "/sports/basketball_nba/odds"
           ["h2h"%string]] []
        ["Moneyline run complete. Opportunities: 1. Upserted: 1."%string],
      mkStore 1
        [UpsertMoneyline MONEYLINE_ARBITRAGE_TABLE [row]
           MONEYLINE_CONFLICT_KEYS])) /\
    mr_game_id row = "g1"%string /\ mr_detected_at row = "t0"%string /\
    DEFAULT_MIN_PROFIT_PERCENT <= mr_profit_percent row.
Proof.
  destruct (fetch_and_process_moneyline_spec (R := example_runtime)
              (C := example_clock) "nba" games_world (mkStore 0 [])
              200%Z None sample_games [] eq_refl) as (_ & _ & Hok).
  eexists. split; [reflexivity |]. split; [reflexivity |].
  split; [reflexivity |].
  destruct (Hok _ eq_refl) as (n & _ & _ & Hprofit & _).
  inversion Hprofit as [| r rs Hr _]. exact Hr.
Defined.
